(** * Jerry command-resilience layer: a shallow embedding

    The services of [src/services/security.ts] (bridge authentication,
    command validation, system monitor, command queue) and of
    [src/services/workflowEngine.ts] (workflow engine, key manager) are
    embedded as functions over explicit state.

    Conventions of the embedding:
    - a JavaScript number that holds a count or a millisecond instant is a
      [Z]; a percentage, which is only compared, is a [Q]; the health score
      of a key, which is rounded, lives in an arithmetic that is a
      parameter ([NeuralKeyManager.Numbers]); a number read from a string
      by [Number] is the double the literal rounds to
      ([JSString.toNumber]);
    - a JavaScript string is a [string] of 8-bit characters, and
      [toLowerCase] acts on the letters A-Z;
    - an object mutated in place is a record in the state that is replaced
      by its updated copy;
    - a callback stored by the service is a handle; calling it appends an
      event to the trace the operation returns;
    - a read of the clock, of the random source or a call to the outside
      (bridge sender, workflow executor) is an argument or an oracle indexed
      by the number of calls made so far. *)

From Stdlib Require Import ZArith QArith List String Ascii Bool Lia.
From stdpp Require Import base gmap strings list pretty.

Close Scope Q_scope.
Open Scope Z_scope.

(** ** JavaScript values held in a command object *)

Inductive value :=
  | VUndefined
  | VNull
  | VBool (b : bool)
  | VNumber (n : Z)
  | VString (s : string).

(** A command is a [Record<string, any>]. *)
Abbreviation Command := (gmap string value).

(** Handle of a closure passed in by a caller. *)
Definition Callback := nat.

(** The argument a callback receives as its error. *)
Inductive ErrorValue :=
  | ErrText (s : string)          (* a plain string *)
  | ErrObject (message : string). (* an Error object *)

(** ** JavaScript string operations used by the services *)
Module JSString.

(** [String.prototype.toLowerCase] on one character. *)
Definition lowerChar (c : ascii) : ascii :=
  let n := nat_of_ascii c in
  if ((65 <=? n) && (n <=? 90))%nat then ascii_of_nat (n + 32) else c.

Fixpoint toLowerCase (s : string) : string :=
  match s with
  | EmptyString => EmptyString
  | String c s' => String (lowerChar c) (toLowerCase s')
  end.

(** [s.includes(pat)] *)
Fixpoint includes (s pat : string) : bool :=
  String.prefix pat s ||
  match s with
  | EmptyString => false
  | String _ s' => includes s' pat
  end.

(** A string is truthy when it is not empty. *)
Definition truthy (s : string) : bool :=
  match s with
  | EmptyString => false
  | _ => true
  end.

(** [o || d] for an optional string. *)
Definition orElse (o : option string) (d : string) : string :=
  match o with
  | Some s => if truthy s then s else d
  | None => d
  end.

(** The characters the regular expression class [\s] matches, among the
    8-bit characters. *)
Definition isSpace (c : ascii) : bool :=
  let n := nat_of_ascii c in
  ((n =? 32) || ((9 <=? n) && (n <=? 13)) || (n =? 160))%nat.

(** [s.replace(/\s+/g, '_')]; [inRun] tells that the previous character
    was white space. *)
Fixpoint replaceSpaceRuns (inRun : bool) (s : string) : string :=
  match s with
  | EmptyString => EmptyString
  | String c s' =>
      if isSpace c then
        if inRun then replaceSpaceRuns true s'
        else String "_" (replaceSpaceRuns true s')
      else String c (replaceSpaceRuns false s')
  end.

(** [s.split(sep)] on a one-character separator. *)
Fixpoint splitOn (sep : ascii) (s : string) : list string :=
  match s with
  | EmptyString => [EmptyString]
  | String c s' =>
      if Ascii.eqb c sep then EmptyString :: splitOn sep s'
      else
        match splitOn sep s' with
        | [] => [String c EmptyString]
        | p :: ps => String c p :: ps
        end
  end.

(** [s.trimStart()], [s.trimEnd()] and [s.trim()]: white space and line
    terminators are the characters of [isSpace]. In [trimEnd] a character
    is dropped when all that follows it, and itself, is white space. *)
Fixpoint trimStart (s : string) : string :=
  match s with
  | EmptyString => EmptyString
  | String c s' => if isSpace c then trimStart s' else s
  end.

Fixpoint trimEnd (s : string) : string :=
  match s with
  | EmptyString => EmptyString
  | String c s' =>
      match trimEnd s' with
      | EmptyString => if isSpace c then EmptyString else String c EmptyString
      | t => String c t
      end
  end.

Definition trim (s : string) : string := trimEnd (trimStart s).

(** *** Numbers read from strings *)

(** A JavaScript number as comparisons see it: a double that is not [NaN]
    or infinite is the rational it denotes; the sign of zero is not
    represented. *)
Inductive number :=
  | NaN
  | Infinite (negative : bool)
  | Finite (q : Q).

Definition negate (x : number) : number :=
  match x with
  | NaN => NaN
  | Infinite b => Infinite (negb b)
  | Finite q => Finite (Qopp q)
  end.

(** [2^e <= n/d], for [d > 0]. *)
Definition atLeastPow2 (n d e : Z) : bool :=
  if 0 <=? e then d * 2 ^ e <=? n else d <=? n * 2 ^ (- e).

(** The double nearest to [n/d] ([0 <= n], [0 < d]), ties to the even
    significand: 53 bits of significand above the exponent -1074 of the
    subnormal numbers, and [Infinity] from [2^1024] on. *)
Definition roundDouble (n d : Z) : number :=
  if n =? 0 then Finite 0
  else
    let e0 := Z.log2 n - Z.log2 d in
    let e := if atLeastPow2 n d e0 then e0 else e0 - 1 in
    let p := Z.max (e - 52) (-1074) in
    let num := if 0 <=? p then n else n * 2 ^ (- p) in
    let den := if 0 <=? p then d * 2 ^ p else d in
    let m := num / den in
    let r := num mod den in
    let m' :=
      if 2 * r <? den then m
      else if den <? 2 * r then m + 1
      else if Z.even m then m else m + 1 in
    if 0 <=? p then
      if 2 ^ 1024 <=? m' * 2 ^ p then Infinite false
      else Finite (inject_Z (m' * 2 ^ p))
    else Finite (Qred (m' # Z.to_pos (2 ^ (- p)))).

(** The value of a digit in [radix], for a radix up to 16. *)
Definition digitValue (radix : Z) (c : ascii) : option Z :=
  let n := Z.of_nat (nat_of_ascii c) in
  let d :=
    if (48 <=? n) && (n <=? 57) then n - 48
    else if (97 <=? n) && (n <=? 102) then n - 87
    else if (65 <=? n) && (n <=? 70) then n - 55
    else radix in
  if d <? radix then Some d else None.

(** The longest run of digits at the head of [s]: its value after the
    digits [acc] read before, the number of digits read so far, and what
    follows the run. *)
Fixpoint digits (radix : Z) (acc : Z) (count : nat) (s : string) : Z * nat * string :=
  match s with
  | EmptyString => (acc, count, s)
  | String c s' =>
      match digitValue radix c with
      | Some d => digits radix (acc * radix + d) (S count) s'
      | None => (acc, count, s)
      end
  end.

Definition radixOf (c : ascii) : option Z :=
  if (Ascii.eqb c "x" || Ascii.eqb c "X")%char then Some 16
  else if (Ascii.eqb c "o" || Ascii.eqb c "O")%char then Some 8
  else if (Ascii.eqb c "b" || Ascii.eqb c "B")%char then Some 2
  else None.

(** [0x], [0o] and [0b] literals, which take no sign; [None] when the
    string does not start as one. *)
Definition nonDecimalLiteral (t : string) : option number :=
  match t with
  | String "0" (String c rest) =>
      match radixOf c with
      | Some radix =>
          match digits radix 0 O rest with
          | (v, S _, EmptyString) => Some (roundDouble v 1)
          | _ => Some NaN
          end
      | None => None
      end
  | _ => None
  end.

(** The exponent part that ends a decimal literal, 0 when there is none. *)
Definition exponentPart (s : string) : option Z :=
  match s with
  | EmptyString => Some 0
  | String c s' =>
      if (Ascii.eqb c "e" || Ascii.eqb c "E")%char then
        let '(neg, s'') :=
          match s' with
          | String "-" r => (true, r)
          | String "+" r => (false, r)
          | _ => (false, s')
          end in
        match digits 10 0 O s'' with
        | (v, S _, EmptyString) => Some (if neg then - v else v)
        | _ => None
        end
      else None
  end.

(** [Infinity], or digits with an optional fraction and exponent, at
    least one digit before or after the point. *)
Definition unsignedDecimal (s : string) : number :=
  if String.eqb s "Infinity" then Infinite false
  else
    let '(ip, ni, r1) := digits 10 0 O s in
    let '(mant, nall, r3) :=
      match r1 with
      | String "." r2 => digits 10 ip ni r2
      | _ => (ip, ni, r1)
      end in
    match nall with
    | O => NaN
    | S _ =>
        match exponentPart r3 with
        | Some e =>
            let k := e - Z.of_nat (nall - ni) in
            if 0 <=? k then roundDouble (mant * 10 ^ k) 1
            else roundDouble mant (10 ^ (- k))
        | None => NaN
        end
    end.

Definition strDecimalLiteral (t : string) : number :=
  match t with
  | String "+" r => unsignedDecimal r
  | String "-" r => negate (unsignedDecimal r)
  | _ => unsignedDecimal t
  end.

(** [Number(s)]: white space around the literal is dropped; the empty
    string is 0; a literal that is not of the grammar is [NaN]; and the
    value of a literal is rounded to the nearest double, as the engines
    do for literals of any length. *)
Definition toNumber (s : string) : number :=
  match trim s with
  | EmptyString => Finite 0
  | t =>
      match nonDecimalLiteral t with
      | Some v => v
      | None => strDecimalLiteral t
      end
  end.

(** [x > y], [x < y], [x >= y] and [x === y] for an integer [x] and a
    number [y]; every comparison with [NaN] is false. *)
Definition gtNumber (x : Z) (y : number) : bool :=
  match y with
  | NaN => false
  | Infinite negative => negative
  | Finite q => negb (Qle_bool (inject_Z x) q)
  end.

Definition ltNumber (x : Z) (y : number) : bool :=
  match y with
  | NaN => false
  | Infinite negative => negb negative
  | Finite q => negb (Qle_bool q (inject_Z x))
  end.

Definition geNumber (x : Z) (y : number) : bool :=
  match y with
  | NaN => false
  | Infinite negative => negative
  | Finite q => Qle_bool q (inject_Z x)
  end.

Definition eqNumber (x : Z) (y : number) : bool :=
  match y with
  | Finite q => Qeq_bool (inject_Z x) q
  | _ => false
  end.

End JSString.

(** ** JavaScript array operations used by the services *)
Module JSArray.

(** [arr.slice(start)] for an integer [start]: a negative start counts
    from the end, and both ends are clamped. *)
Definition sliceFrom {A} (start : Z) (l : list A) : list A :=
  let len := Z.of_nat (length l) in
  let from := if start <? 0 then Z.max (len + start) 0 else Z.min start len in
  skipn (Z.to_nat from) l.

(** [arr.push(x)] followed by [if (arr.length > cap) arr.shift()]. *)
Definition pushBounded {A} (cap : nat) (l : list A) (x : A) : list A :=
  let l' := l ++ [x] in
  if (cap <? length l')%nat then tl l' else l'.

End JSArray.

(** ** Command queue (security.ts, class CommandQueue) *)
Module CommandQueue.

Inductive Priority := critical | high | normal | low.
Inductive Status := queued | executing | completed | failed.

Record QueuedCommand := mkQueuedCommand {
  cmd_id : string;
  command : Command;
  priority : Priority;
  addedAt : Z;
  attempts : Z;
  maxRetries : Z;
  status : Status;
  onComplete : option Callback;
  onError : option Callback
}.

Inductive SendResult :=
  | SendTrue            (* the sender returned a truthy value *)
  | SendFalse           (* the sender returned a falsy value *)
  | SendThrew (e : ErrorValue).

(** The bridge sender; its answer may change from one call to the next, so
    it is indexed by the number of sends already made in the flush. *)
Definition Sender := nat -> Command -> SendResult.

Record RateLimiter := mkRateLimiter {
  maxPerSecond : Z;
  tokens : Z;
  lastRefill : Z
}.

Record State := mkState {
  queue : list QueuedCommand;
  processing : bool;
  bridgeSender : option Sender;
  rateLimiter : RateLimiter
}.

(** [private maxSize: number = 100], never reassigned. *)
Definition maxSize : nat := 100.

(** [new CommandQueue()] at clock reading [now]. *)
Definition init (now : Z) : State :=
  {| queue := [];
     processing := false;
     bridgeSender := None;
     rateLimiter := {| maxPerSecond := 10; tokens := 10; lastRefill := now |} |}.

Definition setBridgeSender (st : State) (sender : Sender) : State :=
  {| queue := queue st;
     processing := processing st;
     bridgeSender := Some sender;
     rateLimiter := rateLimiter st |}.

Definition set_queue (st : State) (q : list QueuedCommand) : State :=
  {| queue := q;
     processing := processing st;
     bridgeSender := bridgeSender st;
     rateLimiter := rateLimiter st |}.

Inductive Event :=
  | CallOnError (cb : Callback) (err : ErrorValue)
  | CallOnComplete (cb : Callback).

(** [const priorityOrder = { critical: 0, high: 1, normal: 2, low: 3 }] *)
Definition priorityOrder (p : Priority) : Z :=
  match p with
  | critical => 0
  | high => 1
  | normal => 2
  | low => 3
  end.

(** [Array.prototype.findIndex]; [None] stands for -1. *)
Fixpoint findIndex {A} (f : A -> bool) (l : list A) : option nat :=
  match l with
  | [] => None
  | x :: l' => if f x then Some O else option_map S (findIndex f l')
  end.

(** [arr.splice(i, 0, x)] *)
Definition splice_in {A} (i : nat) (x : A) (l : list A) : list A :=
  firstn i l ++ x :: skipn i l.

(** The two branches on [insertIndex] in [enqueue]. *)
Definition insertByPriority (item : QueuedCommand) (q : list QueuedCommand)
  : list QueuedCommand :=
  match findIndex (fun x => priorityOrder (priority x) >? priorityOrder (priority item)) q with
  | None => q ++ [item]
  | Some i => splice_in i item q
  end.

Definition overflowNotice : string := "Queue overflow: command dropped".

(** The "trim if over max" block: [pop] and the optional [onError] call. *)
Definition trim (q : list QueuedCommand) : list QueuedCommand * list Event :=
  if (maxSize <? length q)%nat then
    (removelast q,
     match last q with
     | Some removed =>
         match onError removed with
         | Some cb => [CallOnError cb (ErrText overflowNotice)]
         | None => []
         end
     | None => []
     end)
  else (q, []).

(** The arguments of one [enqueue] call, with what the call reads from the
    environment: [req_id] is the generated id string and [req_now] the
    clock reading stored in [addedAt]. *)
Record Request := mkRequest {
  req_command : Command;
  req_priority : option Priority;    (* default 'normal' *)
  req_maxRetries : option Z;         (* default 3 *)
  req_onComplete : option Callback;
  req_onError : option Callback;
  req_id : string;
  req_now : Z
}.

Definition newItem (r : Request) : QueuedCommand :=
  {| cmd_id := req_id r;
     command := req_command r;
     priority := default normal (req_priority r);
     addedAt := req_now r;
     attempts := 0;
     maxRetries := default 3 (req_maxRetries r);
     status := queued;
     onComplete := req_onComplete r;
     onError := req_onError r |}.

(** [enqueue]: returns the item, the new state and the callbacks invoked. *)
Definition enqueue (st : State) (r : Request) : QueuedCommand * State * list Event :=
  let item := newItem r in
  let '(q, evs) := trim (insertByPriority item (queue st)) in
  (item, set_queue st q, evs).

(** A run of [enqueue] calls; the state and the whole trace. *)
Fixpoint enqueueAll (st : State) (rs : list Request) : State * list Event :=
  match rs with
  | [] => (st, [])
  | r :: rs' =>
      let '(_, st1, evs) := enqueue st r in
      let '(st2, evs') := enqueueAll st1 rs' in
      (st2, evs ++ evs')
  end.

Definition isQueued (q : QueuedCommand) : bool :=
  match status q with queued => true | _ => false end.

Definition isExecuting (q : QueuedCommand) : bool :=
  match status q with executing => true | _ => false end.

Definition hasPriority (p : Priority) (q : QueuedCommand) : bool :=
  match p, priority q with
  | critical, critical | high, high | normal, normal | low, low => true
  | _, _ => false
  end.

Record ByPriority := mkByPriority {
  bp_critical : Z;
  bp_high : Z;
  bp_normal : Z;
  bp_low : Z
}.

Record QueueStatus := mkQueueStatus {
  size : Z;
  pending : Z;
  executing_count : Z;
  byPriority : ByPriority
}.

(** [byPriority[q.priority]++] *)
Definition bump (b : ByPriority) (q : QueuedCommand) : ByPriority :=
  match priority q with
  | critical => {| bp_critical := bp_critical b + 1; bp_high := bp_high b;
                   bp_normal := bp_normal b; bp_low := bp_low b |}
  | high => {| bp_critical := bp_critical b; bp_high := bp_high b + 1;
               bp_normal := bp_normal b; bp_low := bp_low b |}
  | normal => {| bp_critical := bp_critical b; bp_high := bp_high b;
                 bp_normal := bp_normal b + 1; bp_low := bp_low b |}
  | low => {| bp_critical := bp_critical b; bp_high := bp_high b;
              bp_normal := bp_normal b; bp_low := bp_low b + 1 |}
  end.

Definition getStatus (st : State) : QueueStatus :=
  {| size := Z.of_nat (length (queue st));
     pending := Z.of_nat (length (List.filter isQueued (queue st)));
     executing_count := Z.of_nat (length (List.filter isExecuting (queue st)));
     byPriority :=
       fold_left bump (List.filter isQueued (queue st))
                 {| bp_critical := 0; bp_high := 0; bp_normal := 0; bp_low := 0 |} |}.

Definition bp_sum (b : ByPriority) : Z :=
  bp_critical b + bp_high b + bp_normal b + bp_low b.

Definition set_status (q : QueuedCommand) (s : Status) (n : Z) : QueuedCommand :=
  {| cmd_id := cmd_id q; command := command q; priority := priority q;
     addedAt := addedAt q; attempts := n; maxRetries := maxRetries q;
     status := s; onComplete := onComplete q; onError := onError q |}.

(** What one flush has accumulated so far. *)
Record FlushAcc := mkFlushAcc {
  fa_sends : nat;                      (* sender calls made *)
  fa_sent : Z;
  fa_failed : Z;
  fa_attempted : list QueuedCommand;   (* items in the order delivery was tried *)
  fa_events : list Event
}.

(** The body of the [for (const item of toProcess)] loop. The token wait
    and the pacing delay suspend the loop and touch only the rate limiter;
    they are left out. *)
Definition flushItem (sender : Sender) (acc : FlushAcc) (item : QueuedCommand)
  : FlushAcc * QueuedCommand :=
  let n := attempts item + 1 in
  let failure (e : ErrorValue) :=
    if n >=? maxRetries item then
      ({| fa_sends := S (fa_sends acc); fa_sent := fa_sent acc;
          fa_failed := fa_failed acc + 1;
          fa_attempted := fa_attempted acc ++ [item];
          fa_events := fa_events acc ++
            match onError item with
            | Some cb => [CallOnError cb e]
            | None => []
            end |},
       set_status item failed n)
    else
      ({| fa_sends := S (fa_sends acc); fa_sent := fa_sent acc;
          fa_failed := fa_failed acc + 1;
          fa_attempted := fa_attempted acc ++ [item];
          fa_events := fa_events acc |},
       set_status item queued n) in
  match sender (fa_sends acc) (command item) with
  | SendTrue =>
      ({| fa_sends := S (fa_sends acc); fa_sent := fa_sent acc + 1;
          fa_failed := fa_failed acc;
          fa_attempted := fa_attempted acc ++ [item];
          fa_events := fa_events acc |},
       set_status item completed n)
  | SendFalse => failure (ErrObject "Send failed")
  | SendThrew e => failure e
  end.

(** The loop over the queue: the items that were [queued] when the flush
    started are processed in queue order and updated in place. *)
Fixpoint flushLoop (sender : Sender) (acc : FlushAcc) (q : list QueuedCommand)
  : FlushAcc * list QueuedCommand :=
  match q with
  | [] => (acc, [])
  | item :: q' =>
      if isQueued item then
        let '(acc1, item1) := flushItem sender acc item in
        let '(acc2, q2) := flushLoop sender acc1 q' in
        (acc2, item1 :: q2)
      else
        let '(acc2, q2) := flushLoop sender acc q' in
        (acc2, item :: q2)
  end.

Record FlushResult := mkFlushResult {
  fr_sent : Z;
  fr_failed : Z;
  fr_attempted : list QueuedCommand;
  fr_events : list Event
}.

Definition flush (st : State) : FlushResult * State :=
  match bridgeSender st with
  | None => ({| fr_sent := 0; fr_failed := 0; fr_attempted := []; fr_events := [] |}, st)
  | Some sender =>
      if processing st then
        ({| fr_sent := 0; fr_failed := 0; fr_attempted := []; fr_events := [] |}, st)
      else
        let '(acc, q) :=
          flushLoop sender
            {| fa_sends := O; fa_sent := 0; fa_failed := 0;
               fa_attempted := []; fa_events := [] |}
            (queue st) in
        ({| fr_sent := fa_sent acc; fr_failed := fa_failed acc;
            fr_attempted := fa_attempted acc; fr_events := fa_events acc |},
         set_queue st (List.filter isQueued q))
  end.

(** The queue the spec's wording describes for a full queue: the tail is
    evicted first and the new item inserted afterwards. *)
Definition enqueue_evict_first (st : State) (r : Request)
  : QueuedCommand * State * list Event :=
  let item := newItem r in
  if (maxSize <=? length (queue st))%nat then
    (item,
     set_queue st (insertByPriority item (removelast (queue st))),
     match last (queue st) with
     | Some removed =>
         match onError removed with
         | Some cb => [CallOnError cb (ErrText overflowNotice)]
         | None => []
         end
     | None => []
     end)
  else (item, set_queue st (insertByPriority item (queue st)), []).

(** The comparison [enqueue] hands to [findIndex]. *)
Definition after (item x : QueuedCommand) : bool :=
  priorityOrder (priority x) >? priorityOrder (priority item).

(** One [enqueue] on the queue alone. *)
Definition enqueueItem (q : list QueuedCommand) (item : QueuedCommand) :=
  fst (trim (insertByPriority item q)).

(** Items in priority order, arrival order kept inside each tier. *)
Definition tiers (l : list QueuedCommand) : list QueuedCommand :=
  List.filter (hasPriority critical) l ++ List.filter (hasPriority high) l
  ++ List.filter (hasPriority normal) l ++ List.filter (hasPriority low) l.

Definition priorityLe (a b : QueuedCommand) : Prop :=
  priorityOrder (priority a) <= priorityOrder (priority b).

(** No item is followed by one of a more urgent tier. *)
Fixpoint sortedb (q : list QueuedCommand) : bool :=
  match q with
  | [] => true
  | a :: q' =>
      match q' with
      | [] => true
      | b :: _ => (priorityOrder (priority a) <=? priorityOrder (priority b)) && sortedb q'
      end
  end.

(** Sample data: the [n]-th of a run of requests of one priority. *)
Definition sampleRequest (p : Priority) (n : nat) : Request :=
  {| req_command := {[ "action" := VString "open_app" ]};
     req_priority := Some p;
     req_maxRetries := None;
     req_onComplete := None;
     req_onError := Some n;
     req_id := "cmd_" +:+ pretty n;
     req_now := 1700000000000 + Z.of_nat n |}.

(** A queue at capacity holding 100 low-priority items. *)
Definition fullOfLow : State :=
  fst (enqueueAll (init 1700000000000) (map (sampleRequest low) (seq 0 100))).

(** An item that stays queued after delivery was tried on it. *)
Definition retried (o x : QueuedCommand) : Prop :=
  isQueued o = true
  /\ x = set_status o queued (attempts o + 1)
  /\ attempts o + 1 < maxRetries o.

(** [clear]: the [onError] of every item that has one is called with the
    reason, in queue order, and the queue is emptied. *)
Definition clear (st : State) : State * list Event :=
  (set_queue st [],
   flat_map
     (fun q =>
        match onError q with
        | Some cb => [CallOnError cb (ErrText "Queue cleared")]
        | None => []
        end)
     (queue st)).

(** The getter [pendingCount]. *)
Definition pendingCount (st : State) : Z :=
  Z.of_nat (length (List.filter isQueued (queue st))).

(** Sample data: a sender that accepts everything, and a queue of three
    items of mixed priority with that sender registered. *)
Definition acceptingSender : Sender := fun _ _ => SendTrue.

Definition refusingSender : Sender := fun _ _ => SendFalse.

Definition mixedQueue (sender : Sender) : State :=
  fst (enqueueAll (setBridgeSender (init 1700000000000) sender)
         [sampleRequest normal 0; sampleRequest critical 1; sampleRequest low 2]).

End CommandQueue.

(** ** Activity log (security.ts, class ActivityLogger) *)
Module ActivityLogger.

Inductive Source := voice | manual | automation | system.
Inductive Status := success | failed | pending | blocked.

(** An ISO time stamp is represented by the instant it denotes. *)
Record ActivityLog := mkActivityLog {
  log_id : string;
  timestamp : Z;
  action : string;
  target : string;
  source : Source;
  status : Status;
  details : option string
}.

Record State := mkState { logs : list ActivityLog }.

(** [private maxLogs: number = 1000] *)
Definition maxLogs : nat := 1000.

Definition init : State := {| logs := [] |}.

(** The arguments of one [log] call with their defaults resolved by the
    caller's omission ([None]), and what the call reads from outside: the
    generated id and the clock. *)
Record LogRequest := mkLogRequest {
  lr_action : string;
  lr_target : option string;     (* default '' *)
  lr_source : option Source;     (* default 'voice' *)
  lr_status : option Status;     (* default 'success' *)
  lr_details : option string;
  lr_id : string;
  lr_now : Z
}.

Definition newEntry (r : LogRequest) : ActivityLog :=
  {| log_id := lr_id r;
     timestamp := lr_now r;
     action := lr_action r;
     target := default EmptyString (lr_target r);
     source := default voice (lr_source r);
     status := default success (lr_status r);
     details := lr_details r |}.

Definition log (st : State) (r : LogRequest) : ActivityLog * State :=
  let entry := newEntry r in
  (entry, {| logs := JSArray.pushBounded maxLogs (logs st) entry |}).

(** A run of [log] calls. *)
Definition logAll (st : State) (rs : list LogRequest) : State :=
  fold_left (fun s r => snd (log s r)) rs st.

(** [getRecent(count = 20)]: [logs.slice(-count)]. *)
Definition getRecent (st : State) (count : option Z) : list ActivityLog :=
  JSArray.sliceFrom (- default 20 count) (logs st).

Definition getByAction (st : State) (a : string) : list ActivityLog :=
  List.filter (fun l => String.eqb (action l) a) (logs st).

Definition isFailed (l : ActivityLog) : bool :=
  match status l with failed => true | _ => false end.

Definition isSuccess (l : ActivityLog) : bool :=
  match status l with success => true | _ => false end.

Definition getFailures (st : State) : list ActivityLog :=
  List.filter isFailed (logs st).

Definition clear (st : State) : State := {| logs := [] |}.

(** The counts of [getStats]; its [successRate], a rounded quotient of
    numbers, is not represented. *)
Record Stats := mkStats {
  total : Z;
  successful : Z;
  failed_count : Z
}.

Definition getStats (st : State) : Stats :=
  {| total := Z.of_nat (length (logs st));
     successful := Z.of_nat (length (List.filter isSuccess (logs st)));
     failed_count := Z.of_nat (length (List.filter isFailed (logs st))) |}.

(** Sample data: the [n]-th of a run of requests. *)
Definition sampleLog (n : nat) : LogRequest :=
  {| lr_action := "open_app"; lr_target := Some "chrome"; lr_source := None;
     lr_status := if Nat.even n then None else Some failed;
     lr_details := None;
     lr_id := "log_" +:+ pretty n;
     lr_now := 1700000000000 + Z.of_nat n |}.

End ActivityLogger.

(** ** Bridge authentication (security.ts, class BridgeAuthenticator) *)
Module BridgeAuthenticator.

Record State := mkState { token : string }.

(** The constructor: [token] is the argument and [envToken] the value of
    [VITE_JERRY_BRIDGE_TOKEN]; [None] is the thrown error. *)
Definition construct (tok envToken : option string) : option State :=
  if negb (JSString.truthy (default EmptyString tok))
     && negb (JSString.truthy (default EmptyString envToken))
  then None
  else Some {| token := JSString.orElse tok (default EmptyString envToken) |}.

Definition hexDigits : list ascii :=
  list_ascii_of_string "0123456789abcdef".

Definition hexDigit (n : nat) : ascii := nth n hexDigits "0"%char.

(** [b.toString(16)] for a byte. *)
Definition toString16 (b : Byte.byte) : string :=
  let n := N.to_nat (Byte.to_N b) in
  if (n <? 16)%nat then String (hexDigit n) EmptyString
  else String (hexDigit (n / 16)) (String (hexDigit (n mod 16)) EmptyString).

(** [s.padStart(n, c)] *)
Definition padStart (n : nat) (c : ascii) (s : string) : string :=
  string_of_list_ascii (repeat c (n - String.length s)) +:+ s.

(** [arr.join('')] *)
Definition join (l : list string) : string :=
  fold_right String.append EmptyString l.

(** [generateNonce]: [random i] is the byte the random source (either
    branch) stores at index [i] of the 16-byte array. *)
Definition generateNonce (random : nat -> Byte.byte) : string :=
  let bytes := map random (seq 0 16) in
  join (map (fun b => padStart 2 "0"%char (toString16 b)) bytes).

(** [wrapCommand]: the spread of [command] followed by the three keys;
    [now] is the reading of [Date.now()]. *)
Definition wrapCommand (st : State) (command : Command) (now : Z)
    (random : nat -> Byte.byte) : Command :=
  let nonce := generateNonce random in
  <["nonce" := VString nonce]>
    (<["timestamp" := VNumber now]>
      (<["auth_token" := VString (token st)]> command)).

Definition getToken (st : State) : string := token st.

(** The keys [wrapCommand] writes. *)
Definition authKeys : gset string := {["auth_token"; "timestamp"; "nonce"]}.

(** The two characters [generateNonce] writes for one byte. *)
Definition hexByte (b : Byte.byte) : string := padStart 2 "0"%char (toString16 b).

(** Reading a byte back from its two hexadecimal characters. *)
Definition hexValue (c : ascii) : option N :=
  let n := nat_of_ascii c in
  if ((48 <=? n) && (n <=? 57))%nat then Some (N.of_nat (n - 48))
  else if ((97 <=? n) && (n <=? 102))%nat then Some (N.of_nat (n - 87))
  else None.

Definition unhexByte (s : string) : option Byte.byte :=
  match s with
  | String c1 (String c2 _) =>
      match hexValue c1, hexValue c2 with
      | Some h, Some l => Byte.of_N (16 * h + l)
      | _, _ => None
      end
  | _ => None
  end.

(** Sample data: a random source that stores the same byte everywhere, and
    a command that already carries a [nonce] field. *)
Definition constantRandom (b : Byte.byte) : nat -> Byte.byte := fun _ => b.

Definition sampleState : State := {| token := "bridge-secret" |}.

Definition commandWithNonce : Command :=
  <["nonce" := VString "abc"]> {[ "action" := VString "open_app" ]}.

(** The string an optional argument holds when it is given and not empty. *)
Definition given (o : option string) : option string :=
  match o with
  | Some s => if JSString.truthy s then Some s else None
  | None => None
  end.

(** A character of [0-9a-f]. *)
Definition isHexChar (c : ascii) : bool :=
  match hexValue c with Some _ => true | None => false end.

Fixpoint allChars (f : ascii -> bool) (s : string) : bool :=
  match s with
  | EmptyString => true
  | String c s' => f c && allChars f s'
  end.

(** Sample data: a random source that counts up from a byte. *)
Definition countingRandom : nat -> Byte.byte :=
  fun i => default Byte.x00 (Byte.of_N (N.of_nat (250 + i) mod 256)).

End BridgeAuthenticator.

(** ** Command validation (security.ts, class CommandValidator) *)
Module CommandValidator.

Definition DANGEROUS_ACTIONS : list string :=
  ["shutdown"; "restart"; "delete_file"; "delete_folder";
   "format"; "kill_process"; "shell_execute"; "logoff"].

Definition BLOCKED_PATTERNS : list string :=
  ["format c:"; "rm -rf /"; "del /s /q c:"; "rd /s /q c:";
   "reg delete hklm"; "reg delete hkcu"].

Record Validation := mkValidation {
  valid : bool;
  message : string;
  dangerous : bool
}.

(** [Set.prototype.has] on a set of strings. *)
Definition has (set : list string) (s : string) : bool :=
  existsb (String.eqb s) set.

(** [(command.k || '').toLowerCase()]; a truthy value that is not a string
    has no [toLowerCase] and the call raises a TypeError, [None] here. *)
Definition lowerField (v : option value) : option string :=
  match v with
  | None | Some VUndefined | Some VNull | Some (VBool false) => Some EmptyString
  | Some (VBool true) => None
  | Some (VNumber n) => if n =? 0 then Some EmptyString else None
  | Some (VString s) => Some (JSString.toLowerCase s)
  end.

(** The [for (const blocked of BLOCKED_PATTERNS)] loop: the first pattern
    found in [combined]. *)
Definition firstBlocked (combined : string) : option string :=
  List.find (fun blocked => JSString.includes combined blocked) BLOCKED_PATTERNS.

Definition combine3 (action target payload : string) : string :=
  action +:+ " " +:+ target +:+ " " +:+ payload.

Definition validate (command : Command) : option Validation :=
  match lowerField (command !! "action"),
        lowerField (command !! "target"),
        lowerField (command !! "payload") with
  | Some action, Some target, Some payload =>
      let combined := combine3 action target payload in
      match firstBlocked combined with
      | Some blocked =>
          Some {| valid := false;
                  message := "BLOCKED: '" +:+ blocked +:+ "' is a prohibited operation.";
                  dangerous := true |}
      | None =>
          if negb (JSString.truthy action) then
            Some {| valid := false; message := "Missing action field."; dangerous := false |}
          else
            Some {| valid := true; message := "OK"; dangerous := has DANGEROUS_ACTIONS action |}
      end
  | _, _, _ => None
  end.

(** A field of a well-typed [BridgeCommand]: absent, or a string. *)
Definition stringField (command : Command) (k s : string) : Prop :=
  (command !! k = None /\ s = EmptyString) \/ command !! k = Some (VString s).

(** The three fields joined as [validate] joins them, before lowering. *)
Definition joined (action target payload : string) : string :=
  action +:+ " " +:+ target +:+ " " +:+ payload.

(** Sample data: a shell command whose payload spells a blocked pattern in
    capitals. *)
Definition shoutedDelete : Command :=
  <["payload" := VString "RM -RF / --no-preserve-root"]>
    {[ "action" := VString "Shell_Execute" ]}.

(** [requiresConfirmation(action, target?, payload?)] *)
Definition requiresConfirmation (action : string) (target payload : option string) : bool :=
  if has DANGEROUS_ACTIONS (JSString.toLowerCase action) then true
  else
    let combined :=
      JSString.toLowerCase
        (action +:+ " " +:+ JSString.orElse target EmptyString
                +:+ " " +:+ JSString.orElse payload EmptyString) in
    existsb (fun p => JSString.includes combined p) BLOCKED_PATTERNS.

End CommandValidator.

(** ** System monitor (security.ts, class SystemMonitorService) *)
Module SystemMonitor.

Inductive Metric := cpu | memory | disk | battery.
Inductive Direction := above | below.

(** The fields of a snapshot the service reads; the remaining fields are
    carried along untouched and are not represented. *)
Record SystemSnapshot := mkSnapshot {
  cpu_percent : Q;
  memory_percent : Q;
  disk_percent : Q;
  battery_percent : option Q   (* [None] is [null] *)
}.

Record AlertRule := mkAlertRule {
  rule_id : string;
  metric : Metric;
  threshold : Q;
  direction : Direction;
  message : string;
  cooldownMs : Z;
  lastTriggered : Z;
  enabled : bool
}.

Inductive CacheValue :=
  | CachedSnapshot (s : option SystemSnapshot)
  | CachedReport (s : string).

Record State := mkState {
  history : list SystemSnapshot;
  alertRules : list AlertRule;
  alertCallback : option Callback;
  lastSnapshot : option SystemSnapshot;
  cache : gmap string (CacheValue * Z)
}.

Definition maxHistory : nat := 120.

Definition defaultAlerts : list AlertRule :=
  [ {| rule_id := "cpu_high"; metric := cpu; threshold := 90%Q; direction := above;
       message := "CPU usage critical: {value}%"; cooldownMs := 60000;
       lastTriggered := 0; enabled := true |};
    {| rule_id := "memory_high"; metric := memory; threshold := 85%Q; direction := above;
       message := "Memory usage high: {value}%"; cooldownMs := 60000;
       lastTriggered := 0; enabled := true |};
    {| rule_id := "disk_high"; metric := disk; threshold := 90%Q; direction := above;
       message := "Disk usage critical: {value}%"; cooldownMs := 300000;
       lastTriggered := 0; enabled := true |};
    {| rule_id := "battery_low"; metric := battery; threshold := 15%Q; direction := below;
       message := "Battery critically low: {value}%"; cooldownMs := 120000;
       lastTriggered := 0; enabled := true |} ].

(** [new SystemMonitorService()] *)
Definition init : State :=
  {| history := []; alertRules := defaultAlerts; alertCallback := None;
     lastSnapshot := None; cache := ∅ |}.

Definition onAlert (st : State) (cb : Callback) : State :=
  {| history := history st; alertRules := alertRules st; alertCallback := Some cb;
     lastSnapshot := lastSnapshot st; cache := cache st |}.

(** One call of the alert callback: the rule (as it is after the update of
    [lastTriggered]), its position in [alertRules], and the value. *)
Record AlertEvent := mkAlertEvent {
  ev_callback : Callback;
  ev_index : nat;
  ev_rule : AlertRule;
  ev_value : Q
}.

(** The [switch (rule.metric)] *)
Definition metricValue (snapshot : SystemSnapshot) (m : Metric) : option Q :=
  match m with
  | cpu => Some (cpu_percent snapshot)
  | memory => Some (memory_percent snapshot)
  | disk => Some (disk_percent snapshot)
  | battery => battery_percent snapshot
  end.

(** [x > y] and [x < y] on numbers. *)
Definition Qgtb (x y : Q) : bool := negb (Qle_bool x y).
Definition Qltb (x y : Q) : bool := negb (Qle_bool y x).

Definition triggered (rule : AlertRule) (v : Q) : bool :=
  match direction rule with
  | above => Qgtb v (threshold rule)
  | below => Qltb v (threshold rule)
  end.

Definition set_lastTriggered (rule : AlertRule) (now : Z) : AlertRule :=
  {| rule_id := rule_id rule; metric := metric rule; threshold := threshold rule;
     direction := direction rule; message := message rule;
     cooldownMs := cooldownMs rule; lastTriggered := now; enabled := enabled rule |}.

(** The body of the loop of [checkAlerts] for the rule at index [i]. *)
Definition checkRule (cb : Callback) (snapshot : SystemSnapshot) (now : Z)
    (i : nat) (rule : AlertRule) : AlertRule * list AlertEvent :=
  if negb (enabled rule) then (rule, [])
  else if now - lastTriggered rule <? cooldownMs rule then (rule, [])
  else
    match metricValue snapshot (metric rule) with
    | None => (rule, [])
    | Some v =>
        if triggered rule v then
          let rule' := set_lastTriggered rule now in
          (rule', [ {| ev_callback := cb; ev_index := i; ev_rule := rule'; ev_value := v |} ])
        else (rule, [])
    end.

Fixpoint checkRules (cb : Callback) (snapshot : SystemSnapshot) (now : Z)
    (i : nat) (rules : list AlertRule) : list AlertRule * list AlertEvent :=
  match rules with
  | [] => ([], [])
  | rule :: rest =>
      let '(rule', evs) := checkRule cb snapshot now i rule in
      let '(rest', evs') := checkRules cb snapshot now (S i) rest in
      (rule' :: rest', evs ++ evs')
  end.

Definition set_alertRules (st : State) (rules : list AlertRule) : State :=
  {| history := history st; alertRules := rules; alertCallback := alertCallback st;
     lastSnapshot := lastSnapshot st; cache := cache st |}.

(** [checkAlerts]; [now] is the one reading of [Date.now()]. *)
Definition checkAlerts (st : State) (snapshot : SystemSnapshot) (now : Z)
  : State * list AlertEvent :=
  match alertCallback st with
  | None => (st, [])
  | Some cb =>
      let '(rules, evs) := checkRules cb snapshot now O (alertRules st) in
      (set_alertRules st rules, evs)
  end.

(** [history.push(snapshot)] followed by the [shift] when over capacity. *)
Definition pushHistory (h : list SystemSnapshot) (snapshot : SystemSnapshot)
  : list SystemSnapshot :=
  let h' := h ++ [snapshot] in
  if (maxHistory <? length h')%nat then tl h' else h'.

Definition processSnapshot (st : State) (snapshot : SystemSnapshot) (now : Z)
  : State * list AlertEvent :=
  let st1 :=
    {| history := pushHistory (history st) snapshot;
       alertRules := alertRules st;
       alertCallback := alertCallback st;
       lastSnapshot := Some snapshot;
       cache := ∅ |} in
  checkAlerts st1 snapshot now.

(** The calls of the callback made for the rule at index [i]. *)
Definition eventsFor (i : nat) (evs : list AlertEvent) : list AlertEvent :=
  List.filter (fun e => Nat.eqb (ev_index e) i) evs.

(** A snapshot that only sets the CPU load, for the worked example. *)
Definition cpuSnapshot (c : Q) : SystemSnapshot :=
  {| cpu_percent := c; memory_percent := 0%Q; disk_percent := 0%Q;
     battery_percent := None |}.

(** The value passes the threshold in the rule's direction. *)
Definition passes (rule : AlertRule) (v : Q) : Prop :=
  match direction rule with
  | above => (threshold rule < v)%Q
  | below => (v < threshold rule)%Q
  end.

Definition fired (cb : Callback) (i : nat) (rule : AlertRule) (now : Z) (v : Q)
  : AlertEvent :=
  {| ev_callback := cb; ev_index := i;
     ev_rule := set_lastTriggered rule now; ev_value := v |}.

(** The default [cpu_high] rule, first in [alertRules]. *)
Definition cpu_high : AlertRule :=
  {| rule_id := "cpu_high"; metric := cpu; threshold := 90%Q; direction := above;
     message := "CPU usage critical: {value}%"; cooldownMs := 60000;
     lastTriggered := 0; enabled := true |}.

(** [getHistory(metric, count?)]: the last [count || maxHistory] values of
    the metric, a [null] battery level read as 0. *)
Definition getHistory (st : State) (m : Metric) (count : option Z) : list Q :=
  let n := match count with
           | Some c => if c =? 0 then Z.of_nat maxHistory else c
           | None => Z.of_nat maxHistory
           end in
  map (fun s => match m with
                | cpu => cpu_percent s
                | memory => memory_percent s
                | disk => disk_percent s
                | battery => default 0%Q (battery_percent s)
                end)
      (JSArray.sliceFrom (- n) (history st)).

(** [addAlert(rule)]: the rule is appended under a generated id with
    [lastTriggered] 0; the [rule_id] and [lastTriggered] of the argument
    are the fields its type omits and are not read. *)
Definition addAlert (st : State) (rule : AlertRule) (now : Z) : State :=
  set_alertRules st
    (alertRules st ++
     [ {| rule_id := "custom_" +:+ pretty now; metric := metric rule;
          threshold := threshold rule; direction := direction rule;
          message := message rule; cooldownMs := cooldownMs rule;
          lastTriggered := 0; enabled := enabled rule |} ]).

(** [getAlertRules]: a copy of the list. *)
Definition getAlertRules (st : State) : list AlertRule := alertRules st.

(** A run of [processSnapshot] calls, each with its clock reading; the
    state and the calls of the callback, in order. *)
Fixpoint processAll (st : State) (ss : list (SystemSnapshot * Z))
  : State * list AlertEvent :=
  match ss with
  | [] => (st, [])
  | (snapshot, now) :: rest =>
      let '(st1, evs) := processSnapshot st snapshot now in
      let '(st2, evs') := processAll st1 rest in
      (st2, evs ++ evs')
  end.

(** Everything of a rule but [lastTriggered]. *)
Definition sameRule (a b : AlertRule) : Prop :=
  rule_id a = rule_id b /\ metric a = metric b /\ threshold a = threshold b
  /\ direction a = direction b /\ message a = message b
  /\ cooldownMs a = cooldownMs b /\ enabled a = enabled b.

(** One call of the callback, justified by a rule of the list. *)
Definition justified (cb : Callback) (snapshot : SystemSnapshot) (now : Z)
    (rules : list AlertRule) (i0 : nat) (e : AlertEvent) : Prop :=
  exists (k : nat) rule v,
    ev_index e = (i0 + k)%nat
    /\ rules !! k = Some rule
    /\ enabled rule = true
    /\ cooldownMs rule <= now - lastTriggered rule
    /\ metricValue snapshot (metric rule) = Some v
    /\ passes rule v
    /\ e = fired cb (i0 + k) rule now v.

(** Sample data: a rule on a low battery level to add, and a snapshot with
    a battery level. *)
Definition spareRule : AlertRule :=
  {| rule_id := EmptyString; metric := battery; threshold := 50%Q; direction := below;
     message := "Battery below half: {value}%"; cooldownMs := 1000;
     lastTriggered := 0; enabled := true |}.

Definition batterySnapshot (b : Q) : SystemSnapshot :=
  {| cpu_percent := 10%Q; memory_percent := 10%Q; disk_percent := 10%Q;
     battery_percent := Some b |}.

End SystemMonitor.

(** ** Workflow engine (workflowEngine.ts, class WorkflowEngine) *)
Module WorkflowEngine.

Inductive ConditionType := bridge_active | time_after | time_before | always.

Record Condition := mkCondition {
  cond_type : ConditionType;
  cond_value : option string
}.

Inductive OnFailure := skip | abort | retry.

Record WorkflowStep := mkStep {
  step_id : string;
  action : string;
  target : option string;
  payload : option string;
  extra : option string;
  delayMs : option Z;
  condition : option Condition;
  onFailure : option OnFailure;
  retries : option Z
}.

Inductive Trigger := manual | voice | schedule | event.

(** The schedule of a workflow is read by the scheduler only and is not
    represented. *)
Record Workflow := mkWorkflow {
  wf_id : string;
  name : string;
  description : string;
  steps : list WorkflowStep;
  trigger : Trigger;
  enabled : bool;
  lastRun : option Z;
  runCount : Z
}.

Inductive StepStatus := success | failed | skipped.
Inductive RunStatus := completed | partial | run_failed.

(** [result] holds the last message of the step, which the loop takes
    from the executor as it comes. *)
Record StepRecord := mkStepRecord {
  stepId : string;
  rec_action : string;
  rec_status : StepStatus;
  result : value;
  duration : Z
}.

(** An ISO time stamp is represented by the instant it denotes. *)
Record WorkflowResult := mkWorkflowResult {
  workflowId : string;
  workflowName : string;
  startedAt : Z;
  completedAt : Z;
  res_steps : list StepRecord;
  res_status : RunStatus
}.

(** The executor is a [(command) => Promise<any>]. A value it resolves
    with, when not undefined or null, is seen through its [status] and
    [message] properties, [VUndefined] where it has none. *)
Record Reply := mkReply {
  reply_status : value;
  reply_message : value
}.

(** The value a rejected promise carries, which [catch (e)] binds. *)
Inductive Thrown :=
  | ThrownNullish                   (* undefined or null: reading [e.message] raises *)
  | ThrownValue (message : value).  (* any other value, seen through [e.message] *)

Inductive ExecResult :=
  | Resolved (r : option Reply)     (* the promise resolved; [None] is undefined or null *)
  | Rejected (e : Thrown).          (* the promise rejected, or the call raised *)

(** The executor, indexed by the number of calls made so far in the run.
    Its promise is taken to settle. *)
Definition Executor := nat -> Command -> ExecResult.

(** Truthiness of a value, and [v || d]. *)
Definition truthyValue (v : value) : bool :=
  match v with
  | VUndefined | VNull => false
  | VBool b => b
  | VNumber n => negb (n =? 0)
  | VString s => JSString.truthy s
  end.

Definition orText (v : value) (d : string) : value :=
  if truthyValue v then v else VString d.

(** [v !== 'error'] *)
Definition notError (v : value) : bool :=
  match v with
  | VString s => negb (String.eqb s "error")
  | _ => true
  end.

(** A reading of the clock: the instant and the local hour and minute. *)
Record Instant := mkInstant {
  ms : Z;
  hours : Z;
  minutes : Z
}.

(** The clock, indexed by the number of readings made so far in the run. *)
Definition Clock := nat -> Instant.

(** The workflows are a [Map]: keys in insertion order. *)
Record Engine := mkEngine {
  workflows : list (string * Workflow);
  executor : option Executor
}.

Definition setExecutor (e : Engine) (ex : Executor) : Engine :=
  {| workflows := workflows e; executor := Some ex |}.

(** [Map.prototype.get] *)
Fixpoint mapGet (m : list (string * Workflow)) (k : string) : option Workflow :=
  match m with
  | [] => None
  | (k', w) :: m' => if String.eqb k' k then Some w else mapGet m' k
  end.

(** [Map.prototype.set]: an existing key keeps its position. *)
Fixpoint mapSet (m : list (string * Workflow)) (k : string) (w : Workflow)
  : list (string * Workflow) :=
  match m with
  | [] => [(k, w)]
  | (k', w') :: m' =>
      if String.eqb k' k then (k, w) :: m' else (k', w') :: mapSet m' k w
  end.

(** The workflow object found is updated in place, whatever its key. *)
Fixpoint mapUpdateAt (m : list (string * Workflow)) (i : nat) (w : Workflow)
  : list (string * Workflow) :=
  match m, i with
  | [], _ => []
  | (k, _) :: m', O => (k, w) :: m'
  | kw :: m', S i' => kw :: mapUpdateAt m' i' w
  end.

Definition addWorkflow (e : Engine) (w : Workflow) : Engine :=
  {| workflows :=
       mapSet (workflows e) (wf_id w)
         {| wf_id := wf_id w; name := name w; description := description w;
            steps := steps w; trigger := trigger w; enabled := enabled w;
            lastRun := lastRun w; runCount := 0 |};
     executor := executor e |}.

(** The position of the entry with key [k]. *)
Fixpoint keyIndex (m : list (string * Workflow)) (k : string) : option nat :=
  match m with
  | [] => None
  | (k', _) :: m' => if String.eqb k' k then Some O else option_map S (keyIndex m' k)
  end.

Definition nameMatches (w : Workflow) (idOrName : string) : bool :=
  String.eqb (JSString.toLowerCase (name w)) (JSString.toLowerCase idOrName)
  || String.eqb (JSString.replaceSpaceRuns false (JSString.toLowerCase (name w)))
                (JSString.toLowerCase idOrName).

(** The [for (const [, wf] of this.workflows)] loop with its [break]. *)
Fixpoint nameIndex (m : list (string * Workflow)) (idOrName : string) : option nat :=
  match m with
  | [] => None
  | (_, w) :: m' =>
      if nameMatches w idOrName then Some O else option_map S (nameIndex m' idOrName)
  end.

(** The lookup at the head of [executeWorkflow]: by key, then by name. *)
Definition resolve (e : Engine) (idOrName : string) : option (nat * Workflow) :=
  let pos :=
    match keyIndex (workflows e) idOrName with
    | Some i => Some i
    | None => nameIndex (workflows e) idOrName
    end in
  match pos with
  | Some i =>
      match nth_error (workflows e) i with
      | Some (_, w) => Some (i, w)
      | None => None
      end
  | None => None
  end.

(** The two numbers of an [HH:MM] value: [value.split(':').map(Number)]
    destructured into [h] and [m]; a missing part is [undefined], which
    compares as [NaN]. *)
Definition parseHM (v : string) : JSString.number * JSString.number :=
  match JSString.splitOn ":"%char v with
  | [] => (JSString.NaN, JSString.NaN)
  | [h] => (JSString.toNumber h, JSString.NaN)
  | h :: m :: _ => (JSString.toNumber h, JSString.toNumber m)
  end.

Definition evaluateCondition (c : Condition) (now : Instant) : bool :=
  match cond_type c with
  | always => true
  | time_after =>
      match cond_value c with
      | Some v =>
          if JSString.truthy v then
            let '(h, m) := parseHM v in
            JSString.gtNumber (hours now) h
            || (JSString.eqNumber (hours now) h && JSString.geNumber (minutes now) m)
          else true
      | None => true
      end
  | time_before =>
      match cond_value c with
      | Some v =>
          if JSString.truthy v then
            let '(h, m) := parseHM v in
            JSString.ltNumber (hours now) h
            || (JSString.eqNumber (hours now) h && JSString.ltNumber (minutes now) m)
          else true
      | None => true
      end
  | bridge_active => true
  end.

(** The object handed to the executor for a step. *)
Definition stepCommand (s : WorkflowStep) : Command :=
  <["extra" := VString (JSString.orElse (extra s) EmptyString)]>
    (<["payload" := VString (JSString.orElse (payload s) EmptyString)]>
      (<["target" := VString (JSString.orElse (target s) EmptyString)]>
        (<["action" := VString (action s)]> ∅))).

(** What a run has consumed from the outside so far. *)
Record World := mkWorld {
  reads : nat;                       (* clock readings *)
  calls : nat;                       (* executor calls *)
  sent : list (string * Command)     (* step id and command of each call *)
}.

Definition tick (w : World) : World :=
  {| reads := S (reads w); calls := calls w; sent := sent w |}.

Definition called (w : World) (sid : string) (c : Command) : World :=
  {| reads := reads w; calls := S (calls w); sent := sent w ++ [(sid, c)] |}.

(** [step.retries || 1] *)
Definition maxAttempts (s : WorkflowStep) : Z :=
  match retries s with
  | Some r => if r =? 0 then 1 else r
  | None => 1
  end.

(** How the attempt loop of a step ends. *)
Inductive LoopEnd :=
  | LoopDone (success : bool) (resultMsg : value)
  | LoopThrew.                      (* a TypeError leaves the loop *)

(** The [while (attempts < maxAttempts && !success)] loop; [fuel] is the
    number of iterations left, [resultMsg] the message so far. The
    [catch] clause reads [e.message]: on a rejection with undefined or
    null that read raises, and the error leaves the loop. *)
Fixpoint attemptLoop (ex : Executor) (s : WorkflowStep) (fuel : nat)
    (resultMsg : value) (w : World) : LoopEnd * World :=
  match fuel with
  | O => (LoopDone false resultMsg, w)
  | S fuel' =>
      let c := stepCommand s in
      let w' := called w (step_id s) c in
      match ex (calls w) c with
      | Resolved r =>
          let msg :=
            match r with
            | Some r' => orText (reply_message r') "OK"
            | None => VString "OK"
            end in
          let ok :=
            match r with
            | Some r' => notError (reply_status r')
            | None => true
            end in
          if ok then (LoopDone true msg, w') else attemptLoop ex s fuel' msg w'
      | Rejected (ThrownValue m) => attemptLoop ex s fuel' (orText m "Error") w'
      | Rejected ThrownNullish => (LoopThrew, w')
      end
  end.

(** The outcome of the loop body for one step. *)
Inductive StepEnd :=
  | Recorded (r : StepRecord) (stop : bool)  (* the record pushed; whether the loop breaks *)
  | StepThrew.                               (* the error of the attempt loop goes on *)

(** The loop body for one step. The delay before a step only suspends. *)
Definition runStep (ex : Executor) (clock : Clock) (w : World) (s : WorkflowStep)
  : StepEnd * World :=
  let conditionFails :=
    match condition s with
    | Some c => negb (evaluateCondition c (clock (reads w)))
    | None => false
    end in
  let w0 := match condition s with Some _ => tick w | None => w end in
  if conditionFails then
    (Recorded {| stepId := step_id s; rec_action := action s; rec_status := skipped;
                 result := VString "Condition not met"; duration := 0 |} false, w0)
  else
    let stepStart := ms (clock (reads w0)) in
    let w1 := tick w0 in
    match attemptLoop ex s (Z.to_nat (maxAttempts s)) (VString EmptyString) w1 with
    | (LoopThrew, w2) => (StepThrew, w2)
    | (LoopDone ok msg, w2) =>
        let finish := ms (clock (reads w2)) in
        (Recorded {| stepId := step_id s; rec_action := action s;
                     rec_status := if ok then success else failed;
                     result := msg; duration := finish - stepStart |}
           (negb ok && match onFailure s with Some abort => true | _ => false end),
         tick w2)
    end.

(** The [for (const step of workflow.steps)] loop: the records pushed, or
    [None] when an error left the loop. *)
Fixpoint runSteps (ex : Executor) (clock : Clock) (w : World)
    (ss : list WorkflowStep) : option (list StepRecord) * World :=
  match ss with
  | [] => (Some [], w)
  | s :: rest =>
      match runStep ex clock w s with
      | (StepThrew, w') => (None, w')
      | (Recorded r stop, w') =>
          if stop then (Some [r], w')
          else
            let '(rs, w'') := runSteps ex clock w' rest in
            (option_map (cons r) rs, w'')
      end
  end.

Definition okOrSkipped (r : StepRecord) : bool :=
  match rec_status r with success | skipped => true | failed => false end.

Definition isFailed (r : StepRecord) : bool :=
  match rec_status r with failed => true | _ => false end.

(** [allSucceeded ? 'completed' : allFailed ? 'failed' : 'partial'] *)
Definition overallStatus (rs : list StepRecord) : RunStatus :=
  if forallb okOrSkipped rs then completed
  else if forallb isFailed rs then run_failed
  else partial.

Definition afterRun (w : Workflow) (t : Z) : Workflow :=
  {| wf_id := wf_id w; name := name w; description := description w;
     steps := steps w; trigger := trigger w; enabled := enabled w;
     lastRun := Some t; runCount := runCount w + 1 |}.

(** What the promise of [executeWorkflow] settles with. *)
Inductive Outcome :=
  | Returned (r : option WorkflowResult)  (* resolved; [None] is [null] *)
  | Threw.                                (* rejected with the TypeError of a step *)

(** [executeWorkflow]: the outcome, the engine afterwards and what the run
    consumed. An error that leaves the step loop leaves the method before
    [lastRun] and [runCount] are updated. The log callback is taken not to
    raise, and its lines are not represented. *)
Definition executeWorkflow (e : Engine) (clock : Clock) (idOrName : string)
  : Outcome * Engine * World :=
  let w0 := {| reads := O; calls := O; sent := [] |} in
  match executor e with
  | None => (Returned None, e, w0)
  | Some ex =>
      match resolve e idOrName with
      | None => (Returned None, e, w0)
      | Some (i, wf) =>
          if negb (enabled wf) then (Returned None, e, w0)
          else
            let started := ms (clock (reads w0)) in
            match runSteps ex clock (tick w0) (steps wf) with
            | (None, w1) => (Threw, e, w1)
            | (Some rs, w1) =>
                let ran := ms (clock (reads w1)) in
                let w2 := tick w1 in
                let wf' := afterRun wf ran in
                let finished := ms (clock (reads w2)) in
                (Returned
                   (Some {| workflowId := wf_id wf; workflowName := name wf;
                            startedAt := started; completedAt := finished;
                            res_steps := rs; res_status := overallStatus rs |}),
                 {| workflows := mapUpdateAt (workflows e) i wf';
                    executor := executor e |},
                 tick w2)
            end
      end
  end.

(** The step records of an outcome that is a result. *)
Definition recorded (o : Outcome) : option (list StepRecord) :=
  match o with
  | Returned (Some res) => Some (res_steps res)
  | _ => None
  end.

(** The calls made to the executor on behalf of a step id. *)
Definition callsFor (sid : string) (w : World) : list (string * Command) :=
  List.filter (fun c => String.eqb (fst c) sid) (sent w).

(** The world in which the loop arrives at the step after [pre], when no
    step of [pre] breaks out of the loop or raises. *)
Fixpoint reaches (ex : Executor) (clock : Clock) (w : World)
    (pre : list WorkflowStep) : option World :=
  match pre with
  | [] => Some w
  | s :: rest =>
      match runStep ex clock w s with
      | (Recorded _ false, w') => reaches ex clock w' rest
      | _ => None
      end
  end.

(** The world a run starts its first step in: one clock reading made. *)
Definition startWorld : World := tick {| reads := O; calls := O; sent := [] |}.

(** Sample data: a two-step workflow whose first step aborts on failure,
    an executor that always answers with an error, and a clock that
    advances by 10 ms per reading at 09:30 local time. *)
Definition sampleStep (sid : string) (policy : option OnFailure) : WorkflowStep :=
  {| step_id := sid; action := "open_app"; target := Some "chrome";
     payload := None; extra := None; delayMs := Some 0; condition := None;
     onFailure := policy; retries := Some 2 |}.

Definition sampleWorkflow (policy : option OnFailure) : Workflow :=
  {| wf_id := "wf_sample"; name := "Sample Mode"; description := "two steps";
     steps := [sampleStep "s1" policy; sampleStep "s2" (Some skip)];
     trigger := voice; enabled := true; lastRun := None; runCount := 4 |}.

Definition failingExecutor : Executor :=
  fun _ _ => Resolved (Some {| reply_status := VString "error";
                               reply_message := VString "bridge down" |}).

Definition sampleClock : Clock :=
  fun n => {| ms := 1700000000000 + 10 * Z.of_nat n; hours := 9; minutes := 30 |}.

Definition sampleEngine (policy : option OnFailure) : Engine :=
  {| workflows := [("wf_sample", sampleWorkflow policy)];
     executor := Some failingExecutor |}.

(** [removeWorkflow(id)]: [Map.prototype.delete], which tells whether the
    key was present. *)
Definition removeWorkflow (e : Engine) (k : string) : bool * Engine :=
  (match mapGet (workflows e) k with Some _ => true | None => false end,
   {| workflows := List.filter (fun kw => negb (String.eqb (fst kw) k)) (workflows e);
      executor := executor e |}).

Definition getWorkflows (e : Engine) : list Workflow := map snd (workflows e).

Definition getWorkflowNames (e : Engine) : list string :=
  map name (getWorkflows e).

(** [findWorkflow(query)]: the first workflow whose lower-cased name or id
    contains the lower-cased query. *)
Definition findWorkflow (e : Engine) (query : string) : option Workflow :=
  let q := JSString.toLowerCase query in
  List.find
    (fun wf => JSString.includes (JSString.toLowerCase (name wf)) q
               || JSString.includes (JSString.toLowerCase (wf_id wf)) q)
    (getWorkflows e).

(** Every key of the map is the id of the workflow stored under it, as
    [addWorkflow] and the built-in catalogue store them. *)
Definition keyedById (m : list (string * Workflow)) : Prop :=
  Forall (fun kw => fst kw = wf_id (snd kw)) m.

(** A condition that fails at every reading of the clock. *)
Definition neverMet (clock : Clock) (s : WorkflowStep) : Prop :=
  exists c, condition s = Some c /\ forall n, evaluateCondition c (clock n) = false.

(** Sample data: a step with a condition on the local time. *)
Definition timedStep (t : ConditionType) (v : string) : WorkflowStep :=
  {| step_id := "t1"; action := "notification"; target := None;
     payload := Some "stand up"; extra := None; delayMs := None;
     condition := Some {| cond_type := t; cond_value := Some v |};
     onFailure := None; retries := None |}.

Definition acceptingExecutor : Executor :=
  fun _ _ => Resolved (Some {| reply_status := VString "success";
                               reply_message := VString "done" |}).

(** Sample data: a workflow whose steps wait for the late evening or the
    early morning, in an engine with an accepting executor. *)
Definition lateWorkflow : Workflow :=
  {| wf_id := "wf_late"; name := "Late Mode"; description := "night only";
     steps := [timedStep time_after "23:00"; timedStep time_before "06:00"];
     trigger := voice; enabled := true; lastRun := None; runCount := 0 |}.

Definition lateEngine : Engine :=
  {| workflows := [("wf_late", lateWorkflow)]; executor := Some acceptingExecutor |}.

(** Some call the run has made was rejected with undefined or null. *)
Definition rejectedNullish (ex : Executor) (w : World) : Prop :=
  exists n sid c, nth_error (sent w) n = Some (sid, c) /\ ex n c = Rejected ThrownNullish.

(** Sample data: an executor whose promise always rejects with [e], and
    an engine with it whose workflow has two steps of one attempt each. *)
Definition rejectingExecutor (e : Thrown) : Executor := fun _ _ => Rejected e.

Definition onceStep (sid : string) (policy : option OnFailure) : WorkflowStep :=
  {| step_id := sid; action := "open_app"; target := Some "chrome";
     payload := None; extra := None; delayMs := None; condition := None;
     onFailure := policy; retries := None |}.

Definition onceWorkflow (policy : option OnFailure) : Workflow :=
  {| wf_id := "wf_sample"; name := "Sample Mode"; description := "two steps";
     steps := [onceStep "s1" policy; onceStep "s2" (Some skip)];
     trigger := voice; enabled := true; lastRun := None; runCount := 4 |}.

Definition rejectingEngine (e : Thrown) (policy : option OnFailure) : Engine :=
  {| workflows := [("wf_sample", onceWorkflow policy)];
     executor := Some (rejectingExecutor e) |}.

(** An [HH:MM] value: two digits each. *)
Definition twoDigits (n : Z) : string :=
  String (ascii_of_nat (48 + Z.to_nat (n / 10)))
    (String (ascii_of_nat (48 + Z.to_nat (n mod 10))) EmptyString).

Definition clockValue (hh mm : Z) : string :=
  twoDigits hh +:+ ":" +:+ twoDigits mm.

End WorkflowEngine.

(** ** Key manager (workflowEngine.ts, class NeuralKeyManager) *)
Module NeuralKeyManager.

Record KeyHealth := mkKeyHealth {
  key : string;
  failureCount : Z;
  lastFailure : option Z;
  cooldownUntil : Z;
  successCount : Z
}.

Record State := mkState {
  keys : list KeyHealth;
  currentIndex : nat
}.

Definition COOLDOWN_MS : Z := 60000.
Definition MAX_FAILURES_BEFORE_LONG_COOLDOWN : Z := 3.
Definition LONG_COOLDOWN_MS : Z := 300000.

(** The entry the constructor makes for one key string. *)
Definition freshKey (k : string) : KeyHealth :=
  {| key := k; failureCount := 0; lastFailure := None;
     cooldownUntil := 0; successCount := 0 |}.

(** The constructor, from the key strings the raw string splits into. *)
Definition fromKeys (ks : list string) : State :=
  {| keys := map freshKey (List.filter (fun k => (5 <? String.length k)%nat) ks);
     currentIndex := O |}.

(** The updates [markFailed] makes to the current key; [tFail] and [tCool]
    are its two readings of [Date.now()]. *)
Definition failKey (k : KeyHealth) (tFail tCool : Z) : KeyHealth :=
  let n := failureCount k + 1 in
  let cooldown :=
    if n >=? MAX_FAILURES_BEFORE_LONG_COOLDOWN then LONG_COOLDOWN_MS else COOLDOWN_MS in
  {| key := key k; failureCount := n; lastFailure := Some tFail;
     cooldownUntil := tCool + cooldown; successCount := successCount k |}.

(** [markFailed]. [currentIndex] is only ever assigned the index of an
    existing key; at an index out of range the source would raise, and the
    state is left as it is here. *)
Definition markFailed (st : State) (tFail tCool : Z) : State :=
  match keys st !! currentIndex st with
  | Some k =>
      {| keys := <[currentIndex st := failKey k tFail tCool]> (keys st);
         currentIndex := currentIndex st |}
  | None => st
  end.

Definition succeedKey (k : KeyHealth) : KeyHealth :=
  {| key := key k;
     failureCount := if failureCount k >? 0 then Z.max 0 (failureCount k - 1)
                     else failureCount k;
     lastFailure := lastFailure k;
     cooldownUntil := 0;
     successCount := successCount k + 1 |}.

Definition markSuccess (st : State) : State :=
  match keys st !! currentIndex st with
  | Some k =>
      {| keys := <[currentIndex st := succeedKey k]> (keys st);
         currentIndex := currentIndex st |}
  | None => st
  end.

(** The arithmetic of JavaScript numbers, as far as the health score uses
    it. The counts and the millisecond instants are integers, on which the
    arithmetic of numbers is exact; the score itself is divided by 1000 and
    is rounded by the implementation, so its arithmetic and its comparison
    are left open. *)
Class Numbers := {
  number : Type;
  fromZ : Z -> number;                    (* an integer as a number *)
  plus : number -> number -> number;
  minus : number -> number -> number;
  times : number -> number -> number;
  divide : number -> number -> number;
  greater : number -> number -> bool      (* [x > y] *)
}.

(** What [>] satisfies on numbers that are not [NaN]; no operation of the
    score produces [NaN] from integers. *)
Class NumbersOrdered (N : Numbers) : Prop := {
  greater_irrefl : forall x, greater x x = false;
  greater_trans : forall x y z,
    greater x y = true -> greater y z = true -> greater x z = true;
  greater_cotrans : forall x y z,
    greater x y = false -> greater y z = false -> greater x z = false
}.

(** The numbers without rounding: exact rational arithmetic. *)
Definition exactNumbers : Numbers :=
  {| number := Q;
     fromZ := inject_Z;
     plus := Qplus;
     minus := Qminus;
     times := Qmult;
     divide := Qdiv;
     greater := fun x y => negb (Qle_bool x y) |}.

Section Rotation.
Context {N : Numbers}.

(** The health score computed in the first loop of [rotate]. *)
Definition score (now : Z) (k : KeyHealth) : number :=
  let inCooldown := cooldownUntil k >? now in
  let s0 := if inCooldown then fromZ 0 else fromZ 1000 in
  let s1 := minus s0 (times (fromZ (failureCount k)) (fromZ 100)) in
  let s2 := plus s1 (fromZ (successCount k)) in
  if inCooldown then
    let cooldownRemaining := cooldownUntil k - now in
    minus s2 (divide (fromZ cooldownRemaining) (fromZ 1000))
  else s2.

(** [score > bestScore], where [None] is the initial [-Infinity]; the index
    and the score are always assigned together. *)
Definition better (s : number) (best : option (nat * number)) : bool :=
  match best with
  | None => true
  | Some (_, b) => greater s b
  end.

(** The first loop of [rotate], from index [i] on. *)
Fixpoint scoreLoop (now : Z) (current : nat) (i : nat) (ks : list KeyHealth)
    (best : option (nat * number)) : option (nat * number) :=
  match ks with
  | [] => best
  | k :: ks' =>
      if Nat.eqb i current then scoreLoop now current (S i) ks' best
      else
        let s := score now k in
        if better s best then scoreLoop now current (S i) ks' (Some (i, s))
        else scoreLoop now current (S i) ks' best
  end.

(** [remaining < shortestCooldown], where [None] is the initial [Infinity]. *)
Definition shorter (r : Z) (best : option (nat * Z)) : bool :=
  match best with
  | None => true
  | Some (_, b) => r <? b
  end.

(** The second loop of [rotate], entered when the first selected nothing. *)
Fixpoint shortestLoop (now : Z) (current : nat) (i : nat) (ks : list KeyHealth)
    (best : option (nat * Z)) : option (nat * Z) :=
  match ks with
  | [] => best
  | k :: ks' =>
      if Nat.eqb i current then shortestLoop now current (S i) ks' best
      else
        let remaining := cooldownUntil k - now in
        if shorter remaining best then shortestLoop now current (S i) ks' (Some (i, remaining))
        else shortestLoop now current (S i) ks' best
  end.

(** The index [rotate] ends with: the best score, else the shortest
    cooldown, else round-robin. *)
Definition selectIndex (now : Z) (st : State) : nat :=
  match scoreLoop now (currentIndex st) O (keys st) None with
  | Some (i, _) => i
  | None =>
      match shortestLoop now (currentIndex st) O (keys st) None with
      | Some (i, _) => i
      | None => (S (currentIndex st) mod length (keys st))%nat
      end
  end.

(** [rotate]; [now] is its own reading of the clock, taken before the two
    of [markFailed]. *)
Definition rotate (st : State) (now tFail tCool : Z) : bool * State :=
  if (length (keys st) <=? 1)%nat then (false, st)
  else
    let st1 := markFailed st tFail tCool in
    (true, {| keys := keys st1; currentIndex := selectIndex now st1 |}).

End Rotation.

(** [n] calls of [markFailed] in a row; each takes its two clock readings
    from the list. *)
Fixpoint markFailedTimes (st : State) (times : list (Z * Z)) : State :=
  match times with
  | [] => st
  | (tFail, tCool) :: rest => markFailedTimes (markFailed st tFail tCool) rest
  end.

(** The score in exact arithmetic, as one sum. *)
Definition scoreFormula (now : Z) (k : KeyHealth) : Q :=
  ((if now <? cooldownUntil k then 0 else 1000)
   - inject_Z (failureCount k) * 100
   + inject_Z (successCount k)
   - (if now <? cooldownUntil k then inject_Z (cooldownUntil k - now) / 1000 else 0))%Q.

(** Sample data: three keys, the second cooling down, the third with one
    failure on record; and one fresh key. *)
Definition samplePool : State :=
  {| keys :=
       [ freshKey "key-alpha-0001";
         {| key := "key-beta-0002"; failureCount := 1; lastFailure := Some 1699999990000;
            cooldownUntil := 1700000050000; successCount := 12 |};
         {| key := "key-gamma-0003"; failureCount := 1; lastFailure := Some 1699999000000;
            cooldownUntil := 1699999060000; successCount := 3 |} ];
     currentIndex := O |}.

Definition singleKey : State := fromKeys ["key-alpha-0001"].

(** *** The constructor's parsing of the raw key string *)

(** The characters the class [[\n,\s]] matches. *)
Definition isSeparator (c : ascii) : bool :=
  JSString.isSpace c || Ascii.eqb c ","%char.

(** A character that is not a separator. *)
Definition notSeparator (c : ascii) : bool := negb (isSeparator c).

(** [s.split(/[\n,\s]+/)]: the pieces between the runs of separators; a
    separator at either end leaves an empty piece there. [inRun] tells
    that the previous character was a separator. *)
Fixpoint splitKeys (inRun : bool) (s : string) : list string :=
  match s with
  | EmptyString => [EmptyString]
  | String c s' =>
      if isSeparator c then
        if inRun then splitKeys true s' else EmptyString :: splitKeys true s'
      else
        match splitKeys false s' with
        | [] => [String c EmptyString]
        | p :: ps => String c p :: ps
        end
  end.

Fixpoint trimStart (s : string) : string :=
  match s with
  | EmptyString => EmptyString
  | String c s' => if JSString.isSpace c then trimStart s' else s
  end.

(** [s.trimEnd()]: a character is dropped when all that follows it, and
    itself, is white space. *)
Fixpoint trimEnd (s : string) : string :=
  match s with
  | EmptyString => EmptyString
  | String c s' =>
      match trimEnd s' with
      | EmptyString => if JSString.isSpace c then EmptyString else String c EmptyString
      | t => String c t
      end
  end.

Definition trim (s : string) : string := trimEnd (trimStart s).

(** [new NeuralKeyManager(rawKeyString)]; [None] is [undefined]. *)
Definition construct (rawKeyString : option string) : State :=
  match rawKeyString with
  | None => {| keys := []; currentIndex := O |}
  | Some raw =>
      if negb (JSString.truthy raw) || negb (JSString.truthy (trim raw))
      then {| keys := []; currentIndex := O |}
      else fromKeys (map trim (splitKeys false raw))
  end.

(** [getActiveKey]: [keys[currentIndex]?.key || ''] *)
Definition getActiveKey (st : State) : string :=
  match keys st !! currentIndex st with
  | Some k => key k
  | None => EmptyString
  end.

(** *** Waiting for a key *)

(** The last loop of [getAvailableKeyOrWaitTime]: the first key with the
    least [cooldownUntil - now]; [None] is the initial [Infinity], with
    [bestIndex] 0. *)
Fixpoint waitLoop (now : Z) (i : nat) (ks : list KeyHealth)
    (best : nat * option Z) : nat * option Z :=
  match ks with
  | [] => best
  | k :: ks' =>
      let wait := cooldownUntil k - now in
      let smaller := match snd best with
                     | None => true
                     | Some w => wait <? w
                     end in
      if smaller then waitLoop now (S i) ks' (i, Some wait)
      else waitLoop now (S i) ks' best
  end.

(** [getAvailableKeyOrWaitTime]: the key and the wait, and the state
    afterwards. [None] is the TypeError the source raises when
    [currentIndex] is not the index of a key. *)
Definition getAvailableKeyOrWaitTime (st : State) (now : Z)
  : option ((string * Z) * State) :=
  match keys st with
  | [] => Some ((EmptyString, 0), st)
  | _ =>
      match keys st !! currentIndex st with
      | None => None
      | Some current =>
          if cooldownUntil current <=? now then Some ((key current, 0), st)
          else
            match CommandQueue.findIndex (fun k => cooldownUntil k <=? now) (keys st) with
            | Some i =>
                Some ((match keys st !! i with Some k => key k | None => EmptyString end, 0),
                      {| keys := keys st; currentIndex := i |})
            | None =>
                let '(bestIndex, shortestWait) := waitLoop now O (keys st) (O, None) in
                Some ((match keys st !! bestIndex with
                       | Some k => key k
                       | None => EmptyString
                       end,
                       match shortestWait with
                       | Some w => Z.max 0 w
                       | None => 0
                       end),
                      {| keys := keys st; currentIndex := bestIndex |})
            end
      end
  end.

Definition resetKey (k : KeyHealth) : KeyHealth :=
  {| key := key k; failureCount := 0; lastFailure := lastFailure k;
     cooldownUntil := 0; successCount := successCount k |}.

Definition resetAllCooldowns (st : State) : State :=
  {| keys := map resetKey (keys st); currentIndex := currentIndex st |}.

(** *** Statistics *)

Record KeyStat := mkKeyStat {
  node : Z;
  failures : Z;
  inCooldown : bool;
  cooldownRemaining : Z
}.

Record Stats := mkStats {
  activeNode : Z;
  totalNodes : Z;
  nodeFingerprint : string;
  healthyNodes : Z;
  coolingNodes : Z;
  currentFailures : Z;
  currentCooldownRemaining : Z;
  keyHealths : list KeyStat
}.

(** [s.substring(0, 4) + '...' + s.substring(s.length - 4)] *)
Definition fingerprint (s : string) : string :=
  String.substring 0 4 s +:+ "..." +:+
  String.substring (String.length s - 4) (String.length s) s.

Definition getStats (st : State) (now : Z) : Stats :=
  let active := getActiveKey st in
  let currentKey := keys st !! currentIndex st in
  {| activeNode := Z.of_nat (currentIndex st) + 1;
     totalNodes := Z.of_nat (length (keys st));
     nodeFingerprint := if JSString.truthy active then fingerprint active else "OFFLINE";
     healthyNodes :=
       Z.of_nat (length (List.filter (fun k => cooldownUntil k <=? now) (keys st)));
     coolingNodes :=
       Z.of_nat (length (List.filter (fun k => negb (cooldownUntil k <=? now)) (keys st)));
     currentFailures := match currentKey with Some k => failureCount k | None => 0 end;
     currentCooldownRemaining :=
       match currentKey with Some k => Z.max 0 (cooldownUntil k - now) | None => 0 end;
     keyHealths :=
       imap (fun i k =>
               {| node := Z.of_nat i + 1;
                  failures := failureCount k;
                  inCooldown := cooldownUntil k >? now;
                  cooldownRemaining := Z.max 0 (cooldownUntil k - now) |})
            (keys st) |}.

(** *** Runs of operations *)

(** The calls a user of the manager makes, with the clock readings each
    takes. *)
Inductive Op :=
  | OpMarkFailed (tFail tCool : Z)
  | OpMarkSuccess
  | OpRotate (now tFail tCool : Z)
  | OpGetAvailable (now : Z)
  | OpReset.

Section Runs.
Context {N : Numbers}.

(** One call; [None] is a raised TypeError. *)
Definition step (st : State) (op : Op) : option State :=
  match op with
  | OpMarkFailed tFail tCool => Some (markFailed st tFail tCool)
  | OpMarkSuccess => Some (markSuccess st)
  | OpRotate now tFail tCool => Some (snd (rotate st now tFail tCool))
  | OpGetAvailable now => option_map snd (getAvailableKeyOrWaitTime st now)
  | OpReset => Some (resetAllCooldowns st)
  end.

Fixpoint run (st : State) (ops : list Op) : option State :=
  match ops with
  | [] => Some st
  | op :: rest =>
      match step st op with
      | Some st' => run st' rest
      | None => None
      end
  end.

End Runs.

(** [currentIndex] is the index of a key, or 0 on an empty pool. *)
Definition indexValid (st : State) : Prop :=
  (currentIndex st < length (keys st))%nat \/ (keys st = [] /\ currentIndex st = O).

(** Sample data: a pool whose three keys are all cooling down. *)
Definition coolingPool : State :=
  {| keys :=
       [ {| key := "key-alpha-0001"; failureCount := 2; lastFailure := Some 1699999990000;
            cooldownUntil := 1700000040000; successCount := 0 |};
         {| key := "key-beta-0002"; failureCount := 1; lastFailure := Some 1699999990000;
            cooldownUntil := 1700000020000; successCount := 12 |};
         {| key := "key-gamma-0003"; failureCount := 1; lastFailure := Some 1699999000000;
            cooldownUntil := 1700000020000; successCount := 3 |} ];
     currentIndex := O |}.

(** *** Shapes of raw strings, for stating what the constructor reads *)

(** The test of the constructor's [filter]. *)
Definition longEnough (k : string) : bool := (5 <? String.length k)%nat.

(** A raw string written as runs of separators, each followed by a
    piece. *)
Fixpoint render (items : list (string * string)) : string :=
  match items with
  | [] => EmptyString
  | (sp, k) :: rest => sp +:+ k +:+ render rest
  end.

(** A run of separators and the piece after it: the run is not empty and
    made of separators, the piece is not empty and free of them. *)
Definition wellFormedItem (it : string * string) : Prop :=
  fst it <> EmptyString
  /\ BridgeAuthenticator.allChars isSeparator (fst it) = true
  /\ snd it <> EmptyString
  /\ BridgeAuthenticator.allChars notSeparator (snd it) = true.

(** [k] stands in [raw] between separators or the ends of the string. *)
Definition delimited (raw k : string) : Prop :=
  exists pre post,
    raw = pre +:+ k +:+ post
    /\ (pre = EmptyString
        \/ exists pre' c, pre = pre' +:+ String c EmptyString /\ isSeparator c = true)
    /\ (post = EmptyString
        \/ exists c post', post = String c post' /\ isSeparator c = true).

End NeuralKeyManager.

(** ** The dispatch of a tool call (App.tsx, handleToolCall, the branch for
    'system_execution_directive') *)
Module App.

(** The arguments of the tool call; each is a string or absent. *)
Record ToolArgs := mkToolArgs {
  arg_action : option string;
  arg_target : option string;
  arg_payload : option string;
  arg_extra : option string
}.

(** The [BridgeCommand] built from the arguments. *)
Definition directiveCommand (a : ToolArgs) : Command :=
  <["extra" := VString (JSString.orElse (arg_extra a) EmptyString)]>
    (<["payload" := VString (JSString.orElse (arg_payload a) EmptyString)]>
      (<["target" := VString (JSString.orElse (arg_target a) EmptyString)]>
        (<["action" := match arg_action a with
                       | Some s => VString s
                       | None => VUndefined
                       end]> ∅))).

(** The services the branch uses, and whether the bridge socket is open. *)
Record Services := mkServices {
  auth : BridgeAuthenticator.State;
  logger : ActivityLogger.State;
  commands : CommandQueue.State;
  bridgeOpen : bool
}.

(** What the branch reads from outside. *)
Record Env := mkEnv {
  env_now : Z;                       (* clock *)
  env_random : nat -> Byte.byte;     (* random bytes of the nonce *)
  env_id : string                    (* generated id of the log or queue entry *)
}.

Inductive Outcome :=
  | Blocked (message : string)       (* nothing leaves the application *)
  | Transmitted (wire : Command)     (* the object serialised onto the socket *)
  | Queued (item : CommandQueue.QueuedCommand)
  | Raised.                          (* [validate] raised *)

Definition handleDirective (svc : Services) (args : ToolArgs) (env : Env)
  : Outcome * Services * list CommandQueue.Event :=
  let command := directiveCommand args in
  match CommandValidator.validate command with
  | None => (Raised, svc, [])
  | Some validation =>
      if negb (CommandValidator.valid validation) then
        (Blocked (CommandValidator.message validation), svc, [])
      else if bridgeOpen svc then
        let authed :=
          BridgeAuthenticator.wrapCommand (auth svc) command (env_now env) (env_random env) in
        let '(_, lg) :=
          ActivityLogger.log (logger svc)
            {| ActivityLogger.lr_action := default EmptyString (arg_action args);
               ActivityLogger.lr_target :=
                 Some (JSString.orElse (arg_target args) EmptyString);
               ActivityLogger.lr_source := Some ActivityLogger.voice;
               ActivityLogger.lr_status := Some ActivityLogger.success;
               ActivityLogger.lr_details := None;
               ActivityLogger.lr_id := env_id env;
               ActivityLogger.lr_now := env_now env |} in
        (Transmitted authed,
         {| auth := auth svc; logger := lg; commands := commands svc;
            bridgeOpen := bridgeOpen svc |},
         [])
      else
        let p :=
          if CommandValidator.requiresConfirmation
               (default EmptyString (arg_action args)) None None
          then CommandQueue.high else CommandQueue.normal in
        let '(item, q, evs) :=
          CommandQueue.enqueue (commands svc)
            {| CommandQueue.req_command := command;
               CommandQueue.req_priority := Some p;
               CommandQueue.req_maxRetries := None;
               CommandQueue.req_onComplete := None;
               CommandQueue.req_onError := None;
               CommandQueue.req_id := env_id env;
               CommandQueue.req_now := env_now env |} in
        (Queued item,
         {| auth := auth svc; logger := logger svc; commands := q;
            bridgeOpen := bridgeOpen svc |},
         evs)
  end.

(** Sample data. *)
Definition offlineServices : Services :=
  {| auth := BridgeAuthenticator.sampleState;
     logger := ActivityLogger.init;
     commands := CommandQueue.init 1700000000000;
     bridgeOpen := false |}.

Definition sampleEnv : Env :=
  {| env_now := 1700000000500;
     env_random := BridgeAuthenticator.constantRandom Byte.x2a;
     env_id := "cmd_1700000000500_k3x9a1" |}.

End App.

(** * Properties *)

(** ** Command queue *)
Module CommandQueueFacts.
Import CommandQueue.

Lemma insertByPriority_nil item : insertByPriority item [] = [item].
Proof. reflexivity. Qed.

Lemma insertByPriority_cons item x q :
  insertByPriority item (x :: q) =
  if after item x then item :: x :: q else x :: insertByPriority item q.
Proof.
  unfold insertByPriority, after. simpl.
  destruct (priorityOrder (priority x) >? priorityOrder (priority item)); [reflexivity|].
  destruct (findIndex _ q); reflexivity.
Qed.

(** The item lands between the part it does not precede and the part it
    precedes. *)
Lemma insertByPriority_split item l1 l2 :
  Forall (fun x => after item x = false) l1 ->
  Forall (fun x => after item x = true) l2 ->
  insertByPriority item (l1 ++ l2) = l1 ++ item :: l2.
Proof.
  intros H1 H2. induction H1 as [|x l1 Hx _ IH]; simpl.
  - destruct H2 as [|y l2 Hy _]; [reflexivity|].
    rewrite insertByPriority_cons, Hy. reflexivity.
  - rewrite insertByPriority_cons, Hx, IH. reflexivity.
Qed.

Lemma insertByPriority_length item q :
  length (insertByPriority item q) = S (length q).
Proof.
  induction q as [|x q IH]; [reflexivity|].
  rewrite insertByPriority_cons. destruct (after item x); simpl; congruence.
Qed.

Lemma insertByPriority_tail item q :
  Forall (fun x => priorityLe x item) q ->
  insertByPriority item q = q ++ [item].
Proof.
  intros H. rewrite <- (app_nil_r q) at 1.
  rewrite <- (app_nil_r q) in H.
  apply insertByPriority_split; [|constructor].
  rewrite app_nil_r in H. eapply List.Forall_impl; [|exact H].
  intros x Hx. unfold after, priorityLe in *. simpl in *. lia.
Qed.

Lemma sortedb_cons a q :
  sortedb (a :: q) = true ->
  sortedb q = true /\ Forall (priorityLe a) q.
Proof.
  revert a. induction q as [|b q IH]; intros a H.
  - split; [reflexivity|constructor].
  - change (sortedb (a :: b :: q)) with
      ((priorityOrder (priority a) <=? priorityOrder (priority b)) && sortedb (b :: q)) in H.
    apply andb_prop in H as [Hab Hs]. split; [exact Hs|].
    apply Z.leb_le in Hab.
    constructor; [exact Hab|].
    destruct (IH b Hs) as [_ Hb].
    eapply List.Forall_impl; [|exact Hb].
    intros x Hx. unfold priorityLe in *. lia.
Qed.

Lemma sortedb_intro a q :
  sortedb q = true -> Forall (priorityLe a) q -> sortedb (a :: q) = true.
Proof.
  intros Hs Ha. destruct q as [|b q]; [reflexivity|].
  change (sortedb (a :: b :: q)) with
    ((priorityOrder (priority a) <=? priorityOrder (priority b)) && sortedb (b :: q)).
  apply andb_true_intro. split; [|exact Hs].
  apply Z.leb_le. inversion Ha; assumption.
Qed.

Lemma insertByPriority_members item q x :
  In x (insertByPriority item q) -> x = item \/ In x q.
Proof.
  induction q as [|y q IH].
  - simpl. intros [->|[]]. now left.
  - rewrite insertByPriority_cons. destruct (after item y); simpl.
    + intros [->|[->|H]]; auto.
    + intros [->|H]; auto. destruct (IH H); auto.
Qed.

(** Insertion keeps the queue in priority order. *)
Lemma insertByPriority_sorted item q :
  sortedb q = true -> sortedb (insertByPriority item q) = true.
Proof.
  induction q as [|x q IH]; intros Hs; [reflexivity|].
  rewrite insertByPriority_cons.
  destruct (sortedb_cons _ _ Hs) as [Hq Hx].
  destruct (after item x) eqn:Hax.
  - apply sortedb_intro; [exact Hs|].
    unfold after in Hax. apply Z.gtb_lt in Hax.
    constructor; [unfold priorityLe; lia|].
    eapply List.Forall_impl; [|exact Hx]. intros y Hy. unfold priorityLe in *. lia.
  - apply sortedb_intro; [apply IH; exact Hq|].
    apply List.Forall_forall. intros y Hy.
    apply insertByPriority_members in Hy as [->|Hy].
    + unfold after in Hax. unfold priorityLe.
      destruct (Z.gtb_spec (priorityOrder (priority x)) (priorityOrder (priority item)));
        [discriminate|lia].
    + rewrite List.Forall_forall in Hx. auto.
Qed.

(** In a queue in priority order, nothing outranks the tail. *)
Lemma sorted_last_max q removed rest :
  sortedb q = true -> q = rest ++ [removed] ->
  Forall (fun x => priorityLe x removed) rest.
Proof.
  revert rest. induction q as [|a q IH]; intros rest Hs Heq.
  - destruct rest; discriminate.
  - destruct rest as [|b rest]; [constructor|].
    simpl in Heq. injection Heq as -> ->.
    destruct (sortedb_cons _ _ Hs) as [Hq Ha].
    constructor.
    + rewrite List.Forall_forall in Ha. apply Ha. apply in_or_app. right. now left.
    + apply (IH rest Hq eq_refl).
Qed.

Lemma nonempty_snoc {A} (l : list A) :
  l <> [] -> exists x, last l = Some x /\ l = removelast l ++ [x].
Proof.
  intros H. destruct (exists_last H) as (l' & x & ->).
  exists x. rewrite last_snoc, removelast_last. auto.
Qed.

(** What [trim] does to a queue one over capacity. *)
Lemma trim_over q :
  length q = S maxSize ->
  exists removed,
    q = removelast q ++ [removed] /\
    trim q =
      (removelast q,
       match onError removed with
       | Some cb => [CallOnError cb (ErrText overflowNotice)]
       | None => []
       end).
Proof.
  intros Hlen.
  assert (Hne : q <> []) by (intros ->; discriminate).
  destruct (nonempty_snoc q Hne) as (x & Hlast & Hq).
  exists x. split; [exact Hq|].
  unfold trim. rewrite Hlen, Hlast.
  assert (Hlt : (maxSize <? S maxSize)%nat = true) by (apply Nat.ltb_lt; lia).
  rewrite Hlt. reflexivity.
Qed.

Lemma trim_within q :
  (length q <= maxSize)%nat -> trim q = (q, []).
Proof.
  intros H. unfold trim.
  assert (Hlt : (maxSize <? length q)%nat = false) by (apply Nat.ltb_ge; lia).
  rewrite Hlt. reflexivity.
Qed.

Lemma length_removelast_snoc {A} (l : list A) x :
  length (l ++ [x]) = S (length l).
Proof. rewrite length_app. simpl. lia. Qed.

(** C1 (as amended). When the queue already holds [maxSize] items,
    [enqueue] first inserts the new item at its priority position and then
    evicts exactly one item, the tail of the queue after the insertion; the
    evicted item's [onError], when it has one, is called with the overflow
    notice; the queue ends with [maxSize] items; and if the queue was in
    priority order no remaining item has a lower priority than the evicted
    one. *)
Theorem enqueue_at_capacity (st : State) (r : Request) :
  length (queue st) = maxSize ->
  exists removed rest,
    insertByPriority (newItem r) (queue st) = rest ++ [removed]
    /\ enqueue st r =
         (newItem r, set_queue st rest,
          match onError removed with
          | Some cb => [CallOnError cb (ErrText overflowNotice)]
          | None => []
          end)
    /\ (length rest <= maxSize)%nat
    /\ (sortedb (queue st) = true -> Forall (fun x => priorityLe x removed) rest).
Proof.
  intros Hlen.
  set (q1 := insertByPriority (newItem r) (queue st)).
  assert (Hq1 : length q1 = S maxSize).
  { unfold q1. rewrite insertByPriority_length, Hlen. reflexivity. }
  destruct (trim_over q1 Hq1) as (removed & Hsplit & Htrim).
  exists removed, (removelast q1). split; [exact Hsplit|].
  split.
  { unfold enqueue. fold q1. rewrite Htrim. reflexivity. }
  split.
  { rewrite Hsplit in Hq1. rewrite length_removelast_snoc in Hq1. lia. }
  intros Hs. apply (sorted_last_max q1); [|exact Hsplit].
  apply insertByPriority_sorted. exact Hs.
Qed.

Lemma enqueue_at_capacity_witness :
  length (queue fullOfLow) = maxSize
  /\ exists removed rest,
       insertByPriority (newItem (sampleRequest high 100)) (queue fullOfLow)
         = rest ++ [removed]
       /\ enqueue fullOfLow (sampleRequest high 100) =
            (newItem (sampleRequest high 100), set_queue fullOfLow rest,
             match onError removed with
             | Some cb => [CallOnError cb (ErrText overflowNotice)]
             | None => []
             end)
       /\ (length rest <= maxSize)%nat
       /\ (sortedb (queue fullOfLow) = true ->
           Forall (fun x => priorityLe x removed) rest).
Proof.
  split; [vm_compute; reflexivity|].
  apply (enqueue_at_capacity fullOfLow (sampleRequest high 100)).
  vm_compute; reflexivity.
Defined.

(** C1 as stated fails: on a queue of 100 low-priority items a further
    low-priority command is inserted at the tail and is itself the item
    evicted. The queue is not the one left by evicting the old tail first,
    the old tail is still queued, and the new item is not. *)
Lemma enqueue_evicts_after_insert :
  let st := fullOfLow in
  let r := sampleRequest low 100 in
  length (queue st) = maxSize
  /\ queue (snd (fst (enqueue st r))) <> queue (snd (fst (enqueue_evict_first st r)))
  /\ last (queue (snd (fst (enqueue st r)))) = last (queue st)
  /\ existsb (fun x => String.eqb (cmd_id x) (req_id r))
       (queue (snd (fst (enqueue st r)))) = false
  /\ snd (enqueue st r) = [CallOnError 100%nat (ErrText overflowNotice)]
  /\ snd (enqueue_evict_first st r) = [CallOnError 99%nat (ErrText overflowNotice)].
Proof.
  cbv zeta. split; [vm_compute; reflexivity|].
  split.
  { intros H. apply (f_equal (fun q => option_map cmd_id (last q))) in H.
    vm_compute in H. discriminate H. }
  repeat split; vm_compute; reflexivity.
Qed.

(** C10. When the queue holds [maxSize] items and none of them has a lower
    priority than the new command, [enqueue] returns the new item, leaves
    the queue exactly as it was, and the only callback it makes is the new
    item's own [onError], when given, with the overflow notice; an item
    whose id is not yet in the queue is not in it afterwards either. *)
Theorem enqueue_at_capacity_tail (st : State) (r : Request) :
  length (queue st) = maxSize ->
  Forall (fun x => priorityLe x (newItem r)) (queue st) ->
  enqueue st r =
    (newItem r, set_queue st (queue st),
     match req_onError r with
     | Some cb => [CallOnError cb (ErrText "Queue overflow: command dropped")]
     | None => []
     end)
  /\ queue (snd (fst (enqueue st r))) = queue st
  /\ (Forall (fun x => cmd_id x <> req_id r) (queue st) ->
      ~ In (newItem r) (queue (snd (fst (enqueue st r))))).
Proof.
  intros Hlen Hle.
  assert (Henq : enqueue st r =
    (newItem r, set_queue st (queue st),
     match req_onError r with
     | Some cb => [CallOnError cb (ErrText "Queue overflow: command dropped")]
     | None => []
     end)).
  { unfold enqueue. rewrite (insertByPriority_tail _ _ Hle).
    assert (Hq1 : length (queue st ++ [newItem r]) = S maxSize).
    { rewrite length_removelast_snoc, Hlen. reflexivity. }
    destruct (trim_over _ Hq1) as (removed & Hsplit & Htrim).
    rewrite removelast_last in Hsplit, Htrim.
    apply app_inj_tail in Hsplit as [_ <-].
    rewrite Htrim. reflexivity. }
  split; [exact Henq|]. rewrite Henq. simpl.
  split; [reflexivity|].
  intros Hfresh Hin. rewrite List.Forall_forall in Hfresh.
  apply (Hfresh _ Hin). reflexivity.
Qed.

Lemma enqueue_at_capacity_tail_witness :
  enqueue fullOfLow (sampleRequest low 100) =
    (newItem (sampleRequest low 100), set_queue fullOfLow (queue fullOfLow),
     [CallOnError 100%nat (ErrText "Queue overflow: command dropped")])
  /\ queue (snd (fst (enqueue fullOfLow (sampleRequest low 100)))) = queue fullOfLow
  /\ (Forall (fun x => cmd_id x <> req_id (sampleRequest low 100)) (queue fullOfLow) ->
      ~ In (newItem (sampleRequest low 100))
           (queue (snd (fst (enqueue fullOfLow (sampleRequest low 100)))))).
Proof.
  apply (enqueue_at_capacity_tail fullOfLow (sampleRequest low 100)).
  - vm_compute; reflexivity.
  - apply List.Forall_forall. intros x Hx.
    assert (Hall : forallb (fun y => priorityOrder (priority y) <=? 3) (queue fullOfLow) = true)
      by (vm_compute; reflexivity).
    rewrite forallb_forall in Hall. apply Hall in Hx.
    apply Z.leb_le in Hx. exact Hx.
Defined.

(** *** Enqueue runs: the queue is the capacity-long front of the tiers *)

Lemma filter_snoc {A} (f : A -> bool) l x :
  List.filter f (l ++ [x]) = List.filter f l ++ (if f x then [x] else []).
Proof. rewrite List.filter_app. reflexivity. Qed.

Lemma Forall_filter_priority p l :
  Forall (fun x => priority x = p) (List.filter (hasPriority p) l).
Proof.
  apply List.Forall_forall. intros x Hx. apply filter_In in Hx as [_ Hx].
  unfold hasPriority in Hx. destruct p, (priority x); congruence.
Qed.

Lemma Forall_after_of_priority item p l (b : bool) :
  (priorityOrder p >? priorityOrder (priority item)) = b ->
  Forall (fun x => priority x = p) l ->
  Forall (fun x => after item x = b) l.
Proof.
  intros Hb H. eapply List.Forall_impl; [|exact H].
  intros x Hx. unfold after. rewrite Hx. exact Hb.
Qed.

Ltac tier_sides :=
  repeat (apply Forall_app; split);
  first [ constructor
        | (eapply Forall_after_of_priority; [|apply Forall_filter_priority]);
          match goal with H : priority _ = _ |- _ => rewrite H end; reflexivity ].

(** Inserting into the tiers of [l] gives the tiers of [l] followed by the
    item, and splits them around the item. *)
Lemma tiers_insert item l :
  exists l1 l2,
    tiers l = l1 ++ l2
    /\ tiers (l ++ [item]) = l1 ++ item :: l2
    /\ Forall (fun x => after item x = false) l1
    /\ Forall (fun x => after item x = true) l2.
Proof.
  unfold tiers. rewrite !filter_snoc.
  assert (Hhas : forall p, hasPriority p item =
                           match p, priority item with
                           | critical, critical | high, high
                           | normal, normal | low, low => true
                           | _, _ => false
                           end) by reflexivity.
  rewrite !Hhas.
  destruct (priority item) eqn:Hp; simpl app.
  - exists (List.filter (hasPriority critical) l),
      (List.filter (hasPriority high) l ++ List.filter (hasPriority normal) l
       ++ List.filter (hasPriority low) l).
    rewrite !app_nil_r. split; [reflexivity|].
    split; [rewrite <- app_assoc; reflexivity|]. split; tier_sides.
  - exists (List.filter (hasPriority critical) l ++ List.filter (hasPriority high) l),
      (List.filter (hasPriority normal) l ++ List.filter (hasPriority low) l).
    rewrite !app_nil_r. split; [rewrite <- !app_assoc; reflexivity|].
    split; [rewrite <- !app_assoc; reflexivity|]. split; tier_sides.
  - exists (List.filter (hasPriority critical) l ++ List.filter (hasPriority high) l
            ++ List.filter (hasPriority normal) l),
      (List.filter (hasPriority low) l).
    rewrite !app_nil_r. split; [rewrite <- !app_assoc; reflexivity|].
    split; [rewrite <- !app_assoc; reflexivity|]. split; tier_sides.
  - exists (List.filter (hasPriority critical) l ++ List.filter (hasPriority high) l
            ++ List.filter (hasPriority normal) l ++ List.filter (hasPriority low) l),
      [].
    rewrite !app_nil_r. split; [reflexivity|].
    split; [rewrite <- !app_assoc; reflexivity|]. split; tier_sides.
Qed.

Lemma trim_firstn q :
  (length q <= S maxSize)%nat -> fst (trim q) = firstn maxSize q.
Proof.
  intros H. destruct (Nat.eq_dec (length q) (S maxSize)) as [Heq|Hne].
  - destruct (trim_over q Heq) as (removed & Hsplit & ->). simpl.
    rewrite Hsplit at 2. rewrite firstn_app.
    assert (Hl : length (removelast q) = maxSize).
    { rewrite Hsplit in Heq. rewrite length_removelast_snoc in Heq. lia. }
    rewrite Hl, Nat.sub_diag. simpl. rewrite app_nil_r.
    rewrite <- Hl. symmetry. apply firstn_all.
  - rewrite trim_within by lia. simpl. symmetry. apply firstn_all2. lia.
Qed.

Lemma firstn_insert_front (n : nat) item (l1 l2 : list QueuedCommand) :
  firstn n (firstn n l1 ++ item :: firstn (n - length l1) l2)
  = firstn n (l1 ++ item :: l2).
Proof.
  destruct (Nat.le_gt_cases n (length l1)) as [Hge|Hlt].
  - rewrite !firstn_app. rewrite length_firstn.
    replace (n - Nat.min n (length l1))%nat with O by lia.
    replace (n - length l1)%nat with O by lia.
    simpl. rewrite firstn_firstn. rewrite Nat.min_id. reflexivity.
  - rewrite (firstn_all2 l1) by lia.
    rewrite !firstn_app.
    destruct (n - length l1)%nat as [|k] eqn:Hk; [lia|].
    simpl. rewrite firstn_firstn.
    replace (Nat.min k (S k)) with k by lia. reflexivity.
Qed.

Lemma enqueueItem_front items item :
  enqueueItem (firstn maxSize (tiers items)) item
  = firstn maxSize (tiers (items ++ [item])).
Proof.
  destruct (tiers_insert item items) as (l1 & l2 & -> & -> & H1 & H2).
  unfold enqueueItem. rewrite firstn_app.
  rewrite insertByPriority_split.
  - rewrite trim_firstn.
    + apply firstn_insert_front.
    + rewrite length_app. simpl. rewrite !length_firstn. lia.
  - apply Forall_take. exact H1.
  - apply Forall_take. exact H2.
Qed.

Lemma enqueue_queue st r :
  queue (snd (fst (enqueue st r))) = enqueueItem (queue st) (newItem r).
Proof.
  unfold enqueue, enqueueItem.
  destruct (trim (insertByPriority (newItem r) (queue st))); reflexivity.
Qed.

Lemma enqueueAll_cons st r rs :
  fst (enqueueAll st (r :: rs)) = fst (enqueueAll (snd (fst (enqueue st r))) rs).
Proof.
  simpl. destruct (enqueue st r) as [[item st1] evs]. simpl.
  destruct (enqueueAll st1 rs); reflexivity.
Qed.

Lemma enqueueAll_queue st rs :
  queue (fst (enqueueAll st rs)) = fold_left enqueueItem (map newItem rs) (queue st).
Proof.
  revert st. induction rs as [|r rs IH]; intros st; [reflexivity|].
  rewrite enqueueAll_cons, IH, enqueue_queue. reflexivity.
Qed.

Lemma fold_enqueueItem items :
  fold_left enqueueItem items [] = firstn maxSize (tiers items).
Proof.
  induction items as [|item items IH] using rev_ind.
  - reflexivity.
  - rewrite fold_left_app. simpl. rewrite IH. apply enqueueItem_front.
Qed.

(** The queue after a run of [enqueue] calls on an empty queue. *)
Lemma enqueueAll_tiers st rs :
  queue st = [] ->
  queue (fst (enqueueAll st rs)) = firstn maxSize (tiers (map newItem rs)).
Proof.
  intros H. rewrite enqueueAll_queue, H. apply fold_enqueueItem.
Qed.

(** *** Status counts and flush order *)

Lemma bp_sum_bump b x : bp_sum (bump b x) = bp_sum b + 1.
Proof. unfold bump, bp_sum. destruct (priority x); simpl; lia. Qed.

Lemma bp_sum_fold l b :
  bp_sum (fold_left bump l b) = bp_sum b + Z.of_nat (length l).
Proof.
  revert b. induction l as [|x l IH]; intros b.
  - simpl. lia.
  - simpl fold_left. rewrite IH, bp_sum_bump. simpl length. lia.
Qed.

(** In every state the per-priority counts add up to [pending]. *)
Lemma getStatus_sum st :
  bp_sum (byPriority (getStatus st)) = pending (getStatus st).
Proof. unfold getStatus. simpl. rewrite bp_sum_fold. reflexivity. Qed.

Lemma flushItem_attempted sender acc item :
  fa_attempted (fst (flushItem sender acc item)) = fa_attempted acc ++ [item].
Proof.
  unfold flushItem.
  destruct (sender (fa_sends acc) (command item));
    try destruct (attempts item + 1 >=? maxRetries item); reflexivity.
Qed.

(** Delivery is tried on the queued items, in queue order. *)
Lemma flushLoop_attempted sender acc q :
  fa_attempted (fst (flushLoop sender acc q))
  = fa_attempted acc ++ List.filter isQueued q.
Proof.
  revert acc. induction q as [|item q IH]; intros acc.
  - simpl. rewrite app_nil_r. reflexivity.
  - simpl. destruct (isQueued item).
    + pose proof (flushItem_attempted sender acc item) as Hi.
      destruct (flushItem sender acc item) as [acc1 item1]. simpl in Hi.
      specialize (IH acc1).
      destruct (flushLoop sender acc1 q) as [acc2 q2]. simpl in *.
      rewrite IH, Hi, <- app_assoc. reflexivity.
    + specialize (IH acc).
      destruct (flushLoop sender acc q) as [acc2 q2]. simpl in *. exact IH.
Qed.

Lemma flush_attempted st sender :
  bridgeSender st = Some sender -> processing st = false ->
  fr_attempted (fst (flush st)) = List.filter isQueued (queue st).
Proof.
  intros Hs Hp. unfold flush. rewrite Hs, Hp.
  pose proof (flushLoop_attempted sender
    {| fa_sends := O; fa_sent := 0; fa_failed := 0;
       fa_attempted := []; fa_events := [] |} (queue st)) as H.
  destruct (flushLoop _ _ (queue st)) as [acc q]. simpl in *. exact H.
Qed.

Lemma filter_all {A} (f : A -> bool) l :
  Forall (fun x => f x = true) l -> List.filter f l = l.
Proof.
  induction 1 as [|x l Hx _ IH]; [reflexivity|].
  simpl. rewrite Hx, IH. reflexivity.
Qed.

Lemma tiers_queued rs :
  Forall (fun x => isQueued x = true) (tiers (map newItem rs)).
Proof.
  assert (H : forall f, Forall (fun x => isQueued x = true)
                          (List.filter f (map newItem rs))).
  { intros f. apply List.Forall_forall. intros x Hx.
    apply filter_In in Hx as [Hx _]. apply in_map_iff in Hx as (r & <- & _).
    reflexivity. }
  unfold tiers. repeat (apply Forall_app; split); apply H.
Qed.

Lemma sortedb_firstn n q : sortedb q = true -> sortedb (firstn n q) = true.
Proof.
  revert n. induction q as [|a q IH]; intros n Hs.
  - destruct n; reflexivity.
  - destruct n as [|n]; [reflexivity|].
    destruct (sortedb_cons _ _ Hs) as [Hq Ha]. simpl firstn.
    apply sortedb_intro; [apply IH; exact Hq|].
    apply Forall_take. exact Ha.
Qed.

Lemma enqueueItem_sorted q item :
  sortedb q = true -> sortedb (enqueueItem q item) = true.
Proof.
  intros Hs. unfold enqueueItem, trim.
  pose proof (insertByPriority_sorted item q Hs) as Hi.
  destruct (maxSize <? length (insertByPriority item q))%nat; simpl; [|exact Hi].
  rewrite removelast_firstn_len. apply sortedb_firstn. exact Hi.
Qed.

Lemma fold_enqueueItem_sorted items q :
  sortedb q = true -> sortedb (fold_left enqueueItem items q) = true.
Proof.
  revert q. induction items as [|item items IH]; intros q Hs; [exact Hs|].
  simpl. apply IH. apply enqueueItem_sorted. exact Hs.
Qed.

(** In a queue in priority order an earlier position never holds a less
    urgent tier than a later one. *)
Lemma sortedb_lookup (q : list QueuedCommand) (i j : nat) a b :
  sortedb q = true -> (i < j)%nat ->
  q !! i = Some a -> q !! j = Some b -> priorityLe a b.
Proof.
  revert i j. induction q as [|x q IH]; intros i j Hs Hij Ha Hb.
  - discriminate.
  - destruct (sortedb_cons _ _ Hs) as [Hq Hx].
    destruct j as [|j]; [lia|]. simpl in Hb.
    destruct i as [|i].
    + simpl in Ha. injection Ha as ->.
      rewrite List.Forall_forall in Hx. apply Hx.
      apply list_elem_of_In. eapply list_elem_of_lookup_2. exact Hb.
    + simpl in Ha. apply (IH i j); [exact Hq|lia|exact Ha|exact Hb].
Qed.

Lemma filter_priority_same p l :
  List.filter (hasPriority p) (List.filter (hasPriority p) l)
  = List.filter (hasPriority p) l.
Proof.
  induction l as [|x l IH]; [reflexivity|].
  simpl. destruct (hasPriority p x) eqn:E; [|exact IH].
  simpl. rewrite E, IH. reflexivity.
Qed.

Lemma filter_priority_other p p' l :
  p <> p' ->
  List.filter (hasPriority p) (List.filter (hasPriority p') l) = [].
Proof.
  intros Hne. induction l as [|x l IH]; [reflexivity|].
  simpl. destruct (hasPriority p' x) eqn:E'; [|exact IH].
  simpl. rewrite IH.
  destruct (hasPriority p x) eqn:E; [|reflexivity].
  exfalso. apply Hne. unfold hasPriority in E, E'.
  destruct p, p', (priority x); congruence.
Qed.

Lemma filter_tiers p l :
  List.filter (hasPriority p) (tiers l) = List.filter (hasPriority p) l.
Proof.
  unfold tiers. rewrite !List.filter_app.
  destruct p;
    rewrite filter_priority_same, !filter_priority_other by discriminate;
    rewrite ?app_nil_r; reflexivity.
Qed.

Lemma filter_firstn_prefix {A} (f : A -> bool) n (l : list A) :
  List.filter f (firstn n l) `prefix_of` List.filter f l.
Proof.
  exists (List.filter f (skipn n l)).
  rewrite <- List.filter_app, firstn_skipn. reflexivity.
Qed.

(** C3. After any run of [enqueue] calls on a new queue with a sender
    registered: the per-priority counts of [getStatus] add up to [pending];
    and [flush] tries delivery in an order in which an item never comes
    after one of a less urgent tier, and in which the items of each tier
    are, in arrival order, the first ones that arrived in that tier. The
    order is the first [maxSize] items of the arrivals arranged by tier. *)
Theorem status_sum_and_flush_order (now : Z) (sender : Sender) (rs : list Request) :
  let st := fst (enqueueAll (setBridgeSender (init now) sender) rs) in
  let arrivals := map newItem rs in
  let order := fr_attempted (fst (flush st)) in
  bp_sum (byPriority (getStatus st)) = pending (getStatus st)
  /\ (forall (i j : nat) a b, (i < j)%nat ->
        order !! i = Some a -> order !! j = Some b ->
        priorityOrder (priority a) <= priorityOrder (priority b))
  /\ (forall p, List.filter (hasPriority p) order
                `prefix_of` List.filter (hasPriority p) arrivals)
  /\ order = firstn maxSize (tiers arrivals).
Proof.
  intros st arrivals order.
  assert (Hq : queue st = firstn maxSize (tiers arrivals)).
  { apply enqueueAll_tiers. reflexivity. }
  assert (Hkeep : forall rs s, bridgeSender (fst (enqueueAll s rs)) = bridgeSender s
                               /\ processing (fst (enqueueAll s rs)) = processing s).
  { clear. induction rs as [|r rs IH]; intros s; [split; reflexivity|].
    rewrite enqueueAll_cons.
    destruct (IH (snd (fst (enqueue s r)))) as [-> ->].
    unfold enqueue. destruct (trim _). split; reflexivity. }
  destruct (Hkeep rs (setBridgeSender (init now) sender)) as [Hs Hp].
  assert (Horder : order = firstn maxSize (tiers arrivals)).
  { unfold order. rewrite (flush_attempted st sender Hs Hp), Hq.
    apply filter_all. apply Forall_take. apply tiers_queued. }
  split; [apply getStatus_sum|].
  split.
  { intros i j a b Hij Ha Hb.
    apply (sortedb_lookup order i j a b); try assumption.
    rewrite Horder, <- Hq. unfold st. rewrite enqueueAll_queue.
    apply fold_enqueueItem_sorted. reflexivity. }
  split; [|exact Horder].
  intros p. rewrite Horder, <- (filter_tiers p arrivals).
  apply filter_firstn_prefix.
Qed.

End CommandQueueFacts.

(** ** Bridge authentication *)
Module BridgeAuthenticatorFacts.
Import BridgeAuthenticator.

Lemma hexByte_shape b :
  exists c1 c2, hexByte b = String c1 (String c2 EmptyString).
Proof. destruct b; do 2 eexists; reflexivity. Qed.

Lemma unhexByte_hexByte b rest : unhexByte (hexByte b +:+ rest) = Some b.
Proof. destruct b; reflexivity. Qed.

Lemma join_hex_length bs : String.length (join (map hexByte bs)) = (2 * length bs)%nat.
Proof.
  induction bs as [|b bs IH]; [reflexivity|].
  change (join (map hexByte (b :: bs))) with (hexByte b +:+ join (map hexByte bs)).
  destruct (hexByte_shape b) as (c1 & c2 & ->).
  change (String.length (String c1 (String c2 EmptyString) +:+ join (map hexByte bs)))
    with (S (S (String.length (join (map hexByte bs))))).
  rewrite IH. simpl length. lia.
Qed.

(** The hexadecimal encoding determines the bytes. *)
Lemma join_hex_inj bs1 bs2 :
  length bs1 = length bs2 ->
  join (map hexByte bs1) = join (map hexByte bs2) -> bs1 = bs2.
Proof.
  revert bs2. induction bs1 as [|b1 bs1 IH]; intros [|b2 bs2] Hlen Heq;
    try discriminate; [reflexivity|].
  change (hexByte b1 +:+ join (map hexByte bs1)
          = hexByte b2 +:+ join (map hexByte bs2)) in Heq.
  assert (Hb : b1 = b2).
  { pose proof (unhexByte_hexByte b1 (join (map hexByte bs1))) as H1.
    rewrite Heq, unhexByte_hexByte in H1. congruence. }
  subst b2. f_equal. apply IH; [simpl in Hlen; lia|].
  destruct (hexByte_shape b1) as (c1 & c2 & Hs). rewrite Hs in Heq.
  change (String c1 (String c2 (join (map hexByte bs1)))
          = String c1 (String c2 (join (map hexByte bs2)))) in Heq.
  congruence.
Qed.

Lemma generateNonce_bytes random :
  generateNonce random = join (map hexByte (map random (seq 0 16))).
Proof. unfold generateNonce. rewrite map_map. reflexivity. Qed.

Lemma generateNonce_length random : String.length (generateNonce random) = 32%nat.
Proof.
  rewrite generateNonce_bytes, join_hex_length.
  rewrite length_map, length_seq. reflexivity.
Qed.

(** Two nonces are equal exactly when the sixteen random bytes are. *)
Lemma generateNonce_eq random random' :
  generateNonce random' = generateNonce random
  <-> forall i, (i < 16)%nat -> random' i = random i.
Proof.
  rewrite !generateNonce_bytes. split.
  - intros H. apply join_hex_inj in H; [|rewrite !length_map; reflexivity].
    intros i Hi.
    assert (Hn : nth_error (map random' (seq 0 16)) i = nth_error (map random (seq 0 16)) i)
      by (rewrite H; reflexivity).
    rewrite !nth_error_map in Hn.
    assert (Hs : nth_error (seq 0 16) i = Some i).
    { rewrite nth_error_seq.
      destruct (Nat.ltb_spec i 16); [reflexivity|lia]. }
    rewrite Hs in Hn. simpl in Hn. congruence.
  - intros H. do 2 f_equal. apply map_ext_in. intros i Hi.
    apply in_seq in Hi. apply H. lia.
Qed.

Lemma construct_token tok envToken st :
  construct tok envToken = Some st -> token st <> EmptyString.
Proof.
  unfold construct.
  destruct tok as [[|c t]|], envToken as [[|c' t']|]; simpl;
    intros H; try discriminate; injection H as <-; simpl; discriminate.
Qed.

(** C6 (as amended). [wrapCommand] returns the command with the keys
    [auth_token], [timestamp] and [nonce] set to the token, the clock
    reading and a fresh nonce: every field under another key is kept, a
    field of the caller under one of the three keys is replaced, and the
    keys of the result are those of the command together with the three.
    For a command that has none of the three keys all fields are kept and
    exactly three are added. The token of a constructed authenticator is
    not empty; the nonce has 32 characters; and two nonces differ exactly
    when the random bytes drawn for them differ. *)
Theorem wrapCommand_adds_auth (st : State) (command : Command) (now : Z)
    (random : nat -> Byte.byte) :
  let w := wrapCommand st command now random in
  (forall k : string, k ∉ authKeys -> w !! k = command !! k)
  /\ w !! "auth_token" = Some (VString (token st))
  /\ w !! "timestamp" = Some (VNumber now)
  /\ w !! "nonce" = Some (VString (generateNonce random))
  /\ dom w = dom command ∪ authKeys
  /\ (command !! "auth_token" = None -> command !! "timestamp" = None ->
      command !! "nonce" = None ->
      (forall (k : string) v, command !! k = Some v -> w !! k = Some v)
      /\ size w = S (S (S (size command))))
  /\ (forall tok envToken, construct tok envToken = Some st -> token st <> EmptyString)
  /\ String.length (generateNonce random) = 32%nat
  /\ (forall random' : nat -> Byte.byte,
        generateNonce random' = generateNonce random
        <-> forall i, (i < 16)%nat -> random' i = random i).
Proof.
  intros w.
  assert (Hother : forall k : string, k ∉ authKeys -> w !! k = command !! k).
  { intros k Hk. unfold authKeys in Hk.
    apply not_elem_of_union in Hk as [Hk Hn].
    apply not_elem_of_union in Hk as [Ha Ht].
    apply not_elem_of_singleton in Ha, Ht, Hn.
    unfold w, wrapCommand.
    rewrite !lookup_insert_ne by congruence. reflexivity. }
  split; [exact Hother|].
  split. { unfold w, wrapCommand. rewrite !lookup_insert_ne by discriminate.
           apply lookup_insert_eq. }
  split. { unfold w, wrapCommand. rewrite lookup_insert_ne by discriminate.
           apply lookup_insert_eq. }
  split. { apply lookup_insert_eq. }
  split.
  { unfold w, wrapCommand, authKeys. rewrite !dom_insert_L.
    apply set_eq. intros x. rewrite !elem_of_union, !elem_of_singleton. tauto. }
  split.
  { intros Ha Ht Hn. split.
    - intros k v Hk. rewrite Hother; [exact Hk|].
      unfold authKeys. intros Hin.
      apply elem_of_union in Hin as [Hin|Hin];
        [apply elem_of_union in Hin as [Hin|Hin]|];
        apply elem_of_singleton in Hin; subst k; congruence.
    - unfold w, wrapCommand.
      rewrite !map_size_insert_None; [reflexivity|..].
      + exact Ha.
      + rewrite lookup_insert_ne by discriminate. exact Ht.
      + rewrite !lookup_insert_ne by discriminate. exact Hn. }
  split; [intros tok envToken; apply construct_token|].
  split; [apply generateNonce_length|].
  intros random'. apply generateNonce_eq.
Qed.

(** C6 as stated fails: a [nonce] field of the caller's command is not
    preserved but replaced, so only two fields are added; and two calls
    that draw the same random bytes return the same nonce. *)
Lemma wrapCommand_replaces_nonce :
  let w := wrapCommand sampleState commandWithNonce 1700000000000
             (constantRandom Byte.x2a) in
  commandWithNonce !! "nonce" = Some (VString "abc")
  /\ w !! "nonce" = Some (VString "2a2a2a2a2a2a2a2a2a2a2a2a2a2a2a2a")
  /\ w !! "nonce" <> commandWithNonce !! "nonce"
  /\ size w = S (S (size commandWithNonce))
  /\ wrapCommand sampleState commandWithNonce 1700000000001
       (constantRandom Byte.x2a) !! "nonce" = w !! "nonce".
Proof.
  cbv zeta. split; [vm_compute; reflexivity|].
  split; [vm_compute; reflexivity|].
  split; [vm_compute; discriminate|].
  split; vm_compute; reflexivity.
Qed.

End BridgeAuthenticatorFacts.

(** ** Command validation *)
Module CommandValidatorFacts.
Import CommandValidator.

Lemma toLowerCase_app a b :
  JSString.toLowerCase (a +:+ b) = JSString.toLowerCase a +:+ JSString.toLowerCase b.
Proof.
  induction a as [|c a IH]; [reflexivity|].
  simpl. rewrite IH. reflexivity.
Qed.

Lemma toLowerCase_joined a t p :
  JSString.toLowerCase (joined a t p)
  = combine3 (JSString.toLowerCase a) (JSString.toLowerCase t) (JSString.toLowerCase p).
Proof. unfold joined, combine3. rewrite !toLowerCase_app. reflexivity. Qed.

Lemma lowerField_string command k s :
  stringField command k s ->
  lowerField (command !! k) = Some (JSString.toLowerCase s).
Proof. intros [[-> ->]| ->]; reflexivity. Qed.

Lemma truthy_toLowerCase s :
  JSString.truthy (JSString.toLowerCase s) = JSString.truthy s.
Proof. destruct s; reflexivity. Qed.

Lemma firstBlocked_found combined b :
  In b BLOCKED_PATTERNS -> JSString.includes combined b = true ->
  exists b', firstBlocked combined = Some b'.
Proof.
  intros Hin Hinc. unfold firstBlocked.
  destruct (List.find _ BLOCKED_PATTERNS) as [b'|] eqn:Hf; [eauto|].
  pose proof (find_none _ _ Hf b Hin) as Hn. simpl in Hn. congruence.
Qed.

Lemma firstBlocked_none combined :
  (forall b, In b BLOCKED_PATTERNS -> JSString.includes combined b = false) ->
  firstBlocked combined = None.
Proof.
  intros H. unfold firstBlocked.
  destruct (List.find _ BLOCKED_PATTERNS) as [b'|] eqn:Hf; [|reflexivity].
  apply find_some in Hf as [Hin Hinc]. rewrite (H _ Hin) in Hinc. discriminate.
Qed.

(** C7. For a command whose [action], [target] and [payload] are strings
    or absent, [validate] returns a verdict, and: it is not valid when the
    lower-cased joined fields contain a blocked pattern, whatever the case
    of the input; it is not valid when the action is empty; it is flagged
    dangerous when the lower-cased action is one of the risky actions, in
    particular 'shutdown', also when the command is valid. *)
Theorem validate_verdict (command : Command) (a t p : string) :
  stringField command "action" a ->
  stringField command "target" t ->
  stringField command "payload" p ->
  exists r,
    validate command = Some r
    /\ (forall b, In b BLOCKED_PATTERNS ->
          JSString.includes (JSString.toLowerCase (joined a t p)) b = true ->
          valid r = false)
    /\ (a = EmptyString -> valid r = false)
    /\ (has DANGEROUS_ACTIONS (JSString.toLowerCase a) = true -> dangerous r = true)
    /\ ((forall b, In b BLOCKED_PATTERNS ->
           JSString.includes (JSString.toLowerCase (joined a t p)) b = false) ->
        a <> EmptyString ->
        valid r = true
        /\ dangerous r = has DANGEROUS_ACTIONS (JSString.toLowerCase a))
    /\ has DANGEROUS_ACTIONS "shutdown" = true.
Proof.
  intros Ha Ht Hp. unfold validate.
  rewrite (lowerField_string _ _ _ Ha), (lowerField_string _ _ _ Ht),
          (lowerField_string _ _ _ Hp).
  rewrite toLowerCase_joined.
  set (combined := combine3 _ _ _).
  destruct (firstBlocked combined) as [blocked|] eqn:Hb.
  - eexists. split; [reflexivity|]. simpl.
    split; [auto|]. split; [auto|]. split; [auto|]. split; [|reflexivity].
    intros Hnone _. apply firstBlocked_none in Hnone. congruence.
  - rewrite truthy_toLowerCase.
    destruct (JSString.truthy a) eqn:Htr; simpl.
    + eexists. split; [reflexivity|]. simpl. split.
      { intros b Hin Hinc.
        destruct (firstBlocked_found combined b Hin Hinc) as [b' Hb']. congruence. }
      split; [intros ->; discriminate|]. split; [auto|]. split; [auto|reflexivity].
    + eexists. split; [reflexivity|]. simpl. split; [auto|]. split; [auto|].
      split.
      { destruct a; [|discriminate]. simpl. discriminate. }
      split; [|reflexivity].
      intros _ Hne. destruct a; [congruence|discriminate].
Qed.

Lemma validate_verdict_witness :
  exists r,
    validate shoutedDelete = Some r
    /\ (forall b, In b BLOCKED_PATTERNS ->
          JSString.includes
            (JSString.toLowerCase
               (joined "Shell_Execute" EmptyString "RM -RF / --no-preserve-root")) b = true ->
          valid r = false)
    /\ ("Shell_Execute" = EmptyString -> valid r = false)
    /\ (has DANGEROUS_ACTIONS (JSString.toLowerCase "Shell_Execute") = true ->
        dangerous r = true)
    /\ ((forall b, In b BLOCKED_PATTERNS ->
           JSString.includes
             (JSString.toLowerCase
                (joined "Shell_Execute" EmptyString "RM -RF / --no-preserve-root")) b = false) ->
        "Shell_Execute" <> EmptyString ->
        valid r = true
        /\ dangerous r = has DANGEROUS_ACTIONS (JSString.toLowerCase "Shell_Execute"))
    /\ has DANGEROUS_ACTIONS "shutdown" = true.
Proof.
  apply (validate_verdict shoutedDelete "Shell_Execute" EmptyString
           "RM -RF / --no-preserve-root").
  - right. vm_compute. reflexivity.
  - left. split; vm_compute; reflexivity.
  - right. vm_compute. reflexivity.
Defined.

End CommandValidatorFacts.

(** ** System monitor *)
Module SystemMonitorFacts.
Import SystemMonitor.

Lemma triggered_passes rule v : triggered rule v = true <-> passes rule v.
Proof.
  unfold triggered, passes, Qgtb, Qltb.
  destruct (direction rule); rewrite negb_true_iff, <- not_true_iff_false,
    Qle_bool_iff; split; intros H.
  - apply Qnot_le_lt. exact H.
  - apply Qlt_not_le. exact H.
  - apply Qnot_le_lt. exact H.
  - apply Qlt_not_le. exact H.
Qed.

(** The rule fires: enabled, cooldown elapsed, value past the threshold. *)
Lemma checkRule_fires cb snapshot now i rule v :
  enabled rule = true ->
  cooldownMs rule <= now - lastTriggered rule ->
  metricValue snapshot (metric rule) = Some v ->
  passes rule v ->
  checkRule cb snapshot now i rule
  = (set_lastTriggered rule now, [fired cb i rule now v]).
Proof.
  intros He Hc Hv Hp. unfold checkRule. rewrite He. simpl.
  destruct (Z.ltb_spec (now - lastTriggered rule) (cooldownMs rule)); [lia|].
  rewrite Hv. apply triggered_passes in Hp. rewrite Hp. reflexivity.
Qed.

(** The rule is skipped while its cooldown runs. *)
Lemma checkRule_cooling cb snapshot now i rule :
  now - lastTriggered rule < cooldownMs rule ->
  checkRule cb snapshot now i rule = (rule, []).
Proof.
  intros Hc. unfold checkRule. destruct (enabled rule); [|reflexivity]. simpl.
  destruct (Z.ltb_spec (now - lastTriggered rule) (cooldownMs rule)); [reflexivity|lia].
Qed.

Lemma checkRule_index cb snapshot now i rule j :
  eventsFor j (snd (checkRule cb snapshot now i rule))
  = if Nat.eqb i j then snd (checkRule cb snapshot now i rule) else [].
Proof.
  unfold checkRule.
  destruct (negb (enabled rule)); [destruct (Nat.eqb i j); reflexivity|].
  destruct (now - lastTriggered rule <? cooldownMs rule);
    [destruct (Nat.eqb i j); reflexivity|].
  destruct (metricValue snapshot (metric rule)) as [v|];
    [|destruct (Nat.eqb i j); reflexivity].
  destruct (triggered rule v); [|destruct (Nat.eqb i j); reflexivity].
  unfold eventsFor. simpl. destruct (Nat.eqb i j); reflexivity.
Qed.

Lemma eventsFor_app j evs evs' :
  eventsFor j (evs ++ evs') = eventsFor j evs ++ eventsFor j evs'.
Proof. apply List.filter_app. Qed.

(** What the loop does for the rule at position [k] of the list. *)
Lemma checkRules_at cb snapshot now (i0 k : nat) (rules : list AlertRule) rule :
  rules !! k = Some rule ->
  fst (checkRules cb snapshot now i0 rules) !! k
    = Some (fst (checkRule cb snapshot now (i0 + k) rule))
  /\ eventsFor (i0 + k) (snd (checkRules cb snapshot now i0 rules))
    = snd (checkRule cb snapshot now (i0 + k) rule).
Proof.
  revert i0 k. induction rules as [|r rules IH]; intros i0 k Hk; [discriminate|].
  simpl checkRules.
  pose proof (checkRule_index cb snapshot now i0 r (i0 + k)) as Hidx.
  destruct (checkRule cb snapshot now i0 r) as [r' evs] eqn:Hr.
  assert (Hlate : forall j, (j < S i0)%nat ->
            eventsFor j (snd (checkRules cb snapshot now (S i0) rules)) = []).
  { clear. generalize (S i0). induction rules as [|r rules IH]; intros n j Hj;
      [reflexivity|].
    simpl checkRules.
    pose proof (checkRule_index cb snapshot now n r j) as Hidx.
    destruct (checkRule cb snapshot now n r) as [r' evs].
    specialize (IH (S n) j).
    destruct (checkRules cb snapshot now (S n) rules) as [rest evs'].
    simpl in *. rewrite eventsFor_app, Hidx, IH by lia.
    destruct (Nat.eqb_spec n j); [lia|reflexivity]. }
  destruct k as [|k].
  - simpl in Hk. injection Hk as ->.
    specialize (Hlate i0 ltac:(lia)).
    destruct (checkRules cb snapshot now (S i0) rules) as [rest evs'].
    rewrite Nat.add_0_r in *. simpl in *.
    rewrite Hr. simpl. split; [reflexivity|].
    rewrite eventsFor_app, Hidx, Hlate, Nat.eqb_refl, app_nil_r. reflexivity.
  - simpl in Hk. destruct (IH (S i0) k Hk) as [IH1 IH2].
    destruct (checkRules cb snapshot now (S i0) rules) as [rest evs'].
    replace (i0 + S k)%nat with (S i0 + k)%nat in * by lia. simpl in *.
    split; [exact IH1|].
    rewrite eventsFor_app, Hidx, IH2.
    destruct (Nat.eqb_spec i0 (S (i0 + k))); [lia|reflexivity].
Qed.

(** [processSnapshot] seen from one rule. *)
Lemma processSnapshot_at st cb snapshot now (i : nat) rule :
  alertCallback st = Some cb ->
  alertRules st !! i = Some rule ->
  alertCallback (fst (processSnapshot st snapshot now)) = Some cb
  /\ alertRules (fst (processSnapshot st snapshot now)) !! i
     = Some (fst (checkRule cb snapshot now i rule))
  /\ eventsFor i (snd (processSnapshot st snapshot now))
     = snd (checkRule cb snapshot now i rule).
Proof.
  intros Hcb Hi. unfold processSnapshot, checkAlerts. simpl. rewrite Hcb.
  destruct (checkRules_at cb snapshot now O i (alertRules st) rule Hi) as [H1 H2].
  destruct (checkRules cb snapshot now O (alertRules st)) as [rules evs].
  simpl in *. auto.
Qed.

(** Three snapshots in a row, seen from one rule: it fires on the first,
    is silent on the second, which falls in the cooldown, and fires on the
    third, which comes after it. *)
Lemma alert_sequence (st : State) (cb : Callback) (i : nat) (rule : AlertRule)
    (snap1 snap2 snap3 : SystemSnapshot) (t1 t2 t3 : Z) (v1 v3 : Q) :
  alertCallback st = Some cb ->
  alertRules st !! i = Some rule ->
  enabled rule = true ->
  metricValue snap1 (metric rule) = Some v1 -> passes rule v1 ->
  cooldownMs rule <= t1 - lastTriggered rule ->
  t2 - t1 < cooldownMs rule ->
  metricValue snap3 (metric rule) = Some v3 -> passes rule v3 ->
  cooldownMs rule <= t3 - t1 ->
  let r1 := processSnapshot st snap1 t1 in
  let r2 := processSnapshot (fst r1) snap2 t2 in
  let r3 := processSnapshot (fst r2) snap3 t3 in
  eventsFor i (snd r1) = [fired cb i rule t1 v1]
  /\ alertRules (fst r1) !! i = Some (set_lastTriggered rule t1)
  /\ eventsFor i (snd r2) = []
  /\ alertRules (fst r2) !! i = Some (set_lastTriggered rule t1)
  /\ eventsFor i (snd r3) = [fired cb i rule t3 v3]
  /\ alertRules (fst r3) !! i = Some (set_lastTriggered rule t3).
Proof.
  intros Hcb Hi He Hv1 Hp1 Hc1 Hc2 Hv3 Hp3 Hc3 r1 r2 r3.
  destruct (processSnapshot_at st cb snap1 t1 i rule Hcb Hi) as (Hcb1 & Hr1 & He1).
  rewrite (checkRule_fires cb snap1 t1 i rule v1 He Hc1 Hv1 Hp1) in Hr1, He1.
  simpl in Hr1, He1.
  destruct (processSnapshot_at (fst r1) cb snap2 t2 i _ Hcb1 Hr1) as (Hcb2 & Hr2 & He2).
  rewrite (checkRule_cooling cb snap2 t2 i (set_lastTriggered rule t1)) in Hr2, He2
    by exact Hc2.
  simpl in Hr2, He2.
  destruct (processSnapshot_at (fst r2) cb snap3 t3 i _ Hcb2 Hr2) as (Hcb3 & Hr3 & He3).
  rewrite (checkRule_fires cb snap3 t3 i (set_lastTriggered rule t1) v3) in Hr3, He3
    by assumption.
  simpl in Hr3, He3.
  repeat split; assumption.
Qed.

(** C4. For an enabled rule, with an alert callback registered: a snapshot
    whose metric passes the threshold in the rule's direction, at least
    [cooldownMs] after [lastTriggered], sets [lastTriggered] to the time of
    the snapshot and calls the callback once for the rule; a snapshot
    within [cooldownMs] of that makes no call for the rule; a passing
    snapshot once the cooldown has elapsed makes one again. In particular
    the default [cpu_high] rule fires at a CPU load of 95, is silent at 96
    one second later and fires again 60 seconds or more after the first. *)
Theorem alert_once_per_cooldown (st : State) (cb : Callback) (i : nat)
    (rule : AlertRule) (snap1 snap2 snap3 : SystemSnapshot) (t1 t2 t3 : Z)
    (v1 v3 : Q) :
  alertCallback st = Some cb ->
  alertRules st !! i = Some rule ->
  enabled rule = true ->
  metricValue snap1 (metric rule) = Some v1 -> passes rule v1 ->
  cooldownMs rule <= t1 - lastTriggered rule ->
  t2 - t1 < cooldownMs rule ->
  metricValue snap3 (metric rule) = Some v3 -> passes rule v3 ->
  cooldownMs rule <= t3 - t1 ->
  let r1 := processSnapshot st snap1 t1 in
  let r2 := processSnapshot (fst r1) snap2 t2 in
  let r3 := processSnapshot (fst r2) snap3 t3 in
  (eventsFor i (snd r1) = [fired cb i rule t1 v1]
   /\ alertRules (fst r1) !! i = Some (set_lastTriggered rule t1)
   /\ lastTriggered (set_lastTriggered rule t1) = t1)
  /\ (eventsFor i (snd r2) = []
      /\ alertRules (fst r2) !! i = Some (set_lastTriggered rule t1))
  /\ (eventsFor i (snd r3) = [fired cb i rule t3 v3]
      /\ alertRules (fst r3) !! i = Some (set_lastTriggered rule t3))
  /\ (forall (cb' : Callback) (t0 t' : Z),
        60000 <= t0 -> t0 + 60000 <= t' ->
        let s0 := onAlert init cb' in
        let c1 := processSnapshot s0 (cpuSnapshot 95%Q) t0 in
        let c2 := processSnapshot (fst c1) (cpuSnapshot 96%Q) (t0 + 1000) in
        let c3 := processSnapshot (fst c2) (cpuSnapshot 95%Q) t' in
        eventsFor 0 (snd c1) = [fired cb' 0 cpu_high t0 95%Q]
        /\ eventsFor 0 (snd c2) = []
        /\ eventsFor 0 (snd c3) = [fired cb' 0 cpu_high t' 95%Q]).
Proof.
  intros Hcb Hi He Hv1 Hp1 Hc1 Hc2 Hv3 Hp3 Hc3 r1 r2 r3.
  destruct (alert_sequence st cb i rule snap1 snap2 snap3 t1 t2 t3 v1 v3)
    as (A1 & A2 & A3 & A4 & A5 & A6); try assumption.
  split; [repeat split; assumption|].
  split; [split; assumption|].
  split; [split; assumption|].
  intros cb' t0 t' H0 H' s0 c1 c2 c3.
  destruct (alert_sequence s0 cb' O cpu_high
              (cpuSnapshot 95%Q) (cpuSnapshot 96%Q) (cpuSnapshot 95%Q)
              t0 (t0 + 1000) t' 95%Q 95%Q)
    as (B1 & _ & B3 & _ & B5 & _);
    try reflexivity; simpl; try lia.
  repeat split; assumption.
Qed.

Lemma alert_once_per_cooldown_witness :
  let st := onAlert init 7%nat in
  let r1 := processSnapshot st (cpuSnapshot 95%Q) 1700000000000 in
  let r2 := processSnapshot (fst r1) (cpuSnapshot 96%Q) 1700000001000 in
  let r3 := processSnapshot (fst r2) (cpuSnapshot (189 # 2)) 1700000060000 in
  eventsFor 0 (snd r1) = [fired 7%nat 0 cpu_high 1700000000000 95%Q]
  /\ eventsFor 0 (snd r2) = []
  /\ eventsFor 0 (snd r3) = [fired 7%nat 0 cpu_high 1700000060000 (189 # 2)].
Proof.
  intros st r1 r2 r3.
  destruct (alert_once_per_cooldown st 7%nat O cpu_high
              (cpuSnapshot 95%Q) (cpuSnapshot 96%Q) (cpuSnapshot (189 # 2))
              1700000000000 1700000001000 1700000060000 95%Q (189 # 2))
    as ((B1 & _) & (B3 & _) & (B5 & _) & _);
    try reflexivity; simpl; try lia.
  repeat split; assumption.
Defined.

End SystemMonitorFacts.

(** ** Workflow engine *)
Module WorkflowEngineFacts.
Import WorkflowEngine.

Lemma keyIndex_nth m k i :
  keyIndex m k = Some i -> exists kw, nth_error m i = Some kw.
Proof.
  revert i. induction m as [|[k' w] m IH]; intros i H; [discriminate|].
  simpl in H. destruct (String.eqb k' k).
  - injection H as <-. eexists. reflexivity.
  - destruct (keyIndex m k) as [j|]; [|discriminate].
    injection H as <-. apply (IH j eq_refl).
Qed.

Lemma resolve_nth e idOrName i wf :
  resolve e idOrName = Some (i, wf) ->
  exists k, nth_error (workflows e) i = Some (k, wf).
Proof.
  unfold resolve.
  destruct (match keyIndex (workflows e) idOrName with
            | Some i0 => Some i0
            | None => nameIndex (workflows e) idOrName
            end) as [j|]; [|discriminate].
  destruct (nth_error (workflows e) j) as [[k w]|] eqn:Hn; [|discriminate].
  intros H. injection H as <- <-. eauto.
Qed.

Lemma mapUpdateAt_nth m i k w w' :
  nth_error m i = Some (k, w) ->
  nth_error (mapUpdateAt m i w') i = Some (k, w').
Proof.
  revert i. induction m as [|[k0 w0] m IH]; intros [|i] H; try discriminate.
  - simpl in H. injection H as -> ->. reflexivity.
  - simpl in *. apply IH. exact H.
Qed.

Lemma mapUpdateAt_other m i j w' :
  i <> j -> nth_error (mapUpdateAt m i w') j = nth_error m j.
Proof.
  revert i j. induction m as [|[k0 w0] m IH]; intros [|i] [|j] H;
    try reflexivity; try congruence.
  simpl. apply IH. congruence.
Qed.

(** The three-way status, read off the recorded steps. *)
Lemma overallStatus_cases rs :
  ((forall r, In r rs -> rec_status r = success \/ rec_status r = skipped) ->
   overallStatus rs = completed)
  /\ ((exists r, In r rs /\ rec_status r = failed) ->
      (forall r, In r rs -> rec_status r = failed) ->
      overallStatus rs = run_failed)
  /\ ((exists r, In r rs /\ rec_status r = failed) ->
      (exists r, In r rs /\ rec_status r <> failed) ->
      overallStatus rs = partial).
Proof.
  unfold overallStatus. split; [|split].
  - intros H.
    assert (Hall : forallb okOrSkipped rs = true).
    { apply forallb_forall. intros r Hr. unfold okOrSkipped.
      destruct (H r Hr) as [-> | ->]; reflexivity. }
    rewrite Hall. reflexivity.
  - intros (r & Hr & Hf) H.
    assert (Hnot : forallb okOrSkipped rs = false).
    { apply not_true_iff_false. intros Hall. rewrite forallb_forall in Hall.
      specialize (Hall r Hr). unfold okOrSkipped in Hall.
      rewrite Hf in Hall. discriminate. }
    assert (Hall : forallb isFailed rs = true).
    { apply forallb_forall. intros r' Hr'. unfold isFailed.
      rewrite (H r' Hr'). reflexivity. }
    rewrite Hnot, Hall. reflexivity.
  - intros (r & Hr & Hf) (r' & Hr' & Hnf).
    assert (Hnot : forallb okOrSkipped rs = false).
    { apply not_true_iff_false. intros Hall. rewrite forallb_forall in Hall.
      specialize (Hall r Hr). unfold okOrSkipped in Hall.
      rewrite Hf in Hall. discriminate. }
    assert (Hnot' : forallb isFailed rs = false).
    { apply not_true_iff_false. intros Hall. rewrite forallb_forall in Hall.
      specialize (Hall r' Hr'). unfold isFailed in Hall.
      destruct (rec_status r'); congruence. }
    rewrite Hnot, Hnot'. reflexivity.
Qed.

Lemma runSteps_cons ex clock w s rest :
  runSteps ex clock w (s :: rest)
  = match fst (runStep ex clock w s) with
    | StepThrew => (None, snd (runStep ex clock w s))
    | Recorded r stop =>
        if stop then (Some [r], snd (runStep ex clock w s))
        else (option_map (cons r)
                (fst (runSteps ex clock (snd (runStep ex clock w s)) rest)),
              snd (runSteps ex clock (snd (runStep ex clock w s)) rest))
    end.
Proof.
  simpl. destruct (runStep ex clock w s) as [[r stop|] w']; simpl; [|reflexivity].
  destruct stop; [reflexivity|]. destruct (runSteps ex clock w' rest); reflexivity.
Qed.

(** The loop records at most one step per step of the workflow. *)
Lemma runSteps_length ex clock ss :
  forall w rs,
    fst (runSteps ex clock w ss) = Some rs -> (length rs <= length ss)%nat.
Proof.
  induction ss as [|s ss IH]; intros w rs H.
  - simpl in H. injection H as <-. simpl. lia.
  - rewrite runSteps_cons in H.
    destruct (fst (runStep ex clock w s)) as [r stop|]; [|discriminate].
    destruct stop.
    + injection H as <-. simpl. lia.
    + simpl in H.
      destruct (fst (runSteps ex clock (snd (runStep ex clock w s)) ss)) as [rs'|] eqn:E;
        [|discriminate].
      injection H as <-. specialize (IH _ _ E). simpl. lia.
Qed.

(** A run that passes the engine's checks, unfolded. *)
Lemma executeWorkflow_runs e ex clock idOrName i wf :
  executor e = Some ex ->
  resolve e idOrName = Some (i, wf) ->
  enabled wf = true ->
  let run := runSteps ex clock startWorld (steps wf) in
  executeWorkflow e clock idOrName =
    match fst run with
    | None => (Threw, e, snd run)
    | Some rs =>
        (Returned
           (Some {| workflowId := wf_id wf; workflowName := name wf;
                    startedAt := ms (clock O);
                    completedAt := ms (clock (S (reads (snd run))));
                    res_steps := rs; res_status := overallStatus rs |}),
         {| workflows :=
              mapUpdateAt (workflows e) i (afterRun wf (ms (clock (reads (snd run)))));
            executor := executor e |},
         tick (tick (snd run)))
    end.
Proof.
  intros Hex Hres Hen run. unfold executeWorkflow.
  rewrite Hex, Hres, Hen. simpl negb. cbv iota.
  fold startWorld. fold run. destruct run as [[rs|] w1]; reflexivity.
Qed.

(** *** The calls of a step *)

(** The attempt loop makes [n] calls, at most [fuel], all with the step's
    command. It stops at the first rejection with undefined or null,
    which raises; if it ends without raising, a failure has used all the
    attempts and a success at least one. *)
Lemma attemptLoop_calls ex s fuel :
  forall msg w,
    exists n : nat,
      (n <= fuel)%nat
      /\ calls (snd (attemptLoop ex s fuel msg w)) = (calls w + n)%nat
      /\ sent (snd (attemptLoop ex s fuel msg w))
         = sent w ++ repeat (step_id s, stepCommand s) n
      /\ reads (snd (attemptLoop ex s fuel msg w)) = reads w
      /\ (forall k, (k < n)%nat ->
            ex (calls w + k)%nat (stepCommand s) = Rejected ThrownNullish ->
            fst (attemptLoop ex s fuel msg w) = LoopThrew /\ n = S k)
      /\ match fst (attemptLoop ex s fuel msg w) with
         | LoopDone ok _ => if ok then (1 <= n)%nat else n = fuel
         | LoopThrew =>
             (1 <= n)%nat
             /\ ex (calls w + (n - 1))%nat (stepCommand s) = Rejected ThrownNullish
         end.
Proof.
  induction fuel as [|fuel IH]; intros msg w.
  - exists O. simpl. rewrite app_nil_r. repeat split; intros; lia.
  - simpl attemptLoop.
    assert (Hshift : forall n,
              (sent w ++ [(step_id s, stepCommand s)])
                ++ repeat (step_id s, stepCommand s) n
              = sent w ++ repeat (step_id s, stepCommand s) (S n)).
    { intros n. rewrite <- app_assoc. reflexivity. }
    assert (Hgo : forall msg',
              ex (calls w) (stepCommand s) <> Rejected ThrownNullish ->
              let r := attemptLoop ex s fuel msg' (called w (step_id s) (stepCommand s)) in
              exists n : nat,
                (n <= S fuel)%nat
                /\ calls (snd r) = (calls w + n)%nat
                /\ sent (snd r) = sent w ++ repeat (step_id s, stepCommand s) n
                /\ reads (snd r) = reads w
                /\ (forall k, (k < n)%nat ->
                      ex (calls w + k)%nat (stepCommand s) = Rejected ThrownNullish ->
                      fst r = LoopThrew /\ n = S k)
                /\ match fst r with
                   | LoopDone ok _ => if ok then (1 <= n)%nat else n = S fuel
                   | LoopThrew =>
                       (1 <= n)%nat
                       /\ ex (calls w + (n - 1))%nat (stepCommand s)
                          = Rejected ThrownNullish
                   end).
    { intros msg' Hne r.
      destruct (IH msg' (called w (step_id s) (stepCommand s)))
        as (n & H1 & H2 & H3 & H4 & H5 & H6).
      fold r in H2, H3, H4, H5, H6.
      exists (S n). simpl in H2, H3, H4, H5. rewrite H2, H3, H4, Hshift.
      split; [lia|]. split; [lia|]. split; [reflexivity|]. split; [reflexivity|].
      split.
      - intros [|k] Hk Hex.
        + rewrite Nat.add_0_r in Hex. contradiction.
        + destruct (H5 k) as [Ht Hn]; [lia| |].
          * rewrite Nat.add_succ_r in Hex. exact Hex.
          * split; [exact Ht|]. lia.
      - destruct (fst r) as [[|] m|].
        + lia.
        + lia.
        + destruct H6 as [Hn Hex]. split; [lia|].
          simpl in Hex.
          replace (calls w + (S n - 1))%nat with (S (calls w + (n - 1)))%nat by lia.
          exact Hex. }
    destruct (ex (calls w) (stepCommand s)) as [r|[|m]] eqn:Hex.
    + destruct (match r with
                | Some r' => notError (reply_status r')
                | None => true
                end).
      * exists 1%nat. simpl.
        split; [lia|]. split; [lia|]. split; [reflexivity|]. split; [reflexivity|].
        split; [|lia].
        intros k Hk Hn. assert (k = O) by lia. subst k.
        rewrite Nat.add_0_r in Hn. congruence.
      * apply Hgo. discriminate.
    + exists 1%nat. simpl.
      split; [lia|]. split; [lia|]. split; [reflexivity|]. split; [reflexivity|].
      split; [intros k Hk _; split; [reflexivity|lia]|].
      split; [lia|]. rewrite Nat.add_0_r. exact Hex.
    + apply Hgo. discriminate.
Qed.

(** The same for the whole loop body of a step, with what it records. *)
Lemma runStep_calls ex clock w s :
  exists n : nat,
    (n <= Z.to_nat (maxAttempts s))%nat
    /\ calls (snd (runStep ex clock w s)) = (calls w + n)%nat
    /\ sent (snd (runStep ex clock w s))
       = sent w ++ repeat (step_id s, stepCommand s) n
    /\ (forall k, (k < n)%nat ->
          ex (calls w + k)%nat (stepCommand s) = Rejected ThrownNullish ->
          fst (runStep ex clock w s) = StepThrew /\ n = S k)
    /\ match fst (runStep ex clock w s) with
       | Recorded r stop =>
           match rec_status r with
           | skipped => n = O /\ stop = false
           | success => (1 <= n)%nat /\ stop = false
           | failed =>
               n = Z.to_nat (maxAttempts s)
               /\ stop = match onFailure s with Some abort => true | _ => false end
           end
       | StepThrew =>
           (1 <= n)%nat
           /\ ex (calls w + (n - 1))%nat (stepCommand s) = Rejected ThrownNullish
       end.
Proof.
  unfold runStep.
  set (w0 := match condition s with Some _ => tick w | None => w end).
  assert (Hw0 : calls w0 = calls w /\ sent w0 = sent w).
  { unfold w0. destruct (condition s); split; reflexivity. }
  destruct Hw0 as [Hc0 Hs0].
  destruct (match condition s with
            | Some c => negb (evaluateCondition c (clock (reads w)))
            | None => false
            end).
  - exists O. simpl. rewrite app_nil_r, Hc0, Hs0.
    repeat split; intros; lia.
  - destruct (attemptLoop_calls ex s (Z.to_nat (maxAttempts s)) (VString EmptyString)
                (tick w0)) as (n & H1 & H2 & H3 & _ & H5 & H6).
    destruct (attemptLoop ex s (Z.to_nat (maxAttempts s)) (VString EmptyString) (tick w0))
      as [[ok msg|] w2].
    + simpl in *. exists n. rewrite H2, H3, Hc0, Hs0.
      split; [exact H1|]. split; [reflexivity|]. split; [reflexivity|].
      split.
      * intros k Hk Hex. rewrite Hc0 in H5. destruct (H5 k Hk Hex). discriminate.
      * destruct ok; simpl; split; try reflexivity; exact H6.
    + simpl in *. exists n. rewrite H2, H3, Hc0, Hs0.
      split; [exact H1|]. split; [reflexivity|]. split; [reflexivity|].
      rewrite Hc0 in H5, H6.
      split; [|exact H6].
      intros k Hk Hex. destruct (H5 k Hk Hex) as [_ Hn]. split; [reflexivity|exact Hn].
Qed.

(** *** When a run raises *)

Lemma rejectedNullish_sent ex w w' :
  sent w = sent w' -> rejectedNullish ex w <-> rejectedNullish ex w'.
Proof. intros H. unfold rejectedNullish. rewrite H. reflexivity. Qed.

(** A step raises exactly when one of its calls is rejected with
    undefined or null. *)
Lemma runStep_nullish ex clock w s :
  calls w = length (sent w) ->
  ~ rejectedNullish ex w ->
  calls (snd (runStep ex clock w s)) = length (sent (snd (runStep ex clock w s)))
  /\ (fst (runStep ex clock w s) = StepThrew
      <-> rejectedNullish ex (snd (runStep ex clock w s))).
Proof.
  intros Hinv Hclean.
  destruct (runStep_calls ex clock w s) as (n & _ & Hc & Hs & Hk & Hend).
  split.
  { rewrite Hc, Hs, length_app, repeat_length, Hinv. reflexivity. }
  split.
  - intros Ht. rewrite Ht in Hend. destruct Hend as [Hn Hex].
    exists (calls w + (n - 1))%nat, (step_id s), (stepCommand s).
    split; [|exact Hex].
    rewrite Hs, Hinv, nth_error_app2 by lia.
    replace (length (sent w) + (n - 1) - length (sent w))%nat with (n - 1)%nat by lia.
    apply nth_error_repeat. lia.
  - intros (idx & sid & c & Hnth & Hex). rewrite Hs in Hnth.
    destruct (Nat.lt_ge_cases idx (length (sent w))) as [Hlt|Hge].
    + rewrite nth_error_app1 in Hnth by exact Hlt.
      exfalso. apply Hclean. exists idx, sid, c. split; assumption.
    + rewrite nth_error_app2 in Hnth by exact Hge.
      assert (Hlt : (idx - length (sent w) < n)%nat).
      { rewrite <- (repeat_length (step_id s, stepCommand s) n).
        apply nth_error_Some. rewrite Hnth. discriminate. }
      apply nth_error_In, repeat_spec in Hnth. injection Hnth as -> ->.
      destruct (Hk (idx - length (sent w))%nat Hlt) as [Ht _]; [|exact Ht].
      rewrite Hinv. replace (length (sent w) + (idx - length (sent w)))%nat with idx by lia.
      exact Hex.
Qed.

Lemma runSteps_nullish ex clock ss :
  forall w,
    calls w = length (sent w) ->
    ~ rejectedNullish ex w ->
    calls (snd (runSteps ex clock w ss)) = length (sent (snd (runSteps ex clock w ss)))
    /\ (fst (runSteps ex clock w ss) = None
        <-> rejectedNullish ex (snd (runSteps ex clock w ss))).
Proof.
  induction ss as [|s ss IH]; intros w Hinv Hclean.
  - simpl. split; [exact Hinv|]. split; [discriminate|]. intros H. contradiction.
  - rewrite runSteps_cons.
    destruct (runStep_nullish ex clock w s Hinv Hclean) as [Hinv' Hiff].
    destruct (fst (runStep ex clock w s)) as [r stop|].
    + assert (Hclean' : ~ rejectedNullish ex (snd (runStep ex clock w s))).
      { intros H. apply Hiff in H. discriminate. }
      destruct stop.
      * simpl. split; [exact Hinv'|]. split; [discriminate|]. intros H. contradiction.
      * destruct (IH _ Hinv' Hclean') as [Hinv'' Hiff'']. simpl.
        split; [exact Hinv''|]. rewrite <- Hiff''.
        destruct (fst (runSteps ex clock (snd (runStep ex clock w s)) ss));
          simpl; split; congruence.
    + simpl. split; [exact Hinv'|]. split; [intros _; apply Hiff; reflexivity|reflexivity].
Qed.

Lemma startWorld_clean ex :
  calls startWorld = length (sent startWorld) /\ ~ rejectedNullish ex startWorld.
Proof.
  split; [reflexivity|]. intros (n & sid & c & H & _).
  destruct n; discriminate.
Qed.

(** C5. A run of [executeWorkflow] (executor set, workflow found and
    enabled) raises exactly when one of the calls it makes to the executor
    is rejected with undefined or null: the error of the [catch] clause
    leaves the method, nothing is returned and the engine is unchanged, so
    [runCount] is not incremented and [lastRun] is not set. In every other
    run a result is returned whose steps are those the loop recorded and
    whose status is 'completed' if every recorded step is success or
    skipped, otherwise 'failed' if every recorded step failed, otherwise
    'partial'; the workflow's [runCount] has grown by one and [lastRun] is
    set, the other workflows being untouched, whether or not an abort cut
    the run short of the workflow's steps. *)
Theorem executeWorkflow_status_and_stats (e : Engine) (ex : Executor)
    (clock : Clock) (idOrName : string) (i : nat) (wf : Workflow) :
  executor e = Some ex ->
  resolve e idOrName = Some (i, wf) ->
  enabled wf = true ->
  let out := executeWorkflow e clock idOrName in
  (fst (fst out) = Threw <-> rejectedNullish ex (snd out))
  /\ (fst (fst out) = Threw -> snd (fst out) = e)
  /\ (~ rejectedNullish ex (snd out) ->
      exists res e' k t,
        fst out = (Returned (Some res), e')
        /\ fst (runSteps ex clock startWorld (steps wf)) = Some (res_steps res)
        /\ (length (res_steps res) <= length (steps wf))%nat
        /\ ((forall r, In r (res_steps res) ->
               rec_status r = success \/ rec_status r = skipped) ->
            res_status res = completed)
        /\ ((exists r, In r (res_steps res) /\ rec_status r = failed) ->
            (forall r, In r (res_steps res) -> rec_status r = failed) ->
            res_status res = run_failed)
        /\ ((exists r, In r (res_steps res) /\ rec_status r = failed) ->
            (exists r, In r (res_steps res) /\ rec_status r <> failed) ->
            res_status res = partial)
        /\ nth_error (workflows e) i = Some (k, wf)
        /\ nth_error (workflows e') i = Some (k, afterRun wf t)
        /\ runCount (afterRun wf t) = runCount wf + 1
        /\ lastRun (afterRun wf t) = Some t
        /\ (forall j, j <> i -> nth_error (workflows e') j = nth_error (workflows e) j)).
Proof.
  intros Hex Hres Hen out.
  pose proof (executeWorkflow_runs e ex clock idOrName i wf Hex Hres Hen) as Hrun.
  cbv zeta in Hrun. fold out in Hrun.
  destruct (startWorld_clean ex) as [Hinv Hclean].
  destruct (runSteps_nullish ex clock (steps wf) startWorld Hinv Hclean) as [_ Hiff].
  destruct (resolve_nth _ _ _ _ Hres) as [k Hk].
  destruct (fst (runSteps ex clock startWorld (steps wf))) as [rs|] eqn:Hrs.
  - assert (Hsame : rejectedNullish ex (snd out)
                    <-> rejectedNullish ex (snd (runSteps ex clock startWorld (steps wf)))).
    { apply rejectedNullish_sent. rewrite Hrun. reflexivity. }
    split; [|split].
    + rewrite Hsame, <- Hiff, Hrun. simpl. split; discriminate.
    + rewrite Hrun. discriminate.
    + intros _.
      destruct (overallStatus_cases rs) as (S1 & S2 & S3).
      do 2 eexists. exists k. eexists.
      split; [rewrite Hrun; reflexivity|]. simpl.
      split; [reflexivity|].
      split; [apply (runSteps_length ex clock (steps wf) startWorld rs Hrs)|].
      split; [exact S1|]. split; [exact S2|]. split; [exact S3|].
      split; [exact Hk|].
      split; [apply (mapUpdateAt_nth _ _ _ _ _ Hk)|].
      split; [reflexivity|]. split; [reflexivity|].
      intros j Hj. apply mapUpdateAt_other. congruence.
  - assert (Hnull : rejectedNullish ex (snd out)).
    { rewrite Hrun. simpl. apply Hiff. reflexivity. }
    split; [|split].
    + split; [intros _; exact Hnull|intros _; rewrite Hrun; reflexivity].
    + intros _. rewrite Hrun. reflexivity.
    + intros Hn. contradiction.
Qed.

(** The failing input: a workflow of two steps with an executor whose
    promise rejects with undefined. One call is made, nothing is returned
    and the engine, with the workflow's [runCount] of 4, is as before. *)
Lemma executeWorkflow_status_and_stats_witness :
  fst (fst (executeWorkflow (rejectingEngine ThrownNullish (Some skip))
              sampleClock "wf_sample")) = Threw
  /\ snd (fst (executeWorkflow (rejectingEngine ThrownNullish (Some skip))
                 sampleClock "wf_sample"))
     = rejectingEngine ThrownNullish (Some skip)
  /\ calls (snd (executeWorkflow (rejectingEngine ThrownNullish (Some skip))
                   sampleClock "wf_sample")) = 1%nat
  /\ option_map runCount
       (mapGet (workflows (rejectingEngine ThrownNullish (Some skip))) "wf_sample")
     = Some 4.
Proof.
  set (e := rejectingEngine ThrownNullish (Some skip)).
  destruct (executeWorkflow_status_and_stats e (rejectingExecutor ThrownNullish)
              sampleClock "wf_sample" O (onceWorkflow (Some skip)))
    as (H1 & H2 & _); try reflexivity.
  assert (Ht : fst (fst (executeWorkflow e sampleClock "wf_sample")) = Threw).
  { apply H1. exists O, "s1", (stepCommand (onceStep "s1" (Some skip))).
    split; [vm_compute; reflexivity|reflexivity]. }
  split; [exact Ht|]. split; [exact (H2 Ht)|]. split; [vm_compute; reflexivity|reflexivity].
Defined.

(** The same run with a promise that rejects with an [Error] is a failed
    run that returns: both steps are recorded as failed with the error's
    message, one call each, and [runCount] becomes 5. *)
Example executeWorkflow_rejection_with_error :
  let e := rejectingEngine (ThrownValue (VString "timeout")) (Some skip) in
  exists res e',
    fst (executeWorkflow e sampleClock "wf_sample") = (Returned (Some res), e')
    /\ map rec_status (res_steps res) = [failed; failed]
    /\ map result (res_steps res) = [VString "timeout"; VString "timeout"]
    /\ res_status res = run_failed
    /\ map fst (sent (snd (executeWorkflow e sampleClock "wf_sample")))
       = ["s1"; "s2"]
    /\ option_map runCount (mapGet (workflows e') "wf_sample") = Some 5.
Proof. intros e. do 2 eexists. vm_compute. repeat split. Qed.

(** *** Abort and continue *)

Lemma runSteps_reaches ex clock pre rest :
  forall w w1,
    reaches ex clock w pre = Some w1 ->
    exists pre_rs,
      fst (runSteps ex clock w pre) = Some pre_rs
      /\ length pre_rs = length pre
      /\ runSteps ex clock w (pre ++ rest)
         = (option_map (app pre_rs) (fst (runSteps ex clock w1 rest)),
            snd (runSteps ex clock w1 rest)).
Proof.
  induction pre as [|s pre IH]; intros w w1 H.
  - simpl in H. injection H as ->. exists []. simpl.
    split; [reflexivity|]. split; [reflexivity|].
    destruct (runSteps ex clock w1 rest) as [[rs|] w']; reflexivity.
  - simpl in H. simpl app. rewrite !runSteps_cons.
    destruct (runStep ex clock w s) as [[r [|]|] w']; try discriminate.
    simpl fst. simpl snd. cbv iota.
    destruct (IH w' w1 H) as (pre_rs & H1 & H2 & H3).
    exists (r :: pre_rs). rewrite H1, H3. simpl.
    split; [reflexivity|]. split; [lia|].
    destruct (fst (runSteps ex clock w1 rest)); reflexivity.
Qed.

(** C9. In a run of [executeWorkflow] that arrives at a step [s]: when
    [s] is recorded as failed it has used all its attempts, and then, if
    its policy is 'abort', the record of [s] is the last one and the
    executor is not called for any later step; if its policy is 'skip',
    'retry' or absent, the loop goes on with the steps after [s] from the
    world [s] left, so the step right after [s] is run, and recorded when
    the run returns. But when a call of [s] is rejected with undefined or
    null, the run raises whatever the policy: [s] has made fewer than all
    its attempts or all, no step is recorded, no later step is attempted
    and the engine is unchanged. *)
Theorem abort_stops_skip_continues (e : Engine) (ex : Executor) (clock : Clock)
    (idOrName : string) (i : nat) (wf : Workflow)
    (pre post : list WorkflowStep) (s : WorkflowStep) (w1 : World) :
  executor e = Some ex ->
  resolve e idOrName = Some (i, wf) ->
  enabled wf = true ->
  steps wf = pre ++ s :: post ->
  reaches ex clock startWorld pre = Some w1 ->
  let w2 := snd (runStep ex clock w1 s) in
  let out := executeWorkflow e clock idOrName in
  (forall r stop,
     fst (runStep ex clock w1 s) = Recorded r stop ->
     rec_status r = failed ->
     exists pre_rs,
       fst (runSteps ex clock startWorld pre) = Some pre_rs
       /\ length pre_rs = length pre
       /\ calls w2 = (calls w1 + Z.to_nat (maxAttempts s))%nat
       /\ (onFailure s = Some abort ->
           recorded (fst (fst out)) = Some (pre_rs ++ [r])
           /\ sent (snd out) = sent w2
           /\ calls (snd out) = calls w2)
       /\ (onFailure s <> Some abort ->
           recorded (fst (fst out))
             = option_map (fun rs => pre_rs ++ r :: rs) (fst (runSteps ex clock w2 post))
           /\ (fst (fst out) = Threw <-> fst (runSteps ex clock w2 post) = None)
           /\ sent (snd out) = sent (snd (runSteps ex clock w2 post))
           /\ (forall nxt post', post = nxt :: post' ->
                 (exists later,
                    sent (snd out) = sent (snd (runStep ex clock w2 nxt)) ++ later)
                 /\ (forall r' stop' rs,
                       fst (runStep ex clock w2 nxt) = Recorded r' stop' ->
                       recorded (fst (fst out)) = Some rs ->
                       nth_error rs (S (length pre)) = Some r'))))
  /\ (fst (runStep ex clock w1 s) = StepThrew ->
      fst (fst out) = Threw
      /\ snd (fst out) = e
      /\ sent (snd out) = sent w2
      /\ exists n : nat,
           (n < Z.to_nat (maxAttempts s))%nat
           /\ sent w2 = sent w1 ++ repeat (step_id s, stepCommand s) (S n)
           /\ ex (calls w1 + n)%nat (stepCommand s) = Rejected ThrownNullish).
Proof.
  intros Hex Hres Hen Hsteps Hreach w2 out.
  pose proof (executeWorkflow_runs e ex clock idOrName i wf Hex Hres Hen) as Hrun.
  cbv zeta in Hrun. fold out in Hrun.
  destruct (runSteps_reaches ex clock pre (s :: post) startWorld w1 Hreach)
    as (pre_rs & Hpre & Hlen & Happ).
  rewrite Hsteps, Happ, runSteps_cons in Hrun.
  destruct (runStep_calls ex clock w1 s) as (n & Hn & Hc & Hs & _ & Hend).
  fold w2 in Hrun, Hc, Hs.
  split.
  - intros r stop Hr Hfail. rewrite Hr in Hrun, Hend. rewrite Hfail in Hend.
    destruct Hend as [-> ->].
    exists pre_rs. split; [exact Hpre|]. split; [exact Hlen|]. split; [exact Hc|].
    split.
    + intros Hab. rewrite Hab in Hrun. simpl in Hrun. rewrite Hrun. simpl.
      repeat split; reflexivity.
    + intros Hna.
      assert (Hgo : match onFailure s with Some abort => true | _ => false end = false).
      { destruct (onFailure s) as [[| |]|]; try reflexivity. congruence. }
      rewrite Hgo in Hrun. cbn [fst snd] in Hrun.
      assert (Hrec : recorded (fst (fst out))
                     = option_map (fun rs => pre_rs ++ r :: rs)
                         (fst (runSteps ex clock w2 post))).
      { rewrite Hrun. destruct (fst (runSteps ex clock w2 post)); reflexivity. }
      assert (Hsent : sent (snd out) = sent (snd (runSteps ex clock w2 post))).
      { rewrite Hrun. destruct (fst (runSteps ex clock w2 post)); reflexivity. }
      split; [exact Hrec|]. split.
      { rewrite Hrun. destruct (fst (runSteps ex clock w2 post));
          simpl; split; congruence. }
      split; [exact Hsent|].
      intros nxt post' ->. split.
      * rewrite Hsent, runSteps_cons.
        destruct (runStep_calls ex clock w2 nxt) as (n1 & _ & _ & Hs1 & _).
        destruct (fst (runStep ex clock w2 nxt)) as [r1 [|]|].
        -- exists []. simpl. rewrite app_nil_r. reflexivity.
        -- simpl.
           assert (Hext : forall ss w, exists later,
                     sent (snd (runSteps ex clock w ss)) = sent w ++ later).
           { induction ss as [|s0 ss IHs]; intros w.
             - exists []. simpl. rewrite app_nil_r. reflexivity.
             - rewrite runSteps_cons.
               destruct (runStep_calls ex clock w s0) as (n0 & _ & _ & Hs0 & _).
               destruct (fst (runStep ex clock w s0)) as [r0 [|]|]; simpl;
                 try (eexists; exact Hs0).
               destruct (IHs (snd (runStep ex clock w s0))) as (l & Hl).
               rewrite Hl, Hs0, <- app_assoc. eexists. reflexivity. }
           apply Hext.
        -- exists []. simpl. rewrite app_nil_r. reflexivity.
      * intros r' stop' rs Hr' Hsome. rewrite Hrec, runSteps_cons, Hr' in Hsome.
        destruct stop'.
        -- simpl in Hsome. injection Hsome as <-.
           rewrite nth_error_app2 by lia.
           replace (S (length pre) - length pre_rs)%nat with 1%nat by lia. reflexivity.
        -- simpl in Hsome.
           destruct (fst (runSteps ex clock (snd (runStep ex clock w2 nxt)) post'));
             [|discriminate].
           simpl in Hsome. injection Hsome as <-.
           rewrite nth_error_app2 by lia.
           replace (S (length pre) - length pre_rs)%nat with 1%nat by lia. reflexivity.
  - intros Ht. rewrite Ht in Hrun, Hend. simpl in Hrun. rewrite Hrun. simpl.
    split; [reflexivity|]. split; [reflexivity|]. split; [reflexivity|].
    destruct Hend as [Hn1 Hex1]. destruct n as [|n']; [lia|]. exists n'.
    split; [lia|]. split; [exact Hs|].
    replace (S n' - 1)%nat with n' in Hex1 by lia. exact Hex1.
Qed.

(** The failing input: the first step of the workflow has policy 'skip'
    and one attempt; with an executor whose promise rejects with
    undefined that attempt is the step's last, yet the run raises and the
    second step is never attempted. *)
Lemma abort_stops_skip_continues_witness :
  fst (fst (executeWorkflow (rejectingEngine ThrownNullish (Some skip))
              sampleClock "wf_sample")) = Threw
  /\ snd (fst (executeWorkflow (rejectingEngine ThrownNullish (Some skip))
                 sampleClock "wf_sample"))
     = rejectingEngine ThrownNullish (Some skip)
  /\ map fst (sent (snd (executeWorkflow (rejectingEngine ThrownNullish (Some skip))
                           sampleClock "wf_sample"))) = ["s1"]
  /\ maxAttempts (onceStep "s1" (Some skip)) = 1.
Proof.
  set (e := rejectingEngine ThrownNullish (Some skip)).
  destruct (abort_stops_skip_continues e (rejectingExecutor ThrownNullish)
              sampleClock "wf_sample" O (onceWorkflow (Some skip))
              [] [onceStep "s2" (Some skip)] (onceStep "s1" (Some skip)) startWorld)
    as (_ & Hthrew); try reflexivity.
  destruct Hthrew as (H1 & H2 & H3 & _); [vm_compute; reflexivity|].
  split; [exact H1|]. split; [exact H2|].
  split; [rewrite H3; vm_compute; reflexivity|reflexivity].
Defined.

(** The same workflow with an executor that answers with an error status:
    the first step fails after its two attempts and, its policy being
    'skip', the second step is run and recorded. *)
Example skip_continues_sample :
  let out := executeWorkflow (sampleEngine (Some skip)) sampleClock "wf_sample" in
  option_map (map stepId) (recorded (fst (fst out))) = Some ["s1"; "s2"]
  /\ map fst (sent (snd out)) = ["s1"; "s1"; "s2"; "s2"].
Proof. vm_compute. split; reflexivity. Qed.

End WorkflowEngineFacts.

(** ** Key manager *)
Module NeuralKeyManagerFacts.
Import NeuralKeyManager.

Lemma markFailed_current st k tFail tCool :
  keys st !! currentIndex st = Some k ->
  keys (markFailed st tFail tCool) !! currentIndex st = Some (failKey k tFail tCool)
  /\ currentIndex (markFailed st tFail tCool) = currentIndex st.
Proof.
  intros Hk. unfold markFailed. rewrite Hk. simpl. split; [|reflexivity].
  apply list_lookup_insert_eq. eapply lookup_lt_Some. exact Hk.
Qed.

Lemma markFailed_other st tFail tCool (j : nat) :
  j <> currentIndex st ->
  keys (markFailed st tFail tCool) !! j = keys st !! j.
Proof.
  intros Hj. unfold markFailed.
  destruct (keys st !! currentIndex st); [|reflexivity].
  simpl. apply list_lookup_insert_ne. congruence.
Qed.

Lemma markFailed_length st tFail tCool :
  length (keys (markFailed st tFail tCool)) = length (keys st).
Proof.
  unfold markFailed. destruct (keys st !! currentIndex st); [|reflexivity].
  simpl. apply length_insert.
Qed.

Lemma markFailedTimes_snoc st times x :
  markFailedTimes st (times ++ [x])
  = markFailed (markFailedTimes st times) (fst x) (snd x).
Proof.
  revert st. induction times as [|[a b] times IH]; intros st.
  - destruct x. reflexivity.
  - simpl. apply IH.
Qed.

(** The failure count after a run of [markFailed] calls. *)
Lemma markFailedTimes_count st k times :
  keys st !! currentIndex st = Some k ->
  exists k',
    keys (markFailedTimes st times) !! currentIndex st = Some k'
    /\ currentIndex (markFailedTimes st times) = currentIndex st
    /\ failureCount k' = failureCount k + Z.of_nat (length times).
Proof.
  revert st k. induction times as [|[a b] times IH]; intros st k Hk.
  - exists k. simpl. split; [exact Hk|]. split; [reflexivity|lia].
  - destruct (markFailed_current st k a b Hk) as [Hk1 Hc1].
    simpl markFailedTimes.
    rewrite <- Hc1 in Hk1.
    destruct (IH _ _ Hk1) as (k' & H1 & H2 & H3).
    exists k'. rewrite Hc1 in H1, H2. split; [exact H1|]. split; [exact H2|].
    rewrite H3. simpl. lia.
Qed.

(** C8. After [n] calls of [markFailed] in a row on a credential whose
    [failureCount] was 0, with [n] at least the escalation threshold 3,
    the cooldown set by the last call is the long one, 300000 ms from the
    clock reading of that call, and not the short one of 60000 ms. *)
Theorem markFailed_long_cooldown (st : State) (k : KeyHealth)
    (times : list (Z * Z)) (tFail tCool : Z) :
  keys st !! currentIndex st = Some k ->
  failureCount k = 0 ->
  (MAX_FAILURES_BEFORE_LONG_COOLDOWN <= Z.of_nat (length (times ++ [(tFail, tCool)]))) ->
  exists k',
    keys (markFailedTimes st (times ++ [(tFail, tCool)])) !! currentIndex st = Some k'
    /\ failureCount k' = Z.of_nat (length (times ++ [(tFail, tCool)]))
    /\ cooldownUntil k' = tCool + LONG_COOLDOWN_MS
    /\ cooldownUntil k' - tCool = 300000
    /\ cooldownUntil k' <> tCool + COOLDOWN_MS.
Proof.
  intros Hk H0 Hn. rewrite length_app in *. simpl length in *.
  destruct (markFailedTimes_count st k times Hk) as (k1 & H1 & H2 & H3).
  rewrite markFailedTimes_snoc. simpl fst. simpl snd.
  rewrite <- H2 in H1.
  destruct (markFailed_current _ k1 tFail tCool H1) as [Hk' _].
  rewrite H2 in Hk'.
  exists (failKey k1 tFail tCool). split; [exact Hk'|].
  unfold failKey, MAX_FAILURES_BEFORE_LONG_COOLDOWN, LONG_COOLDOWN_MS, COOLDOWN_MS in *.
  simpl.
  destruct (Z.geb_spec (failureCount k1 + 1) 3); [|lia].
  repeat split; lia.
Qed.

Lemma markFailed_long_cooldown_witness :
  exists k',
    keys (markFailedTimes singleKey
            ([(1700000000000, 1700000000001); (1700000070000, 1700000070001)]
             ++ [(1700000140000, 1700000140002)])) !! O = Some k'
    /\ failureCount k' = 3
    /\ cooldownUntil k' = 1700000140002 + LONG_COOLDOWN_MS
    /\ cooldownUntil k' - 1700000140002 = 300000
    /\ cooldownUntil k' <> 1700000140002 + COOLDOWN_MS.
Proof.
  apply (markFailed_long_cooldown singleKey (freshKey "key-alpha-0001")
           [(1700000000000, 1700000000001); (1700000070000, 1700000070001)]
           1700000140000 1700000140002).
  - reflexivity.
  - reflexivity.
  - vm_compute. discriminate.
Defined.

(** *** Rotation *)

Lemma score_formula now k :
  (score (N := exactNumbers) now k == scoreFormula now k)%Q.
Proof.
  unfold score, scoreFormula. rewrite Z.gtb_ltb.
  cbn [number fromZ plus minus times divide exactNumbers].
  change (inject_Z 0) with 0%Q. change (inject_Z 1000) with 1000%Q.
  change (inject_Z 100) with 100%Q.
  destruct (now <? cooldownUntil k); ring.
Qed.

(** Exact arithmetic is ordered as [NumbersOrdered] asks. *)
Lemma exactNumbers_ordered : NumbersOrdered exactNumbers.
Proof.
  assert (Hgt : forall x y : Q, negb (Qle_bool x y) = true <-> (y < x)%Q).
  { intros x y. rewrite negb_true_iff, <- not_true_iff_false, Qle_bool_iff.
    split; [apply Qnot_le_lt|apply Qlt_not_le]. }
  assert (Hle : forall x y : Q, negb (Qle_bool x y) = false <-> (x <= y)%Q).
  { intros x y. rewrite negb_false_iff. apply Qle_bool_iff. }
  constructor; simpl.
  - intros x. apply Hle. apply Qle_refl.
  - intros x y z Hxy Hyz. apply Hgt in Hxy, Hyz. apply Hgt.
    eapply Qlt_trans; eassumption.
  - intros x y z Hxy Hyz. apply Hle in Hxy, Hyz. apply Hle.
    eapply Qle_trans; eassumption.
Qed.

Section Ordered.
Context {N : Numbers} {HN : NumbersOrdered N}.

Lemma greater_asym x y : greater x y = true -> greater y x = false.
Proof.
  intros H. destruct (greater y x) eqn:E; [|reflexivity].
  pose proof (greater_trans _ _ _ H E) as Hxx.
  rewrite greater_irrefl in Hxx. discriminate.
Qed.

Lemma greater_le_trans x y z :
  greater x y = true -> greater z y = false -> greater x z = true.
Proof.
  intros Hxy Hzy. destruct (greater x z) eqn:E; [reflexivity|].
  pose proof (greater_cotrans _ _ _ E Hzy) as H. congruence.
Qed.

(** What the first loop of [rotate] returns, started at index [i] on the
    keys [ks] with [best] selected so far: nothing only if nothing was
    selected and every index is the current one; otherwise either the
    earlier selection, which no candidate beats, or a candidate that beats
    the earlier selection and every candidate before it and that no
    candidate after it beats. *)
Lemma scoreLoop_spec now cur ks :
  forall i best,
    match scoreLoop now cur i ks best with
    | None =>
        best = None /\ forall (j : nat) k, ks !! j = Some k -> (i + j)%nat = cur
    | Some (ri, rs) =>
        (best = Some (ri, rs)
         /\ forall (j : nat) k, ks !! j = Some k -> (i + j)%nat <> cur ->
              greater (score now k) rs = false)
        \/ (exists (j : nat) k,
              ks !! j = Some k /\ (i + j)%nat <> cur
              /\ ri = (i + j)%nat /\ rs = score now k
              /\ (forall bi bs, best = Some (bi, bs) -> greater rs bs = true)
              /\ forall (j' : nat) k', ks !! j' = Some k' -> (i + j')%nat <> cur ->
                   greater (score now k') rs = false
                   /\ ((j' < j)%nat -> greater rs (score now k') = true))
    end.
Proof.
  induction ks as [|k ks IH]; intros i best.
  - simpl. destruct best as [[bi bs]|].
    + left. split; [reflexivity|]. intros j k H. discriminate.
    + split; [reflexivity|]. intros j k H. discriminate.
  - simpl scoreLoop. destruct (Nat.eqb_spec i cur) as [Heq|Hne].
    + (* the current key is skipped *)
      specialize (IH (S i) best).
      destruct (scoreLoop now cur (S i) ks best) as [[ri rs]|].
      * destruct IH as [[Hb Hall]|(j & kj & Hj & Hc & Hri & Hrs & Hbest & Hall)].
        -- left. split; [exact Hb|]. intros [|j] k' Hk' Hc.
           ++ lia.
           ++ apply (Hall j k' Hk'). lia.
        -- right. exists (S j), kj. split; [exact Hj|]. split; [lia|].
           split; [lia|]. split; [exact Hrs|]. split; [exact Hbest|].
           intros [|j'] k' Hk' Hc'; [lia|].
           destruct (Hall j' k' Hk' ltac:(lia)) as [Hle Hlt].
           split; [exact Hle|]. intros Hlt'. apply Hlt. lia.
      * destruct IH as [Hb Hall]. split; [exact Hb|].
        intros [|j] k' Hk'; [lia|]. specialize (Hall j k' Hk'). lia.
    + destruct (better (score now k) best) eqn:Hbetter.
      * (* the key becomes the selection *)
        specialize (IH (S i) (Some (i, score now k))).
        destruct (scoreLoop now cur (S i) ks (Some (i, score now k))) as [[ri rs]|].
        -- right.
           destruct IH as [[Hb Hall]|(j & kj & Hj & Hc & Hri & Hrs & Hbest & Hall)].
           ++ injection Hb as <- <-. exists O, k.
              split; [reflexivity|]. split; [lia|]. split; [lia|].
              split; [reflexivity|]. split.
              { intros bi bs ->. exact Hbetter. }
              intros [|j'] k' Hk' Hc'.
              { simpl in Hk'. injection Hk' as <-. split; [apply greater_irrefl|lia]. }
              split; [|lia]. apply (Hall j' k' Hk'). lia.
           ++ exists (S j), kj. split; [exact Hj|]. split; [lia|].
              split; [lia|]. split; [exact Hrs|].
              pose proof (Hbest _ _ eq_refl) as Hk.
              split.
              { intros bi bs ->. simpl in Hbetter.
                eapply greater_trans; [exact Hk|exact Hbetter]. }
              intros [|j'] k' Hk' Hc'.
              { simpl in Hk'. injection Hk' as <-.
                split; [apply greater_asym; exact Hk|intros _; exact Hk]. }
              destruct (Hall j' k' Hk' ltac:(lia)) as [Hle Hlt].
              split; [exact Hle|]. intros Hlt'. apply Hlt. lia.
        -- destruct IH as [Hb _]. discriminate.
      * (* the selection stands *)
        destruct best as [[bi bs]|]; [|discriminate].
        simpl in Hbetter.
        specialize (IH (S i) (Some (bi, bs))).
        destruct (scoreLoop now cur (S i) ks (Some (bi, bs))) as [[ri rs]|].
        -- destruct IH as [[Hb Hall]|(j & kj & Hj & Hc & Hri & Hrs & Hbest & Hall)].
           ++ left. split; [exact Hb|]. injection Hb as <- <-.
              intros [|j'] k' Hk' Hc'.
              { simpl in Hk'. injection Hk' as <-. exact Hbetter. }
              apply (Hall j' k' Hk'). lia.
           ++ right. exists (S j), kj. split; [exact Hj|]. split; [lia|].
              split; [lia|]. split; [exact Hrs|]. split; [exact Hbest|].
              pose proof (Hbest _ _ eq_refl) as Hk.
              intros [|j'] k' Hk' Hc'.
              { simpl in Hk'. injection Hk' as <-.
                assert (Hlt : greater rs (score now k) = true)
                  by (eapply greater_le_trans; [exact Hk|exact Hbetter]).
                split; [apply greater_asym; exact Hlt|intros _; exact Hlt]. }
              destruct (Hall j' k' Hk' ltac:(lia)) as [Hle Hlt].
              split; [exact Hle|]. intros Hlt'. apply Hlt. lia.
        -- destruct IH as [Hb _]. discriminate.
Qed.

End Ordered.

(** C2. On a pool of at most one credential [rotate] returns false and
    leaves the state as it is. On a pool of two or more it returns true
    after a [markFailed] on the current credential, which changes no other
    credential, and makes current the credential, among the others, with
    the highest score, the first in pool order among equals: no other
    candidate's score is greater than the winner's, and the winner's is
    greater than that of every candidate before it. The score is 1000 (0 in
    cooldown) minus 100 per failure plus the success count minus, in
    cooldown, the remaining milliseconds over 1000, in whatever arithmetic
    of numbers the comparison orders. The first loop always selects a
    candidate there; the selection falls back to the shortest-cooldown loop
    and then to [(current + 1) mod n] only when a loop selected nothing. *)
Theorem rotate_selects_best (N : Numbers) (HN : NumbersOrdered N)
    (st : State) (now tFail tCool : Z) :
  ((length (keys st) <= 1)%nat -> rotate st now tFail tCool = (false, st))
  /\ ((2 <= length (keys st))%nat ->
      (currentIndex st < length (keys st))%nat ->
      let st1 := markFailed st tFail tCool in
      exists (w : nat) kw kc,
        rotate st now tFail tCool = (true, {| keys := keys st1; currentIndex := w |})
        /\ keys st !! currentIndex st = Some kc
        /\ keys st1 !! currentIndex st = Some (failKey kc tFail tCool)
        /\ (forall j : nat, j <> currentIndex st -> keys st1 !! j = keys st !! j)
        /\ w <> currentIndex st
        /\ keys st !! w = Some kw
        /\ (forall (j : nat) kj, keys st !! j = Some kj -> j <> currentIndex st ->
              greater (score now kj) (score now kw) = false
              /\ ((j < w)%nat -> greater (score now kw) (score now kj) = true))
        /\ (forall k, (score (N := exactNumbers) now k == scoreFormula now k)%Q)
        /\ scoreLoop now (currentIndex st1) O (keys st1) None <> None
        /\ selectIndex now st1 =
             match scoreLoop now (currentIndex st1) O (keys st1) None with
             | Some (i, _) => i
             | None =>
                 match shortestLoop now (currentIndex st1) O (keys st1) None with
                 | Some (i, _) => i
                 | None => (S (currentIndex st1) mod length (keys st1))%nat
                 end
             end).
Proof.
  split.
  { intros Hle. unfold rotate.
    destruct (Nat.leb_spec (length (keys st)) 1); [reflexivity|lia]. }
  intros Hlen Hcur st1.
  destruct (lookup_lt_is_Some_2 (keys st) (currentIndex st) Hcur) as [kc Hkc].
  destruct (markFailed_current st kc tFail tCool Hkc) as [Hkc1 Hcur1].
  fold st1 in Hkc1, Hcur1.
  assert (Hother : forall j : nat, j <> currentIndex st -> keys st1 !! j = keys st !! j).
  { intros j Hj. apply markFailed_other. exact Hj. }
  (* some index differs from the current one *)
  assert (Hcand : exists (c : nat) kc', keys st1 !! c = Some kc' /\ c <> currentIndex st).
  { destruct (Nat.eq_dec (currentIndex st) O) as [H0|H0].
    - destruct (lookup_lt_is_Some_2 (keys st) 1%nat ltac:(lia)) as [k1 Hk1].
      exists 1%nat, k1. split; [|lia]. rewrite Hother by lia. exact Hk1.
    - destruct (lookup_lt_is_Some_2 (keys st) O ltac:(lia)) as [k0 Hk0].
      exists O, k0. split; [|lia]. rewrite Hother by lia. exact Hk0. }
  pose proof (scoreLoop_spec now (currentIndex st1) (keys st1) O None) as Hspec.
  unfold rotate.
  destruct (Nat.leb_spec (length (keys st)) 1); [lia|]. fold st1.
  unfold selectIndex.
  destruct (scoreLoop now (currentIndex st1) O (keys st1) None) as [[w rs]|] eqn:Hloop.
  - destruct Hspec as [[Hb _]|(j & kj & Hj & Hc & Hw & Hrs & _ & Hall)];
      [discriminate|].
    simpl in Hw, Hc. subst w. rewrite Hcur1 in Hc, Hall.
    exists j, kj, kc. split; [reflexivity|].
    split; [exact Hkc|]. split; [exact Hkc1|]. split; [exact Hother|].
    split; [exact Hc|]. split; [rewrite <- Hother by exact Hc; exact Hj|].
    split.
    { intros j' kj' Hj' Hc'. subst rs.
      apply (Hall j' kj'); [rewrite Hother by exact Hc'; exact Hj'|exact Hc']. }
    split; [apply score_formula|]. split; [discriminate|reflexivity].
  - exfalso. destruct Hspec as [_ Hall].
    destruct Hcand as (c & kc' & Hc & Hne).
    specialize (Hall c kc' Hc). simpl in Hall. congruence.
Qed.

Lemma rotate_selects_best_witness :
  rotate (N := exactNumbers) singleKey 1700000000000 1700000000001 1700000000002
    = (false, singleKey)
  /\ exists (w : nat) kw,
       snd (rotate (N := exactNumbers) samplePool
              1700000000000 1700000000001 1700000000002)
       = {| keys := keys (markFailed samplePool 1700000000001 1700000000002);
            currentIndex := w |}
       /\ keys samplePool !! w = Some kw
       /\ forall (j : nat) kj, keys samplePool !! j = Some kj -> j <> O ->
            greater (score (N := exactNumbers) 1700000000000 kj)
                    (score (N := exactNumbers) 1700000000000 kw) = false.
Proof.
  split.
  - apply (proj1 (rotate_selects_best exactNumbers exactNumbers_ordered singleKey
                    1700000000000 1700000000001 1700000000002)).
    vm_compute. lia.
  - destruct (proj2 (rotate_selects_best exactNumbers exactNumbers_ordered samplePool
                       1700000000000 1700000000001 1700000000002))
      as (w & kw & kc & H1 & _ & _ & _ & _ & H6 & H7 & _).
    + vm_compute. lia.
    + vm_compute. lia.
    + exists w, kw. rewrite H1. split; [reflexivity|]. split; [exact H6|].
      intros j kj Hj Hne. apply (H7 j kj Hj Hne).
Defined.

(** On the sample pool the third key, healthy with one failure, is chosen
    over the second, which is cooling down. *)
Example rotate_sample :
  let r := rotate (N := exactNumbers) samplePool
             1700000000000 1700000000001 1700000000002 in
  fst r = true /\ currentIndex (snd r) = 2%nat.
Proof. vm_compute. split; reflexivity. Qed.

End NeuralKeyManagerFacts.

(** ** Bounded arrays and the activity log *)
Module ActivityLoggerFacts.
Import ActivityLogger.

(** A bounded push on a list within its bound keeps the last [cap] of the
    elements. *)
Lemma pushBounded_skipn {A} (cap : nat) (xs : list A) (x : A) :
  JSArray.pushBounded cap (skipn (length xs - cap) xs) x
  = skipn (length (xs ++ [x]) - cap) (xs ++ [x]).
Proof.
  unfold JSArray.pushBounded.
  assert (Happ : skipn (length xs - cap) xs ++ [x] = skipn (length xs - cap) (xs ++ [x])).
  { rewrite skipn_app. replace (length xs - cap - length xs)%nat with O by lia.
    reflexivity. }
  rewrite Happ, length_skipn, !length_app. simpl length.
  destruct (Nat.ltb_spec cap (length xs + 1 - (length xs - cap))) as [Hlt|Hge].
  - replace (length xs + 1 - cap)%nat with (S (length xs - cap)) by lia.
    rewrite <- (skipn_skipn 1 (length xs - cap)). reflexivity.
  - replace (length xs + 1 - cap)%nat with O by lia.
    replace (length xs - cap)%nat with O by lia. reflexivity.
Qed.

Lemma fold_pushBounded {A} (cap : nat) (xs : list A) :
  fold_left (JSArray.pushBounded cap) xs [] = skipn (length xs - cap) xs.
Proof.
  induction xs as [|x xs IH] using rev_ind; [reflexivity|].
  rewrite fold_left_app. simpl. rewrite IH. apply pushBounded_skipn.
Qed.

Lemma logAll_logs st rs :
  logs (logAll st rs)
  = fold_left (JSArray.pushBounded maxLogs) (map newEntry rs) (logs st).
Proof.
  revert st. induction rs as [|r rs IH]; intros st; [reflexivity|].
  unfold logAll in *. simpl. rewrite IH. reflexivity.
Qed.

(** X1. After any run of [log] calls on a new logger, the log holds the
    entries of the last 1000 calls, oldest first, and never more than
    1000. *)
Theorem log_keeps_last_entries (rs : list LogRequest) :
  logs (logAll init rs) = skipn (length rs - maxLogs) (map newEntry rs)
  /\ (length (logs (logAll init rs)) <= maxLogs)%nat
  /\ length (logs (logAll init rs)) = Nat.min (length rs) maxLogs.
Proof.
  assert (H : logs (logAll init rs) = skipn (length rs - maxLogs) (map newEntry rs)).
  { rewrite logAll_logs. simpl. rewrite fold_pushBounded, length_map. reflexivity. }
  rewrite H, length_skipn, length_map. repeat split; lia.
Qed.

Lemma sliceFrom_last {A} (c : Z) (l : list A) :
  0 < c -> JSArray.sliceFrom (- c) l = skipn (length l - Z.to_nat c) l.
Proof.
  intros Hc. unfold JSArray.sliceFrom.
  destruct (Z.ltb_spec (- c) 0); [|lia]. f_equal. lia.
Qed.

(** X2. [getRecent(count)] with a positive count returns the last [count]
    entries (all of them when there are fewer); without a count, the last
    20; with count 0 it returns the whole log, not an empty list; and with
    a negative count it drops that many of the oldest entries. *)
Theorem getRecent_slices (st : State) :
  (forall c, 0 < c ->
     getRecent st (Some c) = skipn (length (logs st) - Z.to_nat c) (logs st)
     /\ length (getRecent st (Some c)) = Nat.min (Z.to_nat c) (length (logs st)))
  /\ getRecent st None = skipn (length (logs st) - 20) (logs st)
  /\ getRecent st (Some 0) = logs st
  /\ (forall c, c < 0 -> getRecent st (Some c) = skipn (Z.to_nat (- c)) (logs st)).
Proof.
  split; [|split; [|split]].
  - intros c Hc. unfold getRecent. simpl default.
    rewrite (sliceFrom_last c _ Hc). split; [reflexivity|].
    rewrite length_skipn. lia.
  - unfold getRecent. simpl default. rewrite sliceFrom_last by lia. reflexivity.
  - unfold getRecent, JSArray.sliceFrom. simpl default. simpl Z.opp. simpl Z.ltb.
    cbv iota. rewrite Z.min_l by lia. reflexivity.
  - intros c Hc. unfold getRecent, JSArray.sliceFrom. simpl default.
    destruct (Z.ltb_spec (- c) 0); [lia|].
    destruct (Z.min_spec (- c) (Z.of_nat (length (logs st)))) as [[_ ->]|[Hle ->]];
      [reflexivity|].
    rewrite Nat2Z.id, !skipn_all2 by lia. reflexivity.
Qed.

Lemma filter_disjoint_length {A} (f g : A -> bool) (l : list A) :
  (forall x, f x = true -> g x = false) ->
  (length (List.filter f l) + length (List.filter g l) <= length l)%nat.
Proof.
  intros H. induction l as [|x l IH]; [simpl; lia|].
  simpl. destruct (f x) eqn:Hf.
  - rewrite (H x Hf). simpl. lia.
  - destruct (g x); simpl; lia.
Qed.

(** X3. The counts of [getStats] are consistent with the log and with
    [getFailures]: [total] is the number of entries, [failed] the number
    of entries [getFailures] returns, all of them failed; and successes
    and failures together never exceed the total. *)
Theorem getStats_counts (st : State) :
  total (getStats st) = Z.of_nat (length (logs st))
  /\ failed_count (getStats st) = Z.of_nat (length (getFailures st))
  /\ Forall (fun l => status l = failed) (getFailures st)
  /\ successful (getStats st) + failed_count (getStats st) <= total (getStats st)
  /\ 0 <= successful (getStats st) /\ 0 <= failed_count (getStats st).
Proof.
  unfold getStats, getFailures. simpl.
  split; [reflexivity|]. split; [reflexivity|]. split.
  { apply List.Forall_forall. intros l Hl. apply filter_In in Hl as [_ Hl].
    unfold isFailed in Hl. destruct (status l); congruence. }
  split; [|lia].
  pose proof (filter_disjoint_length isSuccess isFailed (logs st)) as H.
  assert (Hd : forall x, isSuccess x = true -> isFailed x = false).
  { intros x. unfold isSuccess, isFailed. destruct (status x); congruence. }
  specialize (H Hd). lia.
Qed.

End ActivityLoggerFacts.

(** ** Command queue: capacity, flush and clear *)
Module CommandQueueMore.
Import CommandQueue CommandQueueFacts.

Lemma insertByPriority_In item q : In item (insertByPriority item q).
Proof.
  induction q as [|x q IH]; [now left|].
  rewrite insertByPriority_cons. destruct (after item x); simpl; auto.
Qed.

(** X4. [enqueue] never lets the queue grow past its capacity; and on a
    queue below capacity it evicts nothing and calls nothing: the queue is
    the old one with the new item inserted at its priority position. *)
Theorem enqueue_within_capacity (st : State) (r : Request) :
  (length (queue st) <= maxSize)%nat ->
  (length (queue (snd (fst (enqueue st r)))) <= maxSize)%nat
  /\ ((length (queue st) < maxSize)%nat ->
      enqueue st r
      = (newItem r, set_queue st (insertByPriority (newItem r) (queue st)), [])
      /\ In (newItem r) (queue (snd (fst (enqueue st r))))
      /\ length (queue (snd (fst (enqueue st r)))) = S (length (queue st))).
Proof.
  intros Hle. rewrite enqueue_queue. unfold enqueueItem.
  split.
  - rewrite trim_firstn by (rewrite insertByPriority_length; lia).
    rewrite length_firstn. lia.
  - intros Hlt.
    assert (Ht : trim (insertByPriority (newItem r) (queue st))
                 = (insertByPriority (newItem r) (queue st), [])).
    { apply trim_within. rewrite insertByPriority_length. lia. }
    unfold enqueue. rewrite Ht. simpl.
    split; [reflexivity|]. split; [apply insertByPriority_In|].
    apply insertByPriority_length.
Qed.

Lemma enqueue_within_capacity_witness :
  (length (queue (snd (fst (enqueue (mixedQueue acceptingSender)
                              (sampleRequest high 3))))) <= maxSize)%nat
  /\ ((length (queue (mixedQueue acceptingSender)) < maxSize)%nat ->
      enqueue (mixedQueue acceptingSender) (sampleRequest high 3)
      = (newItem (sampleRequest high 3),
         set_queue (mixedQueue acceptingSender)
           (insertByPriority (newItem (sampleRequest high 3))
              (queue (mixedQueue acceptingSender))), [])
      /\ In (newItem (sampleRequest high 3))
            (queue (snd (fst (enqueue (mixedQueue acceptingSender)
                                (sampleRequest high 3)))))
      /\ length (queue (snd (fst (enqueue (mixedQueue acceptingSender)
                                    (sampleRequest high 3)))))
         = S (length (queue (mixedQueue acceptingSender)))).
Proof.
  apply (enqueue_within_capacity (mixedQueue acceptingSender) (sampleRequest high 3)).
  vm_compute. lia.
Defined.

Lemma insertByPriority_before_tail item rest t :
  after item t = true ->
  insertByPriority item (rest ++ [t]) = insertByPriority item rest ++ [t].
Proof.
  intros Ht. induction rest as [|x rest IH].
  - simpl app. rewrite insertByPriority_cons, Ht. reflexivity.
  - simpl app. rewrite !insertByPriority_cons.
    destruct (after item x); [reflexivity|]. rewrite IH. reflexivity.
Qed.

(** X5. On a full queue, a command that outranks the tail survives: the
    old tail is the item evicted and notified, and the result is the one
    evicting the tail first and inserting afterwards would give. *)
Theorem enqueue_outranking_tail (st : State) (r : Request) (t : QueuedCommand) :
  length (queue st) = maxSize ->
  last (queue st) = Some t ->
  priorityOrder (priority (newItem r)) < priorityOrder (priority t) ->
  enqueue st r = enqueue_evict_first st r
  /\ queue (snd (fst (enqueue st r)))
     = insertByPriority (newItem r) (removelast (queue st))
  /\ In (newItem r) (queue (snd (fst (enqueue st r))))
  /\ snd (enqueue st r)
     = match onError t with
       | Some cb => [CallOnError cb (ErrText overflowNotice)]
       | None => []
       end.
Proof.
  intros Hlen Hlast Hlt.
  assert (Hne : queue st <> []) by (intros E; rewrite E in Hlast; discriminate).
  destruct (nonempty_snoc _ Hne) as (t' & Hl & Hq).
  rewrite Hlast in Hl. injection Hl as <-.
  set (rest := removelast (queue st)) in *.
  assert (Hafter : after (newItem r) t = true).
  { unfold after. apply Z.gtb_lt. exact Hlt. }
  assert (Hins : insertByPriority (newItem r) (queue st)
                 = insertByPriority (newItem r) rest ++ [t]).
  { rewrite Hq. apply insertByPriority_before_tail. exact Hafter. }
  assert (Hq1 : length (insertByPriority (newItem r) (queue st)) = S maxSize).
  { rewrite insertByPriority_length, Hlen. reflexivity. }
  destruct (trim_over _ Hq1) as (removed & Hsplit & Htrim).
  rewrite Hins in Hsplit, Htrim. rewrite removelast_last in Hsplit, Htrim.
  apply app_inj_tail in Hsplit as [_ <-].
  assert (Henq : enqueue st r
                 = (newItem r, set_queue st (insertByPriority (newItem r) rest),
                    match onError t with
                    | Some cb => [CallOnError cb (ErrText overflowNotice)]
                    | None => []
                    end)).
  { unfold enqueue. rewrite Hins, Htrim. reflexivity. }
  split.
  { rewrite Henq. unfold enqueue_evict_first.
    destruct (Nat.leb_spec maxSize (length (queue st))); [|lia].
    fold rest. rewrite Hlast. reflexivity. }
  rewrite Henq. simpl. split; [reflexivity|]. split; [apply insertByPriority_In|reflexivity].
Qed.

Lemma enqueue_outranking_tail_witness :
  enqueue fullOfLow (sampleRequest high 100)
  = enqueue_evict_first fullOfLow (sampleRequest high 100)
  /\ In (newItem (sampleRequest high 100))
        (queue (snd (fst (enqueue fullOfLow (sampleRequest high 100)))))
  /\ snd (enqueue fullOfLow (sampleRequest high 100))
     = [CallOnError 99%nat (ErrText overflowNotice)].
Proof.
  destruct (enqueue_outranking_tail fullOfLow (sampleRequest high 100)
              (newItem (sampleRequest low 99)))
    as (H1 & _ & H3 & H4); try (vm_compute; reflexivity).
  split; [exact H1|]. split; [exact H3|exact H4].
Defined.

Lemma tiers_length l : length (tiers l) = length l.
Proof.
  unfold tiers. rewrite !length_app.
  induction l as [|x l IH]; [reflexivity|].
  assert (Hhas : forall p, hasPriority p x =
                           match p, priority x with
                           | critical, critical | high, high
                           | normal, normal | low, low => true
                           | _, _ => false
                           end) by reflexivity.
  assert (Hcons : forall f : QueuedCommand -> bool,
            List.filter f (x :: l) = if f x then x :: List.filter f l else List.filter f l)
    by reflexivity.
  rewrite !Hcons, !Hhas.
  destruct (priority x); simpl length; lia.
Qed.

(** X6. After [n] calls of [enqueue] on a new queue, [getStatus] reports
    [min n 100] as the size and as the pending count, which is also what
    the getter [pendingCount] returns, and nothing is executing. *)
Theorem status_after_enqueues (now : Z) (rs : list Request) :
  let st := fst (enqueueAll (init now) rs) in
  size (getStatus st) = Z.of_nat (Nat.min (length rs) maxSize)
  /\ pending (getStatus st) = size (getStatus st)
  /\ pendingCount st = pending (getStatus st)
  /\ executing_count (getStatus st) = 0.
Proof.
  intros st.
  assert (Hq : queue st = firstn maxSize (tiers (map newItem rs))).
  { apply enqueueAll_tiers. reflexivity. }
  assert (Hall : Forall (fun x => isQueued x = true) (queue st)).
  { rewrite Hq. apply Forall_take. apply tiers_queued. }
  unfold getStatus, pendingCount. simpl.
  rewrite (filter_all isQueued _ Hall).
  assert (Hex : List.filter isExecuting (queue st) = []).
  { clear Hq. induction Hall as [|x l Hx _ IH]; [reflexivity|].
    simpl. unfold isExecuting, isQueued in *.
    destruct (status x); try discriminate. exact IH. }
  rewrite Hex, Hq, length_firstn, tiers_length, length_map.
  repeat split; try reflexivity. f_equal. lia.
Qed.

(** *** Flush *)

Lemma flushItem_cases sender acc item :
  let r := flushItem sender acc item in
  (fa_sent (fst r) + fa_failed (fst r) = fa_sent acc + fa_failed acc + 1)
  /\ fa_sent acc <= fa_sent (fst r)
  /\ fa_failed acc <= fa_failed (fst r)
  /\ (status (snd r) = completed
      \/ (status (snd r) = failed /\ fa_failed (fst r) = fa_failed acc + 1)
      \/ (snd r = set_status item queued (attempts item + 1)
          /\ attempts item + 1 < maxRetries item
          /\ fa_failed (fst r) = fa_failed acc + 1)).
Proof.
  unfold flushItem.
  destruct (sender (fa_sends acc) (command item)) as [| |e];
    try destruct (Z.geb_spec (attempts item + 1) (maxRetries item));
    simpl; (split; [lia|]); (split; [lia|]); (split; [lia|]);
    first [ left; reflexivity
          | right; left; split; [reflexivity|lia]
          | right; right; split; [reflexivity|split; lia] ].
Qed.

Lemma flushLoop_account sender acc q :
  let r := flushLoop sender acc q in
  fa_sent (fst r) + fa_failed (fst r)
    = fa_sent acc + fa_failed acc + Z.of_nat (length (List.filter isQueued q))
  /\ fa_sent acc <= fa_sent (fst r)
  /\ fa_failed acc <= fa_failed (fst r)
  /\ Forall (fun x => isQueued x = true -> exists o, In o q /\ retried o x) (snd r)
  /\ Z.of_nat (length (List.filter isQueued (snd r))) <= fa_failed (fst r) - fa_failed acc.
Proof.
  revert acc. induction q as [|item q IH]; intros acc.
  - simpl. repeat split; try lia. constructor.
  - simpl flushLoop. destruct (isQueued item) eqn:Hq.
    + pose proof (flushItem_cases sender acc item) as Hi.
      destruct (flushItem sender acc item) as [acc1 item1].
      specialize (IH acc1).
      destruct (flushLoop sender acc1 q) as [acc2 q2].
      cbv zeta in *. simpl fst in *. simpl snd in *.
      destruct Hi as (Hs & Hs1 & Hf1 & Hcase).
      destruct IH as (IH1 & IH2 & IH3 & IH4 & IH5).
      simpl List.filter. rewrite Hq. simpl length.
      split; [lia|]. split; [lia|]. split; [lia|]. split.
      * constructor.
        -- intros Hq1. destruct Hcase as [Hc|[[Hc _]|(Hc & Hlt & _)]].
           ++ unfold isQueued in Hq1. rewrite Hc in Hq1. discriminate.
           ++ unfold isQueued in Hq1. rewrite Hc in Hq1. discriminate.
           ++ exists item. split; [now left|]. repeat split; assumption.
        -- eapply List.Forall_impl; [|exact IH4].
           intros x Hx Hxq. destruct (Hx Hxq) as (o & Ho & Hr).
           exists o. split; [now right|exact Hr].
      * destruct (isQueued item1) eqn:Hq1; simpl length; [|lia].
        destruct Hcase as [Hc|[[Hc _]|(Hc & Hlt & Hf)]].
        -- unfold isQueued in Hq1. rewrite Hc in Hq1. discriminate.
        -- unfold isQueued in Hq1. rewrite Hc in Hq1. discriminate.
        -- lia.
    + specialize (IH acc). destruct (flushLoop sender acc q) as [acc2 q2].
      cbv zeta in *. simpl fst in *. simpl snd in *.
      destruct IH as (IH1 & IH2 & IH3 & IH4 & IH5).
      simpl List.filter. rewrite Hq.
      split; [lia|]. split; [lia|]. split; [lia|]. split; [|exact IH5].
      constructor.
      * intros Hq'. congruence.
      * eapply List.Forall_impl; [|exact IH4].
        intros x Hx Hxq. destruct (Hx Hxq) as (o & Ho & Hr).
        exists o. split; [now right|exact Hr].
Qed.

(** X7. A flush that runs (sender registered, none in progress) tries
    every pending item once: the counts [sent] and [failed] add up to the
    pending count before it. What is left in the queue are exactly items
    that were pending, whose delivery failed and whose attempts, now one
    more, are still below [maxRetries]; so no item outlives its retries,
    and the pending count afterwards is at most [failed]. *)
Theorem flush_accounts (st : State) (sender : Sender) :
  bridgeSender st = Some sender ->
  processing st = false ->
  let res := fst (flush st) in
  let st' := snd (flush st) in
  fr_sent res + fr_failed res = pendingCount st
  /\ 0 <= fr_sent res /\ 0 <= fr_failed res
  /\ length (fr_attempted res) = length (List.filter isQueued (queue st))
  /\ Forall (fun x => exists o, In o (queue st) /\ retried o x) (queue st')
  /\ Forall (fun x => status x = queued /\ attempts x < maxRetries x) (queue st')
  /\ pendingCount st' <= fr_failed res
  /\ processing st' = false.
Proof.
  intros Hs Hp res st'.
  pose proof (flush_attempted st sender Hs Hp) as Hatt.
  pose proof (flushLoop_account sender
    {| fa_sends := O; fa_sent := 0; fa_failed := 0;
       fa_attempted := []; fa_events := [] |} (queue st)) as H.
  unfold res, st', flush in *. rewrite Hs, Hp in *.
  destruct (flushLoop sender _ (queue st)) as [acc q].
  cbv zeta in H. simpl in *.
  destruct H as (H1 & H2 & H3 & H4 & H5).
  unfold pendingCount. simpl.
  assert (Hret : Forall (fun x => exists o, In o (queue st) /\ retried o x)
                   (List.filter isQueued q)).
  { apply List.Forall_forall. intros x Hx. apply filter_In in Hx as [Hx Hxq].
    rewrite List.Forall_forall in H4. apply (H4 x Hx Hxq). }
  split; [lia|]. split; [lia|]. split; [lia|].
  split; [rewrite Hatt; reflexivity|].
  split; [exact Hret|]. split.
  { eapply List.Forall_impl; [|exact Hret].
    intros x (o & _ & _ & -> & Hlt). simpl. split; [reflexivity|exact Hlt]. }
  split; [|exact Hp].
  assert (Hff : List.filter isQueued (List.filter isQueued q) = List.filter isQueued q).
  { apply filter_all. apply List.Forall_forall. intros x Hx.
    apply filter_In in Hx as [_ Hx]. exact Hx. }
  rewrite Hff. lia.
Qed.

Lemma flush_accounts_witness :
  let res := fst (flush (mixedQueue refusingSender)) in
  let st' := snd (flush (mixedQueue refusingSender)) in
  fr_sent res + fr_failed res = 3
  /\ Forall (fun x => status x = queued /\ attempts x < maxRetries x) (queue st')
  /\ map attempts (queue st') = [1; 1; 1].
Proof.
  destruct (flush_accounts (mixedQueue refusingSender) refusingSender)
    as (H1 & _ & _ & _ & _ & H6 & _); try reflexivity.
  split; [exact H1|]. split; [exact H6|]. vm_compute. reflexivity.
Defined.

Lemma flushLoop_accepting sender acc q :
  (forall n c, sender n c = SendTrue) ->
  let r := flushLoop sender acc q in
  fa_failed (fst r) = fa_failed acc
  /\ fa_events (fst r) = fa_events acc
  /\ fa_sent (fst r) = fa_sent acc + Z.of_nat (length (List.filter isQueued q))
  /\ List.filter isQueued (snd r) = [].
Proof.
  intros Hall. revert acc. induction q as [|item q IH]; intros acc.
  - simpl. repeat split; lia.
  - simpl flushLoop. destruct (isQueued item) eqn:Hq.
    + unfold flushItem. rewrite Hall.
      match goal with |- context [flushLoop sender ?a q] => specialize (IH a) end.
      destruct (flushLoop sender _ q) as [acc2 q2].
      cbv zeta in *. simpl in *. destruct IH as (I1 & I2 & I3 & I4).
      rewrite Hq. simpl length. repeat split; try assumption. lia.
    + specialize (IH acc). destruct (flushLoop sender acc q) as [acc2 q2].
      cbv zeta in *. simpl in *. destruct IH as (I1 & I2 & I3 & I4).
      rewrite !Hq. repeat split; assumption.
Qed.

(** X8. When the sender accepts every command, a flush delivers all
    pending items: [sent] is the pending count, [failed] is 0, no callback
    is made and the queue is left empty. *)
Theorem flush_delivers_all (st : State) (sender : Sender) :
  bridgeSender st = Some sender ->
  processing st = false ->
  (forall n c, sender n c = SendTrue) ->
  flush st
  = ({| fr_sent := pendingCount st; fr_failed := 0;
        fr_attempted := List.filter isQueued (queue st); fr_events := [] |},
     set_queue st []).
Proof.
  intros Hs Hp Hall.
  pose proof (flush_attempted st sender Hs Hp) as Hatt.
  pose proof (flushLoop_accepting sender
    {| fa_sends := O; fa_sent := 0; fa_failed := 0;
       fa_attempted := []; fa_events := [] |} (queue st) Hall) as H.
  unfold flush in *. rewrite Hs, Hp in *.
  destruct (flushLoop sender _ (queue st)) as [acc q].
  cbv zeta in H. simpl in *. destruct H as (H1 & H2 & H3 & H4).
  rewrite H1, H2, H3, H4, Hatt. reflexivity.
Qed.

Lemma flush_delivers_all_witness :
  flush (mixedQueue acceptingSender)
  = ({| fr_sent := pendingCount (mixedQueue acceptingSender); fr_failed := 0;
        fr_attempted := List.filter isQueued (queue (mixedQueue acceptingSender));
        fr_events := [] |},
     set_queue (mixedQueue acceptingSender) []).
Proof.
  apply (flush_delivers_all (mixedQueue acceptingSender) acceptingSender);
    reflexivity.
Defined.

End CommandQueueMore.

(** ** Validation and confirmation *)
Module CommandValidatorMore.
Import CommandValidator CommandValidatorFacts.

Lemma existsb_find {A} (f : A -> bool) (l : list A) :
  existsb f l = match List.find f l with Some _ => true | None => false end.
Proof.
  induction l as [|x l IH]; [reflexivity|].
  simpl. destruct (f x); [reflexivity|exact IH].
Qed.

(** X9. For a command whose fields are strings or absent, the [dangerous]
    flag of [validate] is what [requiresConfirmation] answers for the same
    action, target and payload: the two checks never disagree. In
    particular a command [validate] rejects for a blocked pattern always
    requires confirmation, and one rejected for its empty action never
    does. *)
Theorem dangerous_iff_requiresConfirmation (command : Command) (a t p : string) :
  stringField command "action" a ->
  stringField command "target" t ->
  stringField command "payload" p ->
  exists r,
    validate command = Some r
    /\ dangerous r = requiresConfirmation a (Some t) (Some p)
    /\ (valid r = false -> dangerous r = false -> a = EmptyString).
Proof.
  intros Ha Ht Hp. unfold validate.
  rewrite (lowerField_string _ _ _ Ha), (lowerField_string _ _ _ Ht),
          (lowerField_string _ _ _ Hp).
  rewrite <- toLowerCase_joined.
  assert (Hor : forall s, JSString.orElse (Some s) EmptyString = s).
  { intros [|c s]; reflexivity. }
  assert (Hrc : requiresConfirmation a (Some t) (Some p)
                = has DANGEROUS_ACTIONS (JSString.toLowerCase a)
                  || match firstBlocked (JSString.toLowerCase (joined a t p)) with
                     | Some _ => true
                     | None => false
                     end).
  { unfold requiresConfirmation. rewrite !Hor. fold (joined a t p).
    rewrite existsb_find. fold (firstBlocked (JSString.toLowerCase (joined a t p))).
    destruct (has DANGEROUS_ACTIONS (JSString.toLowerCase a)); reflexivity. }
  rewrite Hrc.
  destruct (firstBlocked (JSString.toLowerCase (joined a t p))) as [blocked|] eqn:Hb.
  - eexists. split; [reflexivity|]. simpl.
    split; [rewrite orb_true_r; reflexivity|]. intros _ H. discriminate.
  - rewrite truthy_toLowerCase, orb_false_r.
    destruct (JSString.truthy a) eqn:Htr; simpl.
    + eexists. split; [reflexivity|]. simpl. split; [reflexivity|].
      intros H. discriminate.
    + eexists. split; [reflexivity|]. simpl.
      destruct a; [|discriminate]. split; [reflexivity|]. reflexivity.
Qed.

Lemma dangerous_iff_requiresConfirmation_witness :
  exists r,
    validate shoutedDelete = Some r
    /\ dangerous r
       = requiresConfirmation "Shell_Execute" (Some EmptyString)
           (Some "RM -RF / --no-preserve-root")
    /\ (valid r = false -> dangerous r = false -> "Shell_Execute" = EmptyString).
Proof.
  apply (dangerous_iff_requiresConfirmation shoutedDelete "Shell_Execute" EmptyString
           "RM -RF / --no-preserve-root").
  - right. vm_compute. reflexivity.
  - left. split; vm_compute; reflexivity.
  - right. vm_compute. reflexivity.
Defined.

End CommandValidatorMore.

(** ** Bridge authentication: construction and re-wrapping *)
Module BridgeAuthenticatorMore.
Import BridgeAuthenticator BridgeAuthenticatorFacts.

(** X10. The constructor raises exactly when neither the argument nor the
    environment gives a non-empty token; otherwise the token is the
    argument when it is given and not empty, and the environment's token
    if not. *)
Theorem construct_token_source (tok envToken : option string) :
  (construct tok envToken = None <-> given tok = None /\ given envToken = None)
  /\ (forall s, given tok = Some s -> construct tok envToken = Some {| token := s |})
  /\ (forall s, given tok = None -> given envToken = Some s ->
        construct tok envToken = Some {| token := s |}).
Proof.
  unfold construct, given.
  destruct tok as [[|c t]|], envToken as [[|c' t']|]; simpl;
    (split; [split; [intros H; try discriminate H; split; reflexivity
                    |intros [H1 H2]; try discriminate H1; try discriminate H2; reflexivity]
            |split; intros s H; try discriminate H;
             try (injection H as <-; reflexivity);
             intros H'; try discriminate H'; injection H' as <-; reflexivity]).
Qed.

(** X11. Wrapping an already wrapped command replaces the authentication
    fields and nothing else: the result is the same as wrapping the
    original command with the second token, clock reading and nonce. *)
Theorem wrapCommand_rewrap (st st' : State) (command : Command) (now now' : Z)
    (random random' : nat -> Byte.byte) :
  wrapCommand st' (wrapCommand st command now random) now' random'
  = wrapCommand st' command now' random'.
Proof.
  unfold wrapCommand. apply map_eq. intros k.
  destruct (decide (k = "nonce")) as [->|Hn];
    [rewrite !lookup_insert_eq; reflexivity|].
  rewrite !(lookup_insert_ne _ "nonce" k) by congruence.
  destruct (decide (k = "timestamp")) as [->|Ht];
    [rewrite !lookup_insert_eq; reflexivity|].
  rewrite !(lookup_insert_ne _ "timestamp" k) by congruence.
  destruct (decide (k = "auth_token")) as [->|Ha];
    [rewrite !lookup_insert_eq; reflexivity|].
  rewrite !(lookup_insert_ne _ "auth_token" k) by congruence.
  rewrite !(lookup_insert_ne _ "nonce" k) by congruence.
  rewrite !(lookup_insert_ne _ "timestamp" k) by congruence.
  rewrite !(lookup_insert_ne _ "auth_token" k) by congruence.
  reflexivity.
Qed.

Lemma hexByte_chars b : allChars isHexChar (hexByte b) = true.
Proof. destruct b; reflexivity. Qed.

Lemma allChars_app f s1 s2 :
  allChars f (s1 +:+ s2) = allChars f s1 && allChars f s2.
Proof.
  induction s1 as [|c s1 IH]; [reflexivity|].
  simpl. rewrite IH, andb_assoc. reflexivity.
Qed.

(** X12. Whatever the random source returns, the nonce consists of
    lower-case hexadecimal digits only, and decoding its first two
    characters gives back the first random byte. *)
Theorem generateNonce_hex (random : nat -> Byte.byte) :
  allChars isHexChar (generateNonce random) = true
  /\ unhexByte (generateNonce random) = Some (random O).
Proof.
  rewrite generateNonce_bytes. split.
  - induction (map random (seq 0 16)) as [|b bs IH]; [reflexivity|].
    change (join (map hexByte (b :: bs))) with (hexByte b +:+ join (map hexByte bs)).
    rewrite allChars_app, hexByte_chars, IH. reflexivity.
  - change (map random (seq 0 16)) with (random O :: map random (seq 1 15)).
    change (join (map hexByte (random O :: map random (seq 1 15))))
      with (hexByte (random O) +:+ join (map hexByte (map random (seq 1 15)))).
    apply unhexByte_hexByte.
Qed.

End BridgeAuthenticatorMore.

(** ** System monitor: history, soundness of alerts, added rules *)
Module SystemMonitorMore.
Import SystemMonitor SystemMonitorFacts.

Lemma processSnapshot_stores st snapshot now :
  history (fst (processSnapshot st snapshot now))
    = JSArray.pushBounded maxHistory (history st) snapshot
  /\ lastSnapshot (fst (processSnapshot st snapshot now)) = Some snapshot
  /\ cache (fst (processSnapshot st snapshot now)) = ∅
  /\ alertCallback (fst (processSnapshot st snapshot now)) = alertCallback st.
Proof.
  unfold processSnapshot, checkAlerts. simpl.
  destruct (alertCallback st) as [cb|] eqn:Hcb; simpl.
  - destruct (checkRules cb snapshot now O (alertRules st)) as [rules evs].
    simpl. repeat split; reflexivity.
  - repeat split; reflexivity.
Qed.

Lemma processAll_cons st snapshot now rest :
  fst (processAll st ((snapshot, now) :: rest))
  = fst (processAll (fst (processSnapshot st snapshot now)) rest).
Proof.
  simpl. destruct (processSnapshot st snapshot now) as [st1 evs].
  simpl. destruct (processAll st1 rest). reflexivity.
Qed.

Lemma processAll_history st ss :
  history (fst (processAll st ss))
  = fold_left (JSArray.pushBounded maxHistory) (map fst ss) (history st).
Proof.
  revert st. induction ss as [|[s now] ss IH]; intros st; [reflexivity|].
  rewrite processAll_cons, IH.
  destruct (processSnapshot_stores st s now) as [-> _]. reflexivity.
Qed.

Lemma processAll_last st ss :
  lastSnapshot (fst (processAll st ss))
  = match last (map fst ss) with
    | Some s => Some s
    | None => lastSnapshot st
    end.
Proof.
  revert st. induction ss as [|[s now] ss IH]; intros st; [reflexivity|].
  rewrite processAll_cons, IH.
  destruct (processSnapshot_stores st s now) as (_ & -> & _).
  simpl map. destruct (map fst ss) as [|s' l]; [reflexivity|].
  change (last (s :: s' :: l)) with (last (s' :: l)).
  destruct (last (s' :: l)) eqn:E; [reflexivity|].
  apply last_None in E. discriminate.
Qed.

Lemma sliceFrom_all {A} (n : nat) (l : list A) :
  (length l <= n)%nat -> (0 < n)%nat ->
  JSArray.sliceFrom (- Z.of_nat n) l = l.
Proof.
  intros Hle Hn. unfold JSArray.sliceFrom.
  destruct (Z.ltb_spec (- Z.of_nat n) 0); [|lia].
  replace (Z.to_nat (Z.max (Z.of_nat (length l) + - Z.of_nat n) 0)) with O by lia.
  reflexivity.
Qed.

(** X13. After any run of [processSnapshot] calls on a new monitor, the
    history holds the last 120 snapshots, oldest first, and never more;
    the latest snapshot is the last one received; and [getHistory] without
    a count returns the metric of every snapshot in the history, a missing
    battery level read as 0. *)
Theorem history_keeps_last_snapshots (ss : list (SystemSnapshot * Z)) :
  let st := fst (processAll init ss) in
  history st = skipn (length ss - maxHistory) (map fst ss)
  /\ (length (history st) <= maxHistory)%nat
  /\ lastSnapshot st = last (map fst ss)
  /\ getHistory st cpu None = map cpu_percent (history st)
  /\ getHistory st battery (Some 0)
     = map (fun s => default 0%Q (battery_percent s)) (history st)
  /\ (forall m c, 0 < c ->
        length (getHistory st m (Some c)) = Nat.min (Z.to_nat c) (length (history st))).
Proof.
  intros st.
  assert (H : history st = skipn (length ss - maxHistory) (map fst ss)).
  { unfold st. rewrite processAll_history. simpl history.
    rewrite ActivityLoggerFacts.fold_pushBounded, length_map. reflexivity. }
  assert (Hlen : (length (history st) <= maxHistory)%nat).
  { rewrite H, length_skipn, length_map. lia. }
  split; [exact H|]. split; [exact Hlen|]. split.
  { unfold st. rewrite processAll_last. simpl.
    destruct (last (map fst ss)); reflexivity. }
  split.
  { unfold getHistory. rewrite sliceFrom_all by (unfold maxHistory in *; lia).
    reflexivity. }
  split.
  { unfold getHistory. simpl Z.eqb. cbv iota.
    rewrite sliceFrom_all by (unfold maxHistory in *; lia). reflexivity. }
  intros m c Hc. unfold getHistory.
  destruct (Z.eqb_spec c 0); [lia|].
  rewrite length_map, ActivityLoggerFacts.sliceFrom_last by exact Hc.
  rewrite length_skipn. lia.
Qed.

(** The events of one rule are at its index and sound. *)
Lemma checkRule_sound cb snapshot now i rule :
  (snd (checkRule cb snapshot now i rule) = []
   /\ fst (checkRule cb snapshot now i rule) = rule)
  \/ (exists v,
        enabled rule = true
        /\ cooldownMs rule <= now - lastTriggered rule
        /\ metricValue snapshot (metric rule) = Some v
        /\ passes rule v
        /\ checkRule cb snapshot now i rule
           = (set_lastTriggered rule now, [fired cb i rule now v])).
Proof.
  unfold checkRule.
  destruct (enabled rule) eqn:He; simpl; [|left; split; reflexivity].
  destruct (Z.ltb_spec (now - lastTriggered rule) (cooldownMs rule));
    [left; split; reflexivity|].
  destruct (metricValue snapshot (metric rule)) as [v|]; [|left; split; reflexivity].
  destruct (triggered rule v) eqn:Ht; [|left; split; reflexivity].
  right. exists v. apply triggered_passes in Ht.
  split; [reflexivity|]. split; [lia|]. split; [reflexivity|].
  split; [exact Ht|reflexivity].
Qed.

Lemma justified_shift cb snapshot now rule rules i0 e :
  justified cb snapshot now rules (S i0) e ->
  justified cb snapshot now (rule :: rules) i0 e.
Proof.
  intros (k & r & v & Hi & Hk & H).
  exists (S k), r, v. replace (i0 + S k)%nat with (S i0 + k)%nat by lia.
  split; [exact Hi|]. split; [exact Hk|exact H].
Qed.

Lemma checkRules_sound cb snapshot now rules :
  forall i0,
    Forall (justified cb snapshot now rules i0)
           (snd (checkRules cb snapshot now i0 rules))
    /\ map ev_index (snd (checkRules cb snapshot now i0 rules))
       `sublist_of` seq i0 (length rules).
Proof.
  induction rules as [|rule rules IH]; intros i0.
  - simpl. split; constructor.
  - simpl checkRules. destruct (IH (S i0)) as [IH1 IH2].
    destruct (checkRule_sound cb snapshot now i0 rule)
      as [[He Hr]|(v & Hen & Hc & Hv & Hp & Heq)].
    + destruct (checkRule cb snapshot now i0 rule) as [r' evs]. simpl in He. subst evs.
      destruct (checkRules cb snapshot now (S i0) rules) as [rest evs'].
      simpl in *. split.
      * eapply List.Forall_impl; [|exact IH1]. intros e. apply justified_shift.
      * apply sublist_cons. exact IH2.
    + rewrite Heq.
      destruct (checkRules cb snapshot now (S i0) rules) as [rest evs'].
      simpl in *. split.
      * constructor.
        -- exists O, rule, v. rewrite Nat.add_0_r.
           repeat split; try assumption; reflexivity.
        -- eapply List.Forall_impl; [|exact IH1]. intros e. apply justified_shift.
      * apply sublist_skip. exact IH2.
Qed.

(** X14. Every call of the alert callback that [processSnapshot] makes is
    justified: it is for a rule of the list that is enabled, whose
    cooldown has elapsed, and whose metric in the snapshot is present and
    past the threshold; and the calls come in rule order, at most one per
    rule. Without a registered callback there is none. *)
Theorem alerts_are_justified (st : State) (snapshot : SystemSnapshot) (now : Z) :
  let evs := snd (processSnapshot st snapshot now) in
  (forall e, In e evs ->
     exists cb, alertCallback st = Some cb
                /\ justified cb snapshot now (alertRules st) O e)
  /\ map ev_index evs `sublist_of` seq 0 (length (alertRules st))
  /\ NoDup (map ev_index evs)
  /\ (length evs <= length (alertRules st))%nat
  /\ (alertCallback st = None -> evs = []).
Proof.
  intros evs.
  assert (Hcases :
    (alertCallback st = None /\ evs = [])
    \/ (exists cb, alertCallback st = Some cb
                   /\ evs = snd (checkRules cb snapshot now O (alertRules st)))).
  { unfold evs, processSnapshot, checkAlerts. simpl.
    destruct (alertCallback st) as [cb|]; [right|left; split; reflexivity].
    exists cb. split; [reflexivity|].
    destruct (checkRules cb snapshot now O (alertRules st)); reflexivity. }
  assert (Hsub : map ev_index evs `sublist_of` seq 0 (length (alertRules st))).
  { destruct Hcases as [[_ ->]|(cb & _ & ->)].
    - apply sublist_nil_l.
    - apply checkRules_sound. }
  split.
  { intros e He. destruct Hcases as [[_ Hnil]|(cb & Hcb & Hevs)].
    - rewrite Hnil in He. destruct He.
    - exists cb. split; [exact Hcb|].
      destruct (checkRules_sound cb snapshot now (alertRules st) O) as [Hall _].
      rewrite List.Forall_forall in Hall. apply Hall. rewrite <- Hevs. exact He. }
  split; [exact Hsub|]. split.
  { eapply sublist_NoDup; [apply NoDup_seq|exact Hsub]. }
  split.
  { apply sublist_length in Hsub. rewrite length_map, length_seq in Hsub. exact Hsub. }
  intros Hnone. destruct Hcases as [[_ H]|(cb & Hcb & _)]; [exact H|congruence].
Qed.

Lemma checkRules_length cb snapshot now rules :
  forall i0, length (fst (checkRules cb snapshot now i0 rules)) = length rules.
Proof.
  induction rules as [|rule rules IH]; intros i0; [reflexivity|].
  simpl. destruct (checkRule cb snapshot now i0 rule).
  specialize (IH (S i0)). destruct (checkRules cb snapshot now (S i0) rules).
  simpl in *. lia.
Qed.

Lemma sameRule_refl rule : sameRule rule rule.
Proof. unfold sameRule. repeat split. Qed.

(** X15. [processSnapshot] changes nothing of a rule but [lastTriggered]:
    the rules keep their number, positions, ids, thresholds, cooldowns and
    enabled flags. The [lastTriggered] of a rule either stays or becomes
    the time of the snapshot, and for a rule whose cooldown is not
    negative it never moves back. *)
Theorem rules_only_advance (st : State) (snapshot : SystemSnapshot) (now : Z) :
  let st' := fst (processSnapshot st snapshot now) in
  length (alertRules st') = length (alertRules st)
  /\ forall (i : nat) rule, alertRules st !! i = Some rule ->
       exists rule',
         alertRules st' !! i = Some rule'
         /\ sameRule rule rule'
         /\ (lastTriggered rule' = lastTriggered rule \/ lastTriggered rule' = now)
         /\ (0 <= cooldownMs rule -> lastTriggered rule <= lastTriggered rule').
Proof.
  intros st'.
  destruct (alertCallback st) as [cb|] eqn:Hcb.
  - split.
    { unfold st', processSnapshot, checkAlerts. simpl. rewrite Hcb.
      pose proof (checkRules_length cb snapshot now (alertRules st) O) as H.
      destruct (checkRules cb snapshot now O (alertRules st)). exact H. }
    intros i rule Hi.
    destruct (processSnapshot_at st cb snapshot now i rule Hcb Hi) as (_ & Hr & _).
    fold st' in Hr. eexists. split; [exact Hr|].
    destruct (checkRule_sound cb snapshot now i rule)
      as [[_ ->]|(v & _ & Hc & _ & _ & ->)].
    + split; [apply sameRule_refl|]. split; [left; reflexivity|]. intros _. lia.
    + simpl. split; [unfold sameRule; repeat split|].
      split; [right; reflexivity|]. intros H0. lia.
  - assert (Hst : alertRules st' = alertRules st).
    { unfold st', processSnapshot, checkAlerts. simpl. rewrite Hcb. reflexivity. }
    rewrite Hst. split; [reflexivity|].
    intros i rule Hi. exists rule. split; [exact Hi|].
    split; [apply sameRule_refl|]. split; [left; reflexivity|]. intros _. lia.
Qed.

(** X16. [addAlert] appends the rule, with [lastTriggered] 0 and a fresh
    id, after the existing rules, which keep their positions; with a
    callback registered the new rule then fires on the next snapshot whose
    metric passes its threshold, once the clock is its cooldown past 0. *)
Theorem addAlert_then_fires (st : State) (cb : Callback) (rule : AlertRule)
    (t0 now : Z) (snapshot : SystemSnapshot) (v : Q) :
  alertCallback st = Some cb ->
  enabled rule = true ->
  metricValue snapshot (metric rule) = Some v ->
  passes rule v ->
  cooldownMs rule <= now ->
  let st1 := addAlert st rule t0 in
  let n := length (alertRules st) in
  (forall (i : nat) r, alertRules st !! i = Some r -> alertRules st1 !! i = Some r)
  /\ length (getAlertRules st1) = S n
  /\ exists added,
       alertRules st1 !! n = Some added
       /\ lastTriggered added = 0
       /\ rule_id added = "custom_" +:+ pretty t0
       /\ threshold added = threshold rule /\ cooldownMs added = cooldownMs rule
       /\ eventsFor n (snd (processSnapshot st1 snapshot now)) = [fired cb n added now v].
Proof.
  intros Hcb Hen Hv Hp Hc st1 n.
  set (added := {| rule_id := "custom_" +:+ pretty t0; metric := metric rule;
                   threshold := threshold rule; direction := direction rule;
                   message := message rule; cooldownMs := cooldownMs rule;
                   lastTriggered := 0; enabled := enabled rule |}).
  assert (Hrules : alertRules st1 = alertRules st ++ [added]) by reflexivity.
  assert (Hn : alertRules st1 !! n = Some added).
  { rewrite Hrules. unfold n. rewrite lookup_app_r by lia.
    rewrite Nat.sub_diag. reflexivity. }
  split.
  { intros i r Hi. rewrite Hrules. apply lookup_app_l_Some. exact Hi. }
  split.
  { unfold getAlertRules. rewrite Hrules, length_app. simpl. lia. }
  exists added. split; [exact Hn|]. split; [reflexivity|]. split; [reflexivity|].
  split; [reflexivity|]. split; [reflexivity|].
  destruct (processSnapshot_at st1 cb snapshot now n added Hcb Hn) as (_ & _ & He).
  rewrite He, (checkRule_fires cb snapshot now n added v); try assumption.
  - reflexivity.
  - simpl. lia.
Qed.

Lemma addAlert_then_fires_witness :
  let st1 := addAlert (onAlert init 7%nat) spareRule 1700000000000 in
  length (getAlertRules st1) = 5%nat
  /\ exists added,
       alertRules st1 !! 4%nat = Some added
       /\ rule_id added = "custom_1700000000000"
       /\ eventsFor 4 (snd (processSnapshot st1 (batterySnapshot 20%Q) 1700000005000))
          = [fired 7%nat 4 added 1700000005000 20%Q].
Proof.
  destruct (addAlert_then_fires (onAlert init 7%nat) 7%nat spareRule
              1700000000000 1700000005000 (batterySnapshot 20%Q) 20%Q)
    as (_ & H2 & added & H3 & _ & H5 & _ & _ & H8);
    try reflexivity; try (simpl; lia).
  split; [exact H2|]. exists added. split; [exact H3|]. split; [|exact H8].
  rewrite H5. vm_compute. reflexivity.
Defined.

End SystemMonitorMore.

(** ** Workflow engine: skipped steps, attempts, lookups *)
Module WorkflowEngineMore.
Import WorkflowEngine WorkflowEngineFacts.

Lemma runStep_skipped ex clock w s c :
  condition s = Some c ->
  evaluateCondition c (clock (reads w)) = false ->
  runStep ex clock w s
  = (Recorded {| stepId := step_id s; rec_action := action s; rec_status := skipped;
                 result := VString "Condition not met"; duration := 0 |} false,
     tick w).
Proof. intros Hc He. unfold runStep. rewrite Hc, He. reflexivity. Qed.

Lemma runSteps_all_skipped ex clock ss :
  Forall (neverMet clock) ss ->
  forall w,
    exists rs,
      fst (runSteps ex clock w ss) = Some rs
      /\ map rec_status rs = repeat skipped (length ss)
      /\ map stepId rs = map step_id ss
      /\ Forall (fun r => duration r = 0) rs
      /\ calls (snd (runSteps ex clock w ss)) = calls w
      /\ sent (snd (runSteps ex clock w ss)) = sent w.
Proof.
  induction 1 as [|s ss (c & Hc & Hnever) _ IH]; intros w.
  - exists []. simpl. repeat split. constructor.
  - rewrite runSteps_cons, (runStep_skipped ex clock w s c Hc (Hnever _)).
    simpl fst. simpl snd. cbv iota.
    destruct (IH (tick w)) as (rs & I0 & I1 & I2 & I3 & I4 & I5).
    rewrite I0. eexists. split; [reflexivity|].
    simpl. rewrite I1, I2. repeat split; try assumption.
    constructor; [reflexivity|exact I3].
Qed.

(** X17. A run of a workflow all of whose steps have a condition that is
    not met returns a result that records every step as skipped with
    duration 0, in step order, never calls the executor, and ends
    'completed'. *)
Theorem unmet_conditions_skip (e : Engine) (ex : Executor) (clock : Clock)
    (idOrName : string) (i : nat) (wf : Workflow) :
  executor e = Some ex ->
  resolve e idOrName = Some (i, wf) ->
  enabled wf = true ->
  Forall (neverMet clock) (steps wf) ->
  exists res,
    fst (fst (executeWorkflow e clock idOrName)) = Returned (Some res)
    /\ map rec_status (res_steps res) = repeat skipped (length (steps wf))
    /\ map stepId (res_steps res) = map step_id (steps wf)
    /\ Forall (fun r => duration r = 0) (res_steps res)
    /\ res_status res = completed
    /\ sent (snd (executeWorkflow e clock idOrName)) = [].
Proof.
  intros Hex Hres Hen Hall.
  rewrite (executeWorkflow_runs e ex clock idOrName i wf Hex Hres Hen).
  destruct (runSteps_all_skipped ex clock (steps wf) Hall startWorld)
    as (rs & H0 & H1 & H2 & H3 & _ & H5).
  rewrite H0. eexists. split; [reflexivity|]. simpl.
  split; [exact H1|]. split; [exact H2|]. split; [exact H3|].
  split; [|exact H5].
  destruct (overallStatus_cases rs) as (S1 & _). apply S1.
  intros r Hr. right.
  assert (Hin : In (rec_status r) (map rec_status rs)) by (apply in_map; exact Hr).
  rewrite H1 in Hin. apply repeat_spec in Hin. exact Hin.
Qed.

Lemma unmet_conditions_skip_witness :
  exists res,
    fst (fst (executeWorkflow lateEngine sampleClock "late_mode")) = Returned (Some res)
    /\ map rec_status (res_steps res) = [skipped; skipped]
    /\ res_status res = completed
    /\ sent (snd (executeWorkflow lateEngine sampleClock "late_mode")) = [].
Proof.
  assert (Hnever : Forall (neverMet sampleClock) (steps lateWorkflow)).
  { constructor; [|constructor; [|constructor]];
      (eexists; split; [reflexivity|]; intros n; vm_compute; reflexivity). }
  destruct (unmet_conditions_skip lateEngine acceptingExecutor sampleClock "late_mode"
              O lateWorkflow eq_refl eq_refl eq_refl Hnever)
    as (res & H1 & H2 & _ & _ & H5 & H6).
  exists res. split; [exact H1|]. split; [exact H2|]. split; [exact H5|exact H6].
Defined.

(** A value of the form [HH:MM] is read as its hour and its minute. *)
Lemma parseHM_clockValue hh mm :
  0 <= hh < 24 -> 0 <= mm < 60 ->
  parseHM (clockValue hh mm)
  = (JSString.Finite (inject_Z hh), JSString.Finite (inject_Z mm)).
Proof.
  intros Hh Hm.
  assert (Hall :
    forallb (fun h =>
      forallb (fun m =>
        match parseHM (clockValue (Z.of_nat h) (Z.of_nat m)) with
        | (JSString.Finite a, JSString.Finite b) =>
            (Qnum a =? Z.of_nat h) && Pos.eqb (Qden a) 1
            && (Qnum b =? Z.of_nat m) && Pos.eqb (Qden b) 1
        | _ => false
        end) (seq 0 60)) (seq 0 24) = true) by (vm_compute; reflexivity).
  rewrite forallb_forall in Hall.
  specialize (Hall (Z.to_nat hh)). rewrite forallb_forall in Hall.
  specialize (Hall ltac:(apply in_seq; lia) (Z.to_nat mm) ltac:(apply in_seq; lia)).
  rewrite !Z2Nat.id in Hall by lia.
  destruct (parseHM (clockValue hh mm)) as [[| |[a1 a2]] [| |[b1 b2]]];
    try discriminate.
  change ((a1 =? hh) && Pos.eqb a2 1 && (b1 =? mm) && Pos.eqb b2 1 = true) in Hall.
  apply andb_prop in Hall as [Hall H4]. apply andb_prop in Hall as [Hall H3].
  apply andb_prop in Hall as [H1 H2].
  apply Z.eqb_eq in H1, H3. apply Pos.eqb_eq in H2, H4. subst.
  reflexivity.
Qed.

(** X18. Whatever the executor answers, a step calls it at most
    [retries || 1] times, every time with the same command, and not at all
    when its condition is not met. A step recorded as a success made at
    least one call and one recorded as failed made them all. The step
    raises exactly when a call it makes is rejected with undefined or
    null, and that call is its last. A step whose [retries] is negative
    makes no call, is never a success and does not raise. *)
Theorem step_attempts_bounded (ex : Executor) (clock : Clock) (w : World)
    (s : WorkflowStep) :
  let out := runStep ex clock w s in
  exists n : nat,
    (n <= Z.to_nat (maxAttempts s))%nat
    /\ calls (snd out) = (calls w + n)%nat
    /\ sent (snd out) = sent w ++ repeat (step_id s, stepCommand s) n
    /\ (forall r stop, fst out = Recorded r stop ->
          (rec_status r = skipped -> n = O)
          /\ (rec_status r = success -> (1 <= n)%nat)
          /\ (rec_status r = failed -> n = Z.to_nat (maxAttempts s)))
    /\ (fst out = StepThrew
        <-> exists k, (k < n)%nat
                      /\ ex (calls w + k)%nat (stepCommand s) = Rejected ThrownNullish)
    /\ (forall k, (k < n)%nat ->
          ex (calls w + k)%nat (stepCommand s) = Rejected ThrownNullish -> n = S k)
    /\ (forall k, retries s = Some k -> k < 0 ->
          n = O /\ exists r stop, fst out = Recorded r stop /\ rec_status r <> success).
Proof.
  intros out. unfold out.
  destruct (runStep_calls ex clock w s) as (n & Hn & Hc & Hs & Hk & Hend).
  exists n. split; [exact Hn|]. split; [exact Hc|]. split; [exact Hs|].
  split.
  { intros r stop Hr. rewrite Hr in Hend.
    destruct (rec_status r); repeat split; try discriminate; intros _; apply Hend. }
  split.
  { split.
    - intros Ht. rewrite Ht in Hend. destruct Hend as [Hn1 Hex].
      exists (n - 1)%nat. split; [lia|exact Hex].
    - intros (k & Hlt & Hex). apply (Hk k Hlt Hex). }
  split.
  { intros k Hlt Hex. apply (Hk k Hlt Hex). }
  intros k Hr Hneg.
  assert (Hz : Z.to_nat (maxAttempts s) = O).
  { unfold maxAttempts. rewrite Hr. destruct (Z.eqb_spec k 0); lia. }
  assert (n = O) by lia. subst n. split; [reflexivity|].
  destruct (fst (runStep ex clock w s)) as [r stop|].
  - exists r, stop. split; [reflexivity|].
    intros Hsucc. rewrite Hsucc in Hend. lia.
  - lia.
Qed.

(** X19. [executeWorkflow] returns [null] exactly when no executor is
    set, or the id or name resolves to no workflow, or the workflow found
    is disabled; and then it has changed nothing in the engine and has not
    called the executor. *)
Theorem executeWorkflow_null (e : Engine) (clock : Clock) (idOrName : string) :
  (fst (fst (executeWorkflow e clock idOrName)) = Returned None
   <-> executor e = None
       \/ resolve e idOrName = None
       \/ exists i wf, resolve e idOrName = Some (i, wf) /\ enabled wf = false)
  /\ (fst (fst (executeWorkflow e clock idOrName)) = Returned None ->
      snd (fst (executeWorkflow e clock idOrName)) = e
      /\ sent (snd (executeWorkflow e clock idOrName)) = []
      /\ calls (snd (executeWorkflow e clock idOrName)) = O).
Proof.
  destruct (executor e) as [ex|] eqn:Hex.
  - destruct (resolve e idOrName) as [[i wf]|] eqn:Hres.
    + destruct (enabled wf) eqn:Hen.
      * rewrite (executeWorkflow_runs e ex clock idOrName i wf Hex Hres Hen).
        destruct (fst (runSteps ex clock startWorld (steps wf)));
          simpl; (split; [split|]); try discriminate;
          intros [H|[H|(i' & wf' & H & Hd)]]; try discriminate;
          injection H as <- <-; congruence.
      * unfold executeWorkflow. rewrite Hex, Hres, Hen. simpl.
        split; [split; [intros _|reflexivity]|intros _; repeat split].
        right. right. exists i, wf. split; [reflexivity|exact Hen].
    + unfold executeWorkflow. rewrite Hex, Hres. simpl.
      split; [split; [intros _; right; left; reflexivity|reflexivity]
             |intros _; repeat split].
  - unfold executeWorkflow. rewrite Hex. simpl.
    split; [split; [intros _; left; reflexivity|reflexivity]|intros _; repeat split].
Qed.

Lemma mapSet_found m k w :
  exists i, keyIndex (mapSet m k w) k = Some i
            /\ nth_error (mapSet m k w) i = Some (k, w).
Proof.
  induction m as [|[k' w'] m (i & H1 & H2)].
  - exists O. simpl. rewrite String.eqb_refl. split; reflexivity.
  - simpl. destruct (String.eqb k' k) eqn:E.
    + exists O. simpl. rewrite String.eqb_refl. split; reflexivity.
    + exists (S i). simpl. rewrite E, H1. split; [reflexivity|exact H2].
Qed.

Lemma mapGet_mapSet_other m k w k' :
  k' <> k -> mapGet (mapSet m k w) k' = mapGet m k'.
Proof.
  intros Hne. induction m as [|[k0 w0] m IH].
  - simpl. destruct (String.eqb_spec k k'); [congruence|reflexivity].
  - simpl. destruct (String.eqb_spec k0 k) as [->|Hk].
    + simpl. destruct (String.eqb_spec k k'); [congruence|reflexivity].
    + simpl. destruct (String.eqb_spec k0 k'); [reflexivity|exact IH].
Qed.

Lemma mapGet_filter m k k' :
  mapGet (List.filter (fun kw => negb (String.eqb (fst kw) k)) m) k'
  = if String.eqb k k' then None else mapGet m k'.
Proof.
  induction m as [|[k0 w0] m IH].
  - simpl. destruct (String.eqb k k'); reflexivity.
  - simpl. destruct (String.eqb_spec k0 k) as [->|Hk]; simpl.
    + rewrite IH. destruct (String.eqb_spec k k'); reflexivity.
    + rewrite IH. destruct (String.eqb_spec k0 k') as [->|Hk'].
      * destruct (String.eqb_spec k k'); [congruence|reflexivity].
      * reflexivity.
Qed.

(** X20. A workflow added with [addWorkflow] is the one its id resolves
    to, with [runCount] reset to 0 even when it replaces a workflow of the
    same id, and the workflows under other ids are untouched. After
    [removeWorkflow], which tells whether the id was present, a lookup of
    the id finds nothing and the other ids are untouched. *)
Theorem addWorkflow_resolve_remove (e : Engine) (w : Workflow) (k : string) :
  (exists i w0,
     resolve (addWorkflow e w) (wf_id w) = Some (i, w0)
     /\ runCount w0 = 0
     /\ wf_id w0 = wf_id w /\ name w0 = name w /\ steps w0 = steps w
     /\ enabled w0 = enabled w)
  /\ (forall k', k' <> wf_id w ->
        mapGet (workflows (addWorkflow e w)) k' = mapGet (workflows e) k')
  /\ (fst (removeWorkflow e k) = true <-> mapGet (workflows e) k <> None)
  /\ mapGet (workflows (snd (removeWorkflow e k))) k = None
  /\ (forall k', k' <> k ->
        mapGet (workflows (snd (removeWorkflow e k))) k' = mapGet (workflows e) k').
Proof.
  split.
  { unfold resolve, addWorkflow. simpl workflows.
    match goal with |- context [mapSet (workflows e) (wf_id w) ?x] => set (w0 := x) end.
    destruct (mapSet_found (workflows e) (wf_id w) w0) as (i & H1 & H2).
    exists i, w0. rewrite H1, H2. repeat split; reflexivity. }
  split.
  { intros k' Hk. unfold addWorkflow. simpl. apply mapGet_mapSet_other. exact Hk. }
  unfold removeWorkflow. simpl. split.
  { destruct (mapGet (workflows e) k); split; congruence. }
  split.
  { rewrite mapGet_filter, String.eqb_refl. reflexivity. }
  intros k' Hk. rewrite mapGet_filter.
  destruct (String.eqb_spec k k'); [congruence|reflexivity].
Qed.

(** X21. For a value whose two parts [Number] reads as numbers, the
    condition 'time_after' holds exactly from that hour and minute on,
    and 'time_before' is its negation whenever neither part is [NaN]:
    exactly one of the two is met at any reading of the clock. When the
    hour is [NaN] neither condition is ever met. In particular for a
    value [HH:MM], 'time_after' holds exactly from HH:MM of the day on.
    Conditions without a value or with an empty one, and the types
    'always' and 'bridge_active', are always met. *)
Theorem time_conditions_complement (v : string) (now : Instant) :
  JSString.truthy v = true ->
  let isAfter := evaluateCondition {| cond_type := time_after; cond_value := Some v |} now in
  let isBefore := evaluateCondition {| cond_type := time_before; cond_value := Some v |} now in
  (forall h m : Q,
     parseHM v = (JSString.Finite h, JSString.Finite m) ->
     isAfter = true
     <-> (h < inject_Z (hours now))%Q
         \/ ((inject_Z (hours now) == h)%Q /\ (m <= inject_Z (minutes now))%Q))
  /\ (fst (parseHM v) <> JSString.NaN -> snd (parseHM v) <> JSString.NaN ->
      isBefore = negb isAfter)
  /\ (fst (parseHM v) = JSString.NaN -> isAfter = false /\ isBefore = false)
  /\ (forall hh mm, 0 <= hh < 24 -> 0 <= mm < 60 -> v = clockValue hh mm ->
        (isAfter = true <-> hh < hours now \/ (hours now = hh /\ mm <= minutes now))
        /\ isBefore = negb isAfter)
  /\ (forall t, evaluateCondition {| cond_type := t; cond_value := None |} now = true)
  /\ (forall t, evaluateCondition {| cond_type := t; cond_value := Some EmptyString |} now
                = true)
  /\ (forall o, evaluateCondition {| cond_type := always; cond_value := o |} now = true)
  /\ (forall o, evaluateCondition {| cond_type := bridge_active; cond_value := o |} now
                = true).
Proof.
  intros Htr isAfter isBefore.
  assert (Hfin : forall h m : Q,
            parseHM v = (JSString.Finite h, JSString.Finite m) ->
            (isAfter = true
             <-> (h < inject_Z (hours now))%Q
                 \/ ((inject_Z (hours now) == h)%Q /\ (m <= inject_Z (minutes now))%Q))).
  { intros h m Hp. unfold isAfter, evaluateCondition. simpl. rewrite Htr, Hp. simpl.
    rewrite orb_true_iff, andb_true_iff, negb_true_iff.
    rewrite Qeq_bool_iff, Qle_bool_iff, <- not_true_iff_false, Qle_bool_iff.
    split; (intros [H|H]; [left|right; exact H]).
    - apply Qnot_le_lt. exact H.
    - apply Qlt_not_le. exact H. }
  assert (Hneg : fst (parseHM v) <> JSString.NaN -> snd (parseHM v) <> JSString.NaN ->
                 isBefore = negb isAfter).
  { unfold isAfter, isBefore, evaluateCondition. simpl. rewrite Htr.
    destruct (parseHM v) as [[|hn|h] [|mn|m]]; simpl; intros Hh Hm;
      try congruence.
    - destruct hn, mn; reflexivity.
    - destruct hn; reflexivity.
    - destruct mn; simpl; rewrite ?andb_true_r, ?andb_false_r, ?orb_false_r;
        destruct (Qle_bool (inject_Z (hours now)) h) eqn:E1,
                 (Qle_bool h (inject_Z (hours now))) eqn:E2,
                 (Qeq_bool (inject_Z (hours now)) h) eqn:E3; simpl; try reflexivity;
        exfalso;
        rewrite ?Qle_bool_iff in *;
        try (apply not_true_iff_false in E1; rewrite Qle_bool_iff in E1);
        try (apply not_true_iff_false in E2; rewrite Qle_bool_iff in E2);
        try (apply Qeq_bool_neq in E3);
        try (apply Qeq_bool_iff in E3);
        first [ apply E3; apply Qle_antisym; assumption
              | apply E1; rewrite E3; apply Qle_refl
              | apply E2; rewrite E3; apply Qle_refl
              | apply E1; apply Qlt_le_weak, Qnot_le_lt; assumption ].
    - destruct (Qle_bool (inject_Z (hours now)) h) eqn:E1,
               (Qle_bool h (inject_Z (hours now))) eqn:E2,
               (Qeq_bool (inject_Z (hours now)) h) eqn:E3,
               (Qle_bool m (inject_Z (minutes now))) eqn:E4; simpl; try reflexivity;
        exfalso;
        rewrite ?Qle_bool_iff in *;
        try (apply not_true_iff_false in E1; rewrite Qle_bool_iff in E1);
        try (apply not_true_iff_false in E2; rewrite Qle_bool_iff in E2);
        try (apply Qeq_bool_neq in E3);
        try (apply Qeq_bool_iff in E3);
        first [ apply E3; apply Qle_antisym; assumption
              | apply E1; rewrite E3; apply Qle_refl
              | apply E2; rewrite E3; apply Qle_refl
              | apply E1; apply Qlt_le_weak, Qnot_le_lt; assumption ]. }
  split; [exact Hfin|]. split; [exact Hneg|].
  split.
  { unfold isAfter, isBefore, evaluateCondition. simpl. rewrite Htr.
    destruct (parseHM v) as [h m]. simpl. intros ->. split; reflexivity. }
  split.
  { intros hh mm Hh Hm ->.
    pose proof (parseHM_clockValue hh mm Hh Hm) as Hp.
    split.
    - rewrite (Hfin _ _ Hp). rewrite <- Zlt_Qlt, <- Zle_Qle, inject_Z_injective.
      split; (intros [H|[H1 H2]]; [left; exact H|right; split; [congruence|exact H2]]).
    - apply Hneg; rewrite Hp; discriminate. }
  split; [intros []; reflexivity|].
  split; [intros []; reflexivity|]. split; reflexivity.
Qed.

Lemma time_conditions_complement_witness :
  (evaluateCondition {| cond_type := time_after; cond_value := Some "09:30" |}
     (sampleClock O) = true
   <-> 9 < hours (sampleClock O)
       \/ (hours (sampleClock O) = 9 /\ 30 <= minutes (sampleClock O)))
  /\ evaluateCondition {| cond_type := time_before; cond_value := Some "09:30" |}
       (sampleClock O) = false.
Proof.
  destruct (time_conditions_complement "09:30" (sampleClock O) eq_refl)
    as (_ & _ & _ & H & _).
  destruct (H 9 30) as [H1 H2]; [lia|lia|reflexivity|].
  split; [exact H1|]. rewrite H2. vm_compute. reflexivity.
Defined.

End WorkflowEngineMore.

(** ** Key manager: success, waiting, statistics, parsing *)
Module NeuralKeyManagerMore.
Import NeuralKeyManager NeuralKeyManagerFacts.

Lemma markSuccess_current st k :
  keys st !! currentIndex st = Some k ->
  keys (markSuccess st) !! currentIndex st = Some (succeedKey k)
  /\ currentIndex (markSuccess st) = currentIndex st.
Proof.
  intros Hk. unfold markSuccess. rewrite Hk. simpl. split; [|reflexivity].
  apply list_lookup_insert_eq. eapply lookup_lt_Some. exact Hk.
Qed.

Lemma markSuccess_other st (j : nat) :
  j <> currentIndex st -> keys (markSuccess st) !! j = keys st !! j.
Proof.
  intros Hj. unfold markSuccess.
  destruct (keys st !! currentIndex st); [|reflexivity].
  simpl. apply list_lookup_insert_ne. congruence.
Qed.

(** X22. [markSuccess] adds one to the success count of the current key,
    clears its cooldown and takes one off its failure count, which never
    grows and does not go below 0; the other keys are untouched. *)
Theorem markSuccess_decays (st : State) (k : KeyHealth) :
  keys st !! currentIndex st = Some k ->
  exists k',
    keys (markSuccess st) !! currentIndex st = Some k'
    /\ currentIndex (markSuccess st) = currentIndex st
    /\ successCount k' = successCount k + 1
    /\ cooldownUntil k' = 0
    /\ failureCount k' <= failureCount k
    /\ failureCount k' = (if failureCount k >? 0 then failureCount k - 1 else failureCount k)
    /\ (0 <= failureCount k -> 0 <= failureCount k')
    /\ key k' = key k
    /\ (forall j : nat, j <> currentIndex st -> keys (markSuccess st) !! j = keys st !! j).
Proof.
  intros Hk. destruct (markSuccess_current st k Hk) as [H1 H2].
  exists (succeedKey k). split; [exact H1|]. split; [exact H2|].
  unfold succeedKey. simpl.
  split; [reflexivity|]. split; [reflexivity|].
  destruct (Z.gtb_spec (failureCount k) 0).
  - repeat split; try lia. intros j Hj. apply markSuccess_other. exact Hj.
  - repeat split; try lia. intros j Hj. apply markSuccess_other. exact Hj.
Qed.

Lemma markSuccess_decays_witness :
  exists k',
    keys (markSuccess samplePool) !! O = Some k'
    /\ successCount k' = 1 /\ cooldownUntil k' = 0 /\ failureCount k' = 0.
Proof.
  destruct (markSuccess_decays samplePool (freshKey "key-alpha-0001"))
    as (k' & H1 & _ & H3 & H4 & _ & H6 & _); [reflexivity|].
  exists k'. split; [exact H1|]. split; [exact H3|]. split; [exact H4|exact H6].
Defined.

(** X23. A failure followed by a success on the same key leaves its
    failure count where it was (for a count that is not negative) and the
    key out of cooldown, with one more success on record and the time of
    the failure remembered. *)
Theorem markFailed_then_markSuccess (st : State) (k : KeyHealth) (tFail tCool : Z) :
  keys st !! currentIndex st = Some k ->
  0 <= failureCount k ->
  exists k',
    keys (markSuccess (markFailed st tFail tCool)) !! currentIndex st = Some k'
    /\ failureCount k' = failureCount k
    /\ cooldownUntil k' = 0
    /\ successCount k' = successCount k + 1
    /\ lastFailure k' = Some tFail
    /\ key k' = key k.
Proof.
  intros Hk H0.
  destruct (markFailed_current st k tFail tCool Hk) as [H1 H2].
  rewrite <- H2 in H1.
  destruct (markSuccess_current _ _ H1) as [H3 _]. rewrite H2 in H3.
  eexists. split; [exact H3|]. unfold succeedKey, failKey. simpl.
  destruct (Z.gtb_spec (failureCount k + 1) 0); repeat split; lia.
Qed.

Lemma markFailed_then_markSuccess_witness :
  exists k',
    keys (markSuccess (markFailed samplePool 1700000000001 1700000000002)) !! O = Some k'
    /\ failureCount k' = 0 /\ cooldownUntil k' = 0 /\ successCount k' = 1.
Proof.
  destruct (markFailed_then_markSuccess samplePool (freshKey "key-alpha-0001")
              1700000000001 1700000000002)
    as (k' & H1 & H2 & H3 & H4 & _); [reflexivity|simpl; lia|].
  exists k'. split; [exact H1|]. split; [exact H2|]. split; [exact H3|exact H4].
Defined.

Lemma findIndex_Some {A} (f : A -> bool) (l : list A) (i : nat) :
  CommandQueue.findIndex f l = Some i ->
  exists x, l !! i = Some x /\ f x = true.
Proof.
  revert i. induction l as [|y l IH]; intros i H; [discriminate|].
  simpl in H. destruct (f y) eqn:Hy.
  - injection H as <-. exists y. split; [reflexivity|exact Hy].
  - destruct (CommandQueue.findIndex f l) as [j|]; [|discriminate].
    injection H as <-. apply (IH j eq_refl).
Qed.

Lemma findIndex_None {A} (f : A -> bool) (l : list A) :
  CommandQueue.findIndex f l = None -> forall x, In x l -> f x = false.
Proof.
  induction l as [|y l IH]; intros H x Hx; [destruct Hx|].
  simpl in H. destruct (f y) eqn:Hy; [discriminate|].
  destruct (CommandQueue.findIndex f l); [discriminate|].
  destruct Hx as [<-|Hx]; [exact Hy|apply (IH eq_refl x Hx)].
Qed.

(** The last loop of [getAvailableKeyOrWaitTime] keeps the selection it
    was given when no key waits less, and else selects a key of least
    wait. *)
Lemma waitLoop_spec now ks :
  forall i best,
    (waitLoop now i ks best = best
     /\ (snd best = None -> ks = [])
     /\ forall w0, snd best = Some w0 ->
          forall k', In k' ks -> w0 <= cooldownUntil k' - now)
    \/ (exists (j : nat) k,
          ks !! j = Some k
          /\ waitLoop now i ks best = ((i + j)%nat, Some (cooldownUntil k - now))
          /\ (forall w0, snd best = Some w0 -> cooldownUntil k - now < w0)
          /\ forall k', In k' ks -> cooldownUntil k - now <= cooldownUntil k' - now).
Proof.
  induction ks as [|k ks IH]; intros i best.
  - left. simpl. split; [reflexivity|]. split; [reflexivity|]. intros w0 _ k' [].
  - simpl waitLoop.
    destruct (match snd best with
              | Some w => cooldownUntil k - now <? w
              | None => true
              end) eqn:Hsm.
    + right.
      assert (Hbeat : forall w0, snd best = Some w0 -> cooldownUntil k - now < w0).
      { intros w0 Hw. rewrite Hw in Hsm. apply Z.ltb_lt. exact Hsm. }
      destruct (IH (S i) (i, Some (cooldownUntil k - now)))
        as [(Heq & _ & Hall)|(j & kj & Hj & Heq & Hlt & Hall)].
      * exists O, k. split; [reflexivity|]. rewrite Heq, Nat.add_0_r.
        split; [reflexivity|]. split; [exact Hbeat|].
        intros k' [<-|Hk']; [lia|]. apply (Hall _ eq_refl k' Hk').
      * exists (S j), kj. split; [exact Hj|]. rewrite Heq.
        replace (S i + j)%nat with (i + S j)%nat by lia.
        split; [reflexivity|].
        pose proof (Hlt _ eq_refl) as Hk.
        split.
        -- intros w0 Hw. specialize (Hbeat w0 Hw). lia.
        -- intros k' [<-|Hk']; [lia|]. apply (Hall k' Hk').
    + destruct (snd best) as [w0|] eqn:Hb; [|discriminate].
      apply Z.ltb_ge in Hsm.
      destruct (IH (S i) best)
        as [(Heq & _ & Hall)|(j & kj & Hj & Heq & Hlt & Hall)].
      * left. split; [exact Heq|]. split; [discriminate|].
        intros w1 Hw1. injection Hw1 as <-.
        intros k' [<-|Hk']; [lia|]. apply (Hall w0 Hb k' Hk').
      * right. exists (S j), kj. split; [exact Hj|]. rewrite Heq.
        replace (S i + j)%nat with (i + S j)%nat by lia.
        split; [reflexivity|].
        pose proof (Hlt w0 Hb) as Hk.
        split; [intros w1 Hw1; injection Hw1 as <-; exact Hk|].
        intros k' [<-|Hk']; [lia|]. apply (Hall k' Hk').
Qed.

(** X24. On a pool whose current index is that of a key,
    [getAvailableKeyOrWaitTime] changes no key and returns the key it
    makes current. It keeps the current key, with no wait, when that key
    is out of cooldown; if any key is out of cooldown the wait is 0 and
    the key returned is out of cooldown; and if every key is cooling down
    it returns a key of least remaining cooldown, with that remainder,
    which is positive, as the wait. *)
Theorem getAvailable_selects (st : State) (now : Z) (kc : KeyHealth) :
  keys st !! currentIndex st = Some kc ->
  exists k w st' ksel,
    getAvailableKeyOrWaitTime st now = Some ((k, w), st')
    /\ keys st' = keys st
    /\ keys st !! currentIndex st' = Some ksel
    /\ key ksel = k
    /\ (cooldownUntil kc <= now -> st' = st /\ w = 0)
    /\ ((exists k', In k' (keys st) /\ cooldownUntil k' <= now) ->
        w = 0 /\ cooldownUntil ksel <= now)
    /\ ((forall k', In k' (keys st) -> now < cooldownUntil k') ->
        w = cooldownUntil ksel - now /\ 0 < w
        /\ forall k', In k' (keys st) -> w <= cooldownUntil k' - now).
Proof.
  intros Hkc. unfold getAvailableKeyOrWaitTime.
  assert (Hin : In kc (keys st)).
  { apply list_elem_of_In. eapply list_elem_of_lookup_2. exact Hkc. }
  destruct (keys st) as [|k0 ks0] eqn:Hks; [destruct Hin|].
  rewrite <- Hks in *. rewrite Hkc.
  destruct (Z.leb_spec (cooldownUntil kc) now) as [Hle|Hgt].
  - exists (key kc), 0, st, kc.
    split; [reflexivity|]. split; [reflexivity|]. split; [exact Hkc|].
    split; [reflexivity|]. split; [auto|]. split; [auto|].
    intros Hall. specialize (Hall kc Hin). lia.
  - destruct (CommandQueue.findIndex (fun k => cooldownUntil k <=? now) (keys st))
      as [i|] eqn:Hfind.
    + destruct (findIndex_Some _ _ _ Hfind) as (ki & Hi & Hav).
      apply Z.leb_le in Hav. rewrite Hi.
      exists (key ki), 0, {| keys := keys st; currentIndex := i |}, ki.
      split; [reflexivity|]. split; [reflexivity|]. split; [exact Hi|].
      split; [reflexivity|]. split; [lia|]. split; [auto|].
      intros Hall. assert (In ki (keys st)).
      { apply list_elem_of_In. eapply list_elem_of_lookup_2. exact Hi. }
      specialize (Hall ki H). lia.
    + pose proof (findIndex_None _ _ Hfind) as Hnone.
      destruct (waitLoop_spec now (keys st) O (O, None))
        as [(_ & Hnil & _)|(j & kj & Hj & Heq & _ & Hall)].
      * specialize (Hnil eq_refl). rewrite Hnil in Hin. destruct Hin.
      * rewrite Heq. simpl. rewrite Hj.
        assert (Hkj : In kj (keys st)).
        { apply list_elem_of_In. eapply list_elem_of_lookup_2. exact Hj. }
        pose proof (Hnone kj Hkj) as Hw. simpl in Hw. apply Z.leb_gt in Hw.
        exists (key kj), (Z.max 0 (cooldownUntil kj - now)),
          {| keys := keys st; currentIndex := j |}, kj.
        split; [reflexivity|]. split; [reflexivity|]. split; [exact Hj|].
        split; [reflexivity|]. split; [lia|]. split.
        -- intros (k' & Hk' & Hle). specialize (Hnone k' Hk'). simpl in Hnone.
           apply Z.leb_gt in Hnone. lia.
        -- intros _. rewrite Z.max_r by lia. split; [reflexivity|].
           split; [lia|]. exact Hall.
Qed.

Lemma getAvailable_selects_witness :
  exists st' ksel,
    getAvailableKeyOrWaitTime coolingPool 1700000000000
    = Some (("key-beta-0002", 20000), st')
    /\ keys coolingPool !! currentIndex st' = Some ksel
    /\ forall k', In k' (keys coolingPool) -> 20000 <= cooldownUntil k' - 1700000000000.
Proof.
  destruct (getAvailable_selects coolingPool 1700000000000
              {| key := "key-alpha-0001"; failureCount := 2;
                 lastFailure := Some 1699999990000;
                 cooldownUntil := 1700000040000; successCount := 0 |})
    as (k & w & st' & ksel & H1 & _ & H3 & _ & _ & _ & H7); [reflexivity|].
  assert (Hc : getAvailableKeyOrWaitTime coolingPool 1700000000000
               = Some (("key-beta-0002", 20000),
                       {| keys := keys coolingPool; currentIndex := 1 |}))
    by (vm_compute; reflexivity).
  rewrite Hc in H1. injection H1 as <- <- <-.
  exists {| keys := keys coolingPool; currentIndex := 1 |}, ksel.
  split; [exact Hc|]. split; [exact H3|].
  apply H7. intros k' Hk'. simpl in Hk'.
  destruct Hk' as [<-|[<-|[<-|[]]]]; simpl; lia.
Defined.

(** *** The current index under runs of operations *)

Lemma map_key_insert (l : list KeyHealth) (i : nat) k k' :
  l !! i = Some k -> key k' = key k -> map key (<[i:=k']> l) = map key l.
Proof.
  revert i. induction l as [|x l IH]; intros [|i] H Hk; try discriminate.
  - simpl in H. injection H as ->. simpl. rewrite Hk. reflexivity.
  - simpl in *. rewrite (IH i H Hk). reflexivity.
Qed.

Lemma markFailed_keeps st tFail tCool :
  map key (keys (markFailed st tFail tCool)) = map key (keys st)
  /\ currentIndex (markFailed st tFail tCool) = currentIndex st.
Proof.
  unfold markFailed. destruct (keys st !! currentIndex st) as [k|] eqn:Hk;
    [|split; reflexivity].
  simpl. split; [|reflexivity]. apply (map_key_insert _ _ k); [exact Hk|reflexivity].
Qed.

Lemma markSuccess_keeps st :
  map key (keys (markSuccess st)) = map key (keys st)
  /\ currentIndex (markSuccess st) = currentIndex st.
Proof.
  unfold markSuccess. destruct (keys st !! currentIndex st) as [k|] eqn:Hk;
    [|split; reflexivity].
  simpl. split; [|reflexivity]. apply (map_key_insert _ _ k); [exact Hk|reflexivity].
Qed.

Lemma map_key_length (l l' : list KeyHealth) :
  map key l' = map key l -> length l' = length l.
Proof. intros H. rewrite <- (length_map key l'), H. apply length_map. Qed.

Lemma shortestLoop_index now cur ks :
  forall i best ri rr,
    shortestLoop now cur i ks best = Some (ri, rr) ->
    (exists br, best = Some (ri, br)) \/ (i <= ri < i + length ks)%nat.
Proof.
  induction ks as [|k ks IH]; intros i best ri rr H.
  - simpl in H. left. eauto.
  - simpl in H. destruct (Nat.eqb i cur).
    + destruct (IH _ _ _ _ H) as [Hb|Hr]; [left; exact Hb|right; simpl; lia].
    + destruct (shorter (cooldownUntil k - now) best).
      * destruct (IH _ _ _ _ H) as [[br Hb]|Hr]; [|right; simpl; lia].
        injection Hb as <- _. right. simpl. lia.
      * destruct (IH _ _ _ _ H) as [Hb|Hr]; [left; exact Hb|right; simpl; lia].
Qed.

Section AnyNumbers.
Context {N : Numbers}.

Lemma scoreLoop_index now cur ks :
  forall i best ri rs,
    scoreLoop now cur i ks best = Some (ri, rs) ->
    (exists bs, best = Some (ri, bs)) \/ (i <= ri < i + length ks)%nat.
Proof.
  induction ks as [|k ks IH]; intros i best ri rs H.
  - simpl in H. left. eauto.
  - simpl in H. destruct (Nat.eqb i cur).
    + destruct (IH _ _ _ _ H) as [Hb|Hr]; [left; exact Hb|right; simpl; lia].
    + destruct (better (score now k) best).
      * destruct (IH _ _ _ _ H) as [[bs Hb]|Hr]; [|right; simpl; lia].
        injection Hb as <- _. right. simpl. lia.
      * destruct (IH _ _ _ _ H) as [Hb|Hr]; [left; exact Hb|right; simpl; lia].
Qed.

Lemma selectIndex_lt now st :
  keys st <> [] -> (selectIndex now st < length (keys st))%nat.
Proof.
  intros Hne. unfold selectIndex.
  destruct (scoreLoop now (currentIndex st) O (keys st) None) as [[ri rs]|] eqn:H1.
  - destruct (scoreLoop_index _ _ _ _ _ _ _ H1) as [[bs Hb]|Hr]; [discriminate|lia].
  - destruct (shortestLoop now (currentIndex st) O (keys st) None) as [[ri rr]|] eqn:H2.
    + destruct (shortestLoop_index _ _ _ _ _ _ _ H2) as [[br Hb]|Hr]; [discriminate|lia].
    + apply Nat.mod_upper_bound. destruct (keys st); [congruence|discriminate].
Qed.

Lemma step_keeps st op :
  indexValid st ->
  exists st', step st op = Some st'
              /\ indexValid st'
              /\ map key (keys st') = map key (keys st).
Proof.
  intros Hv. destruct op as [tFail tCool| |now tFail tCool|now|]; simpl.
  - destruct (markFailed_keeps st tFail tCool) as [Hk Hc].
    eexists. split; [reflexivity|]. split; [|exact Hk].
    pose proof (map_key_length _ _ Hk) as Hl. unfold indexValid in *.
    rewrite Hc, Hl. destruct Hv as [Hv|[Hv1 Hv2]]; [left; exact Hv|right].
    split; [|exact Hv2]. destruct (keys (markFailed st tFail tCool)); [reflexivity|].
    rewrite Hv1 in Hl. discriminate.
  - destruct (markSuccess_keeps st) as [Hk Hc].
    eexists. split; [reflexivity|]. split; [|exact Hk].
    pose proof (map_key_length _ _ Hk) as Hl. unfold indexValid in *.
    rewrite Hc, Hl. destruct Hv as [Hv|[Hv1 Hv2]]; [left; exact Hv|right].
    split; [|exact Hv2]. destruct (keys (markSuccess st)); [reflexivity|].
    rewrite Hv1 in Hl. discriminate.
  - eexists. split; [reflexivity|]. unfold rotate.
    destruct (Nat.leb_spec (length (keys st)) 1) as [Hle|Hgt]; simpl.
    + split; [exact Hv|reflexivity].
    + destruct (markFailed_keeps st tFail tCool) as [Hk Hc].
      split; [|exact Hk]. left. simpl. apply selectIndex_lt.
      pose proof (map_key_length _ _ Hk) as Hl.
      destruct (keys (markFailed st tFail tCool)); [simpl in Hl; lia|discriminate].
  - destruct Hv as [Hv|[Hv1 Hv2]].
    + destruct (lookup_lt_is_Some_2 (keys st) (currentIndex st) Hv) as [kc Hkc].
      destruct (getAvailable_selects st now kc Hkc)
        as (k & w & st' & ksel & H1 & H2 & H3 & _).
      rewrite H1. simpl. exists st'. split; [reflexivity|].
      split; [|rewrite H2; reflexivity].
      left. rewrite H2. eapply lookup_lt_Some. exact H3.
    + assert (Hg : getAvailableKeyOrWaitTime st now = Some ((EmptyString, 0), st))
        by (unfold getAvailableKeyOrWaitTime; rewrite Hv1; reflexivity).
      rewrite Hg. simpl. exists st. split; [reflexivity|]. split; [|reflexivity].
      right. split; assumption.
  - eexists. split; [reflexivity|]. unfold resetAllCooldowns, indexValid in *. simpl.
    rewrite length_map. split.
    + destruct Hv as [Hv|[Hv1 Hv2]]; [left; exact Hv|right].
      rewrite Hv1. split; [reflexivity|exact Hv2].
    + rewrite map_map. reflexivity.
Qed.

End AnyNumbers.

(** X25. Under any run of [markFailed], [markSuccess], [rotate],
    [getAvailableKeyOrWaitTime] and [resetAllCooldowns] calls on a pool
    the constructor made, and in whatever arithmetic the scores are
    computed, no call raises, the current index stays the index of a key
    (0 on an empty pool), and the key strings of the pool never change. *)
Theorem runs_keep_index_valid (N : Numbers) (raw : option string) (ops : list Op) :
  exists st',
    run (construct raw) ops = Some st'
    /\ indexValid st'
    /\ map key (keys st') = map key (keys (construct raw))
    /\ getActiveKey st'
       = nth (currentIndex st') (map key (keys (construct raw))) EmptyString.
Proof.
  assert (Hinit : indexValid (construct raw)).
  { unfold indexValid.
    destruct (keys (construct raw)) as [|k ks] eqn:Hk.
    - right. split; [reflexivity|].
      unfold construct in *. destruct raw as [r|]; [|reflexivity].
      destruct (negb (JSString.truthy r) || negb (JSString.truthy (trim r)));
        reflexivity.
    - left. unfold construct in *. destruct raw as [r|]; [|discriminate].
      destruct (negb (JSString.truthy r) || negb (JSString.truthy (trim r)));
        [discriminate|]. simpl. lia. }
  assert (Hrun : forall ops st, indexValid st ->
            exists st', run st ops = Some st' /\ indexValid st'
                        /\ map key (keys st') = map key (keys st)).
  { clear. induction ops as [|op ops IH]; intros st Hv.
    - exists st. split; [reflexivity|]. split; [exact Hv|reflexivity].
    - destruct (step_keeps st op Hv) as (st1 & H1 & Hv1 & Hk1).
      destruct (IH st1 Hv1) as (st' & H2 & Hv' & Hk').
      exists st'. simpl. rewrite H1. split; [exact H2|]. split; [exact Hv'|].
      rewrite Hk'. exact Hk1. }
  destruct (Hrun ops (construct raw) Hinit) as (st' & H1 & H2 & H3).
  exists st'. split; [exact H1|]. split; [exact H2|]. split; [exact H3|].
  rewrite <- H3. unfold getActiveKey.
  generalize (currentIndex st'). generalize (keys st'). clear.
  induction l as [|x l IH]; intros [|n]; try reflexivity. simpl. apply IH.
Qed.

Lemma getAvailable_current st now kc :
  keys st !! currentIndex st = Some kc ->
  cooldownUntil kc <= now ->
  getAvailableKeyOrWaitTime st now = Some ((key kc, 0), st).
Proof.
  intros Hkc Hle. unfold getAvailableKeyOrWaitTime.
  destruct (keys st) as [|k0 ks0] eqn:Hks; [discriminate|].
  rewrite Hkc. destruct (Z.leb_spec (cooldownUntil kc) now); [reflexivity|lia].
Qed.

(** X26. After [resetAllCooldowns] every key has failure count 0 and no
    cooldown, with its key string and success count unchanged; and at any
    clock reading that is not negative the next
    [getAvailableKeyOrWaitTime] returns the current key with no wait and
    changes nothing. *)
Theorem reset_makes_current_available (st : State) (kc : KeyHealth) (now : Z) :
  keys st !! currentIndex st = Some kc ->
  0 <= now ->
  let st1 := resetAllCooldowns st in
  getAvailableKeyOrWaitTime st1 now = Some ((key kc, 0), st1)
  /\ Forall (fun k => failureCount k = 0 /\ cooldownUntil k = 0) (keys st1)
  /\ map key (keys st1) = map key (keys st)
  /\ map successCount (keys st1) = map successCount (keys st)
  /\ currentIndex st1 = currentIndex st.
Proof.
  intros Hkc Hnow st1.
  assert (H1 : keys st1 !! currentIndex st1 = Some (resetKey kc)).
  { unfold st1, resetAllCooldowns. simpl.
    change (map resetKey (keys st)) with (resetKey <$> keys st).
    rewrite list_lookup_fmap, Hkc. reflexivity. }
  split.
  { apply (getAvailable_current st1 now (resetKey kc) H1). simpl. exact Hnow. }
  unfold st1, resetAllCooldowns. simpl. split.
  { apply List.Forall_forall. intros k Hk. apply in_map_iff in Hk as (k0 & <- & _).
    split; reflexivity. }
  rewrite !map_map. repeat split; reflexivity.
Qed.

Lemma reset_makes_current_available_witness :
  let st1 := resetAllCooldowns coolingPool in
  getAvailableKeyOrWaitTime st1 1700000000000 = Some (("key-alpha-0001", 0), st1)
  /\ Forall (fun k => failureCount k = 0 /\ cooldownUntil k = 0) (keys st1).
Proof.
  destruct (reset_makes_current_available coolingPool
              {| key := "key-alpha-0001"; failureCount := 2;
                 lastFailure := Some 1699999990000;
                 cooldownUntil := 1700000040000; successCount := 0 |}
              1700000000000)
    as (H1 & H2 & _); [reflexivity|lia|].
  split; [exact H1|exact H2].
Defined.

Lemma filter_split_length {A} (f : A -> bool) (l : list A) :
  (length (List.filter f l) + length (List.filter (fun x => negb (f x)) l)
   = length l)%nat.
Proof.
  induction l as [|x l IH]; [reflexivity|].
  simpl. destruct (f x); simpl; lia.
Qed.

Lemma filter_nonempty {A} (f : A -> bool) (l : list A) :
  (0 < length (List.filter f l))%nat <-> exists x, In x l /\ f x = true.
Proof.
  split.
  - destruct (List.filter f l) as [|x l'] eqn:E; [simpl; lia|]. intros _.
    assert (Hx : In x (List.filter f l)) by (rewrite E; now left).
    apply filter_In in Hx. exists x. exact Hx.
  - intros (x & Hx & Hf).
    assert (Hin : In x (List.filter f l)) by (apply filter_In; split; assumption).
    destruct (List.filter f l); [destruct Hin|simpl; lia].
Qed.

(** X27. In [getStats] the healthy and the cooling nodes add up to the
    total, there is one detail entry per key, and the active node is the
    current index counted from 1. The count of healthy nodes agrees with
    [getAvailableKeyOrWaitTime] at the same clock reading: some node is
    healthy exactly when no wait is asked for. *)
Theorem getStats_consistent (st : State) (now : Z) (kc : KeyHealth) :
  keys st !! currentIndex st = Some kc ->
  let stats := getStats st now in
  healthyNodes stats + coolingNodes stats = totalNodes stats
  /\ totalNodes stats = Z.of_nat (length (keys st))
  /\ length (keyHealths stats) = length (keys st)
  /\ activeNode stats = Z.of_nat (currentIndex st) + 1
  /\ currentFailures stats = failureCount kc
  /\ currentCooldownRemaining stats = Z.max 0 (cooldownUntil kc - now)
  /\ exists k w st',
       getAvailableKeyOrWaitTime st now = Some ((k, w), st')
       /\ (w = 0 <-> 0 < healthyNodes stats).
Proof.
  intros Hkc stats. unfold stats, getStats. simpl. rewrite Hkc.
  pose proof (filter_split_length (fun k => cooldownUntil k <=? now) (keys st)) as Hs.
  split; [lia|]. split; [reflexivity|]. split; [apply length_imap|].
  split; [reflexivity|]. split; [reflexivity|]. split; [reflexivity|].
  destruct (getAvailable_selects st now kc Hkc)
    as (k & w & st' & ksel & Hg & _ & _ & _ & _ & Hsome & Hnone).
  exists k, w, st'. split; [exact Hg|].
  set (f := fun k : KeyHealth => cooldownUntil k <=? now) in *.
  pose proof (filter_nonempty f (keys st)) as Hne.
  destruct (Nat.eq_dec (length (List.filter f (keys st))) O) as [H0|H0].
  - (* every key is cooling down *)
    assert (Hall : forall k', In k' (keys st) -> now < cooldownUntil k').
    { intros k' Hk'. destruct (Z.ltb_spec now (cooldownUntil k')); [assumption|].
      exfalso. assert (Hpos : (0 < length (List.filter f (keys st)))%nat).
      { apply Hne. exists k'. split; [exact Hk'|]. apply Z.leb_le. lia. }
      lia. }
    destruct (Hnone Hall) as (Hw & Hpos & _). rewrite H0. split; intros; lia.
  - assert (Hex : exists k', In k' (keys st) /\ cooldownUntil k' <= now).
    { destruct (proj1 Hne ltac:(lia)) as (k' & Hk' & Hf).
      exists k'. split; [exact Hk'|]. apply Z.leb_le. exact Hf. }
    destruct (Hsome Hex) as [-> _]. split; intros; lia.
Qed.

Lemma getStats_consistent_witness :
  let stats := getStats coolingPool 1700000030000 in
  healthyNodes stats + coolingNodes stats = totalNodes stats
  /\ healthyNodes stats = 2
  /\ exists k w st',
       getAvailableKeyOrWaitTime coolingPool 1700000030000 = Some ((k, w), st')
       /\ (w = 0 <-> 0 < healthyNodes stats).
Proof.
  destruct (getStats_consistent coolingPool 1700000030000
              {| key := "key-alpha-0001"; failureCount := 2;
                 lastFailure := Some 1699999990000;
                 cooldownUntil := 1700000040000; successCount := 0 |})
    as (H1 & _ & _ & _ & _ & _ & H7); [reflexivity|].
  split; [exact H1|]. split; [reflexivity|exact H7].
Defined.

(** *** Parsing the raw key string *)

Lemma splitKeys_pieces s :
  forall inRun,
    Forall (fun p => BridgeAuthenticator.allChars notSeparator p = true)
           (splitKeys inRun s).
Proof.
  induction s as [|c s IH]; intros inRun.
  - simpl. repeat constructor.
  - simpl. destruct (isSeparator c) eqn:Hc.
    + destruct inRun; [apply IH|]. constructor; [reflexivity|apply IH].
    + specialize (IH false). destruct (splitKeys false s) as [|p ps].
      * repeat constructor. simpl. unfold notSeparator. rewrite Hc. reflexivity.
      * inversion IH as [|? ? Hp Hps]; subst. constructor; [|exact Hps].
        simpl. unfold notSeparator at 1. rewrite Hc, Hp. reflexivity.
Qed.

Lemma notSeparator_notSpace c : notSeparator c = true -> JSString.isSpace c = false.
Proof.
  unfold notSeparator, isSeparator. destruct (JSString.isSpace c); [discriminate|reflexivity].
Qed.

Lemma trim_piece p :
  BridgeAuthenticator.allChars notSeparator p = true -> trim p = p.
Proof.
  intros H. unfold trim.
  assert (Hs : trimStart p = p).
  { destruct p as [|c p]; [reflexivity|]. simpl in *.
    apply andb_prop in H as [Hc _]. rewrite (notSeparator_notSpace c Hc). reflexivity. }
  rewrite Hs. clear Hs. induction p as [|c p IH]; [reflexivity|].
  simpl in *. apply andb_prop in H as [Hc Hp]. rewrite (IH Hp).
  destruct p; [rewrite (notSeparator_notSpace c Hc)|]; reflexivity.
Qed.

Lemma trimStart_blank r :
  BridgeAuthenticator.allChars JSString.isSpace r = true -> trimStart r = EmptyString.
Proof.
  induction r as [|c r IH]; [reflexivity|].
  simpl. intros H. apply andb_prop in H as [Hc Hr]. rewrite Hc. apply IH. exact Hr.
Qed.

Lemma string_app_cons (x : ascii) (a b : string) :
  String x a +:+ b = String x (a +:+ b).
Proof. reflexivity. Qed.

Lemma string_app_assoc (a b c : string) : (a +:+ b) +:+ c = a +:+ (b +:+ c).
Proof.
  induction a as [|x a IH]; [reflexivity|]. rewrite !string_app_cons, IH. reflexivity.
Qed.

Lemma string_app_nil_r (a : string) : a +:+ EmptyString = a.
Proof.
  induction a as [|x a IH]; [reflexivity|]. rewrite string_app_cons, IH. reflexivity.
Qed.

Lemma splitKeys_nonempty s : forall inRun, splitKeys inRun s <> [].
Proof.
  induction s as [|c s IH]; intros inRun; [discriminate|].
  simpl. destruct (isSeparator c).
  - destruct inRun; [apply IH|discriminate].
  - destruct (splitKeys false s); discriminate.
Qed.

(** Separators after a separator are passed over. *)
Lemma splitKeys_skip l r :
  BridgeAuthenticator.allChars isSeparator l = true ->
  splitKeys true (l +:+ r) = splitKeys true r.
Proof.
  induction l as [|c l IH]; [reflexivity|].
  rewrite string_app_cons. simpl. intros H. apply andb_prop in H as [Hc Hl].
  rewrite Hc. apply IH. exact Hl.
Qed.

(** A run of characters that are not separators goes to the first piece. *)
Lemma splitKeys_piece k r :
  BridgeAuthenticator.allChars notSeparator k = true ->
  splitKeys false (k +:+ r)
  = match splitKeys false r with
    | q :: qs => (k +:+ q) :: qs
    | [] => [k]
    end.
Proof.
  induction k as [|c k IH]; intros H.
  - change (EmptyString +:+ r) with r.
    destruct (splitKeys false r) eqn:E; [|reflexivity].
    exfalso. exact (splitKeys_nonempty r false E).
  - rewrite string_app_cons. simpl in *. apply andb_prop in H as [Hc Hk].
    unfold notSeparator in Hc. apply negb_true_iff in Hc. rewrite Hc, (IH Hk).
    destruct (splitKeys false r); reflexivity.
Qed.

Lemma splitKeys_flag c s inRun :
  isSeparator c = false -> splitKeys inRun (String c s) = splitKeys false (String c s).
Proof. intros H. simpl. rewrite H. reflexivity. Qed.

(** At a gap the next piece starts: what is split off before it is the
    empty string. *)
Lemma splitKeys_gap X :
  X = EmptyString \/ (exists c X', X = String c X' /\ isSeparator c = true) ->
  exists qs,
    splitKeys false X = EmptyString :: qs
    /\ List.filter longEnough qs = List.filter longEnough (splitKeys true X).
Proof.
  intros [->|(c & X' & -> & Hc)].
  - exists []. split; reflexivity.
  - exists (splitKeys true X'). simpl. rewrite Hc. split; reflexivity.
Qed.

Lemma starts_with_separator sp r :
  sp <> EmptyString ->
  BridgeAuthenticator.allChars isSeparator sp = true ->
  exists c X', sp +:+ r = String c X' /\ isSeparator c = true.
Proof.
  destruct sp as [|c sp]; [congruence|]. simpl. intros _ H.
  apply andb_prop in H as [Hc _]. exists c, (sp +:+ r). split; [reflexivity|exact Hc].
Qed.

Lemma render_gap items trail :
  Forall wellFormedItem items ->
  BridgeAuthenticator.allChars isSeparator trail = true ->
  render items +:+ trail = EmptyString
  \/ exists c X', render items +:+ trail = String c X' /\ isSeparator c = true.
Proof.
  intros Hit Htr. destruct Hit as [|[sp k] items (Hne & Hsp & _) _].
  - simpl. destruct trail as [|c t]; [left; reflexivity|right].
    apply (starts_with_separator (String c t) EmptyString) in Htr; [|discriminate].
    rewrite string_app_nil_r in Htr. exact Htr.
  - right. simpl in *. rewrite string_app_assoc. apply starts_with_separator; assumption.
Qed.

(** The pieces longer than 5 characters of a rendered string are those of
    its items. *)
Lemma splitKeys_render items trail :
  Forall wellFormedItem items ->
  BridgeAuthenticator.allChars isSeparator trail = true ->
  List.filter longEnough (splitKeys true (render items +:+ trail))
  = List.filter longEnough (map snd items).
Proof.
  intros Hit Htr. induction Hit as [|[sp k] items (Hne & Hsp & Hk & Hkc) Hit IH].
  - change (render [] +:+ trail) with trail.
    rewrite <- (string_app_nil_r trail), (splitKeys_skip trail EmptyString Htr).
    reflexivity.
  - simpl in Hne, Hsp, Hk, Hkc. simpl render. simpl map.
    rewrite !string_app_assoc, (splitKeys_skip sp _ Hsp).
    destruct k as [|c k]; [congruence|].
    assert (Hc : isSeparator c = false).
    { simpl in Hkc. apply andb_prop in Hkc as [Hc _].
      unfold notSeparator in Hc. apply negb_true_iff in Hc. exact Hc. }
    change (String c k +:+ (render items +:+ trail))
      with (String c (k +:+ (render items +:+ trail))).
    rewrite (splitKeys_flag c _ true Hc).
    change (String c (k +:+ (render items +:+ trail)))
      with (String c k +:+ (render items +:+ trail)).
    rewrite (splitKeys_piece (String c k) _ Hkc).
    destruct (splitKeys_gap _ (render_gap items trail Hit Htr)) as (qs & -> & Hqs).
    rewrite string_app_nil_r.
    change (List.filter longEnough (String c k :: qs))
      with (if longEnough (String c k)
            then String c k :: List.filter longEnough qs
            else List.filter longEnough qs).
    change (List.filter longEnough (String c k :: map snd items))
      with (if longEnough (String c k)
            then String c k :: List.filter longEnough (map snd items)
            else List.filter longEnough (map snd items)).
    rewrite Hqs, IH. reflexivity.
Qed.

Lemma trimEnd_blank s :
  trimEnd s = EmptyString -> BridgeAuthenticator.allChars JSString.isSpace s = true.
Proof.
  induction s as [|c s IH]; [reflexivity|].
  simpl. destruct (trimEnd s) as [|x t]; [|discriminate].
  destruct (JSString.isSpace c); [|discriminate].
  intros _. simpl. apply IH. reflexivity.
Qed.

Lemma trimStart_spaces s :
  BridgeAuthenticator.allChars JSString.isSpace (trimStart s) = true ->
  BridgeAuthenticator.allChars JSString.isSpace s = true.
Proof.
  induction s as [|c s IH]; [reflexivity|].
  simpl. destruct (JSString.isSpace c) eqn:Hc.
  - intros H. simpl. apply IH. exact H.
  - simpl. rewrite Hc. discriminate.
Qed.

Lemma splitKeys_blank s :
  BridgeAuthenticator.allChars isSeparator s = true ->
  forall inRun, Forall (fun p => p = EmptyString) (splitKeys inRun s).
Proof.
  induction s as [|c s IH]; intros H inRun.
  - repeat constructor.
  - simpl in *. apply andb_prop in H as [Hc Hs]. rewrite Hc.
    destruct inRun; [apply IH; exact Hs|].
    constructor; [reflexivity|apply IH; exact Hs].
Qed.

Lemma spaces_are_separators s :
  BridgeAuthenticator.allChars JSString.isSpace s = true ->
  BridgeAuthenticator.allChars isSeparator s = true.
Proof.
  induction s as [|c s IH]; [reflexivity|].
  simpl. intros H. apply andb_prop in H as [Hc Hs].
  apply andb_true_intro. split; [|exact (IH Hs)].
  unfold isSeparator. rewrite Hc. reflexivity.
Qed.

(** The keys of a constructed pool are the pieces of the raw string that
    are longer than 5 characters, in their order. *)
Lemma construct_keys r :
  map key (keys (construct (Some r))) = List.filter longEnough (splitKeys false r).
Proof.
  assert (Hblank : BridgeAuthenticator.allChars JSString.isSpace r = true ->
                   List.filter longEnough (splitKeys false r) = []).
  { intros H. pose proof (splitKeys_blank r (spaces_are_separators r H) false) as Hall.
    induction Hall as [|p ps -> _ IH]; [reflexivity|]. simpl. exact IH. }
  assert (Hgen : forall ps,
            Forall (fun p => BridgeAuthenticator.allChars notSeparator p = true) ps ->
            map key (keys (fromKeys (map trim ps))) = List.filter longEnough ps).
  { intros ps Hp. unfold fromKeys. simpl. rewrite map_map. simpl.
    induction Hp as [|p ps Hp _ IH]; [reflexivity|].
    simpl. rewrite (trim_piece p Hp).
    fold (longEnough p). destruct (longEnough p); simpl; rewrite IH; reflexivity. }
  unfold construct.
  destruct (JSString.truthy r) eqn:Hr; simpl.
  - destruct (JSString.truthy (trim r)) eqn:Ht; simpl.
    + apply Hgen. apply splitKeys_pieces.
    + symmetry. apply Hblank. apply trimStart_spaces, trimEnd_blank.
      unfold trim in Ht. destruct (trimEnd (trimStart r)); [reflexivity|discriminate].
  - destruct r; [reflexivity|discriminate].
Qed.

(** Where the pieces stand in the string: the first piece at its start,
    every other piece that is not empty after a separator, and each up to
    a separator or the end. *)
Lemma splitKeys_delimited s :
  forall inRun,
    (forall p, In p (splitKeys inRun s) -> p <> EmptyString -> delimited s p)
    /\ (forall p, In p (tl (splitKeys inRun s)) -> p <> EmptyString ->
          exists pre post,
            s = pre +:+ p +:+ post
            /\ (exists pre' c, pre = pre' +:+ String c EmptyString /\ isSeparator c = true)
            /\ (post = EmptyString
                \/ exists c post', post = String c post' /\ isSeparator c = true))
    /\ (forall q qs, splitKeys false s = q :: qs ->
          exists post,
            s = q +:+ post
            /\ (post = EmptyString
                \/ exists c post', post = String c post' /\ isSeparator c = true)).
Proof.
  assert (Hext : forall c pre,
            isSeparator c = true \/ (exists pre' c', pre = pre' +:+ String c' EmptyString
                                                   /\ isSeparator c' = true) ->
            pre = EmptyString
            \/ (exists pre' c', pre = pre' +:+ String c' EmptyString /\ isSeparator c' = true) ->
            exists pre' c', String c pre = pre' +:+ String c' EmptyString
                            /\ isSeparator c' = true).
  { intros c pre Hc [->|(pre' & c' & -> & Hc')].
    - destruct Hc as [Hc|(pre' & c' & Hp & _)].
      + exists EmptyString, c. split; [reflexivity|exact Hc].
      + destruct pre'; discriminate.
    - exists (String c pre'), c'. split; [reflexivity|exact Hc']. }
  induction s as [|c s IH]; intros inRun.
  - simpl. split; [|split].
    + intros p [<-|[]] Hp. congruence.
    + intros p [].
    + intros q qs H. injection H as <- <-. exists EmptyString.
      split; [reflexivity|left; reflexivity].
  - destruct (isSeparator c) eqn:Hc.
    + assert (Hin : forall p, In p (splitKeys true s) -> p <> EmptyString ->
                exists pre post,
                  String c s = pre +:+ p +:+ post
                  /\ (exists pre' c', pre = pre' +:+ String c' EmptyString
                                      /\ isSeparator c' = true)
                  /\ (post = EmptyString
                      \/ exists c' post', post = String c' post'
                                          /\ isSeparator c' = true)).
      { intros p Hp Hne. destruct (IH true) as (I1 & _ & _).
        destruct (I1 p Hp Hne) as (pre & post & -> & Hpre & Hpost).
        exists (String c pre), post. split; [reflexivity|].
        split; [|exact Hpost]. apply Hext; [left; exact Hc|exact Hpre]. }
      simpl. rewrite Hc. split; [|split].
      * intros p Hp Hne.
        assert (Hp' : In p (splitKeys true s)).
        { destruct inRun; [exact Hp|]. destruct Hp as [<-|Hp]; [congruence|exact Hp]. }
        destruct (Hin p Hp' Hne) as (pre & post & H1 & H2 & H3).
        exists pre, post. split; [exact H1|]. split; [right; exact H2|exact H3].
      * intros p Hp Hne. apply Hin; [|exact Hne].
        destruct inRun; [|exact Hp].
        destruct (splitKeys true s); [destruct Hp|right; exact Hp].
      * intros q qs H. injection H as <- <-. exists (String c s).
        split; [reflexivity|]. right. exists c, s. split; [reflexivity|exact Hc].
    + destruct (IH false) as (_ & I2 & I3).
      assert (Hshape : splitKeys inRun (String c s)
                       = match splitKeys false s with
                         | [] => [String c EmptyString]
                         | p :: ps => String c p :: ps
                         end).
      { simpl. rewrite Hc. reflexivity. }
      assert (Hshape' : splitKeys false (String c s)
                        = match splitKeys false s with
                          | [] => [String c EmptyString]
                          | p :: ps => String c p :: ps
                          end).
      { simpl. rewrite Hc. reflexivity. }
      rewrite Hshape, Hshape'.
      destruct (splitKeys false s) as [|q qs] eqn:Hs;
        [exfalso; exact (splitKeys_nonempty s false Hs)|].
      destruct (I3 q qs eq_refl) as (post & Heq & Hpost).
      assert (Htail : forall p, In p qs -> p <> EmptyString ->
                exists pre post0,
                  String c s = pre +:+ p +:+ post0
                  /\ (exists pre' c', pre = pre' +:+ String c' EmptyString
                                      /\ isSeparator c' = true)
                  /\ (post0 = EmptyString
                      \/ exists c' post', post0 = String c' post'
                                          /\ isSeparator c' = true)).
      { intros p Hp Hne. destruct (I2 p Hp Hne) as (pre & post0 & H1 & H2 & H3).
        exists (String c pre), post0. rewrite H1. split; [reflexivity|].
        split; [|exact H3]. apply Hext; [right; exact H2|right; exact H2]. }
      split; [|split].
      * intros p [<-|Hp] Hne.
        -- exists EmptyString, post. rewrite Heq. split; [reflexivity|].
           split; [left; reflexivity|exact Hpost].
        -- destruct (Htail p Hp Hne) as (pre & post0 & H1 & H2 & H3).
           exists pre, post0. split; [exact H1|]. split; [right; exact H2|exact H3].
      * exact Htail.
      * intros q0 qs0 H. injection H as <- <-. exists post. rewrite Heq.
        split; [reflexivity|exact Hpost].
Qed.

(** X28. The keys of a constructed pool are the pieces of the raw string
    that are longer than 5 characters, in their order: each key stands in
    the raw string between separators (commas and white space) or the
    ends of the string, contains no separator and starts with no
    failures, no successes and no cooldown, and the current index starts
    at 0. For a raw string given as runs of separators and the pieces
    between them, the keys are exactly the pieces longer than 5
    characters, in order. An absent, empty or blank raw string gives an
    empty pool, on which [getActiveKey] is the empty string and
    [markFailed], [markSuccess] and [rotate] do nothing. *)
Theorem construct_parses (N : Numbers) (raw : option string) :
  let st := construct raw in
  Forall (fun k => (5 < String.length (key k))%nat
                   /\ BridgeAuthenticator.allChars notSeparator (key k) = true
                   /\ failureCount k = 0 /\ successCount k = 0
                   /\ cooldownUntil k = 0 /\ lastFailure k = None)
         (keys st)
  /\ currentIndex st = O
  /\ (raw = None \/ (exists r, raw = Some r
                               /\ BridgeAuthenticator.allChars JSString.isSpace r = true) ->
      keys st = [])
  /\ (keys st = [] ->
      getActiveKey st = EmptyString
      /\ (forall a b, markFailed st a b = st)
      /\ markSuccess st = st
      /\ forall now a b, rotate st now a b = (false, st))
  /\ (forall r, raw = Some r -> Forall (fun k => delimited r (key k)) (keys st))
  /\ (forall items trail,
        Forall wellFormedItem items ->
        BridgeAuthenticator.allChars isSeparator trail = true ->
        (raw = Some (render items +:+ trail) ->
         map key (keys st) = List.filter longEnough (map snd items))
        /\ (forall k0,
              BridgeAuthenticator.allChars notSeparator k0 = true ->
              raw = Some (k0 +:+ render items +:+ trail) ->
              map key (keys st) = List.filter longEnough (k0 :: map snd items))).
Proof.
  intros st.
  assert (Hfrom : forall ps,
            Forall (fun p => BridgeAuthenticator.allChars notSeparator p = true) ps ->
            Forall (fun k => (5 < String.length (key k))%nat
                             /\ BridgeAuthenticator.allChars notSeparator (key k) = true
                             /\ failureCount k = 0 /\ successCount k = 0
                             /\ cooldownUntil k = 0 /\ lastFailure k = None)
                   (keys (fromKeys (map trim ps)))).
  { intros ps Hps. unfold fromKeys. simpl.
    apply List.Forall_forall. intros k Hk.
    apply in_map_iff in Hk as (p & <- & Hp).
    apply filter_In in Hp as [Hp Hlen].
    apply in_map_iff in Hp as (p0 & <- & Hp0).
    rewrite List.Forall_forall in Hps. specialize (Hps p0 Hp0).
    rewrite (trim_piece p0 Hps) in *. simpl.
    apply Nat.ltb_lt in Hlen. repeat split; try assumption. }
  split.
  { unfold st, construct. destruct raw as [r|]; [|constructor].
    destruct (negb (JSString.truthy r) || negb (JSString.truthy (trim r)));
      [constructor|].
    apply Hfrom. apply splitKeys_pieces. }
  split.
  { unfold st, construct. destruct raw as [r|]; [|reflexivity].
    destruct (negb (JSString.truthy r) || negb (JSString.truthy (trim r)));
      reflexivity. }
  split.
  { intros [->|(r & -> & Hblank)]; [reflexivity|].
    unfold st, construct, trim. rewrite (trimStart_blank r Hblank). simpl.
    rewrite orb_true_r. reflexivity. }
  split.
  { intros Hnil. unfold getActiveKey, markFailed, markSuccess, rotate.
    rewrite Hnil. simpl. repeat split; reflexivity. }
  split.
  { intros r ->. apply List.Forall_forall. intros k Hk.
    assert (Hin : In (key k) (map key (keys st))) by (apply in_map; exact Hk).
    unfold st in Hin. rewrite construct_keys in Hin.
    apply filter_In in Hin as [Hin Hlong].
    destruct (splitKeys_delimited r false) as (H1 & _ & _).
    apply H1; [exact Hin|].
    intros He. rewrite He in Hlong. vm_compute in Hlong. discriminate. }
  intros items trail Hit Htr. split.
  - intros ->. unfold st. rewrite construct_keys.
    destruct (splitKeys_gap _ (render_gap items trail Hit Htr)) as (qs & -> & Hqs).
    change (List.filter longEnough (EmptyString :: qs)) with (List.filter longEnough qs).
    rewrite Hqs. apply splitKeys_render; assumption.
  - intros k0 Hk0 ->. unfold st. rewrite construct_keys.
    rewrite (splitKeys_piece k0 _ Hk0).
    destruct (splitKeys_gap _ (render_gap items trail Hit Htr)) as (qs & -> & Hqs).
    rewrite string_app_nil_r.
    change (List.filter longEnough (k0 :: qs))
      with (if longEnough k0 then k0 :: List.filter longEnough qs
            else List.filter longEnough qs).
    change (List.filter longEnough (k0 :: map snd items))
      with (if longEnough k0 then k0 :: List.filter longEnough (map snd items)
            else List.filter longEnough (map snd items)).
    rewrite Hqs, (splitKeys_render items trail Hit Htr). reflexivity.
Qed.

(** On a raw string with commas, line breaks and a short piece, the two
    pieces longer than 5 characters are the keys. *)
Example construct_sample :
  map key (keys (construct (Some " key-alpha-0001, short,
key-beta-0002  "))) = ["key-alpha-0001"; "key-beta-0002"].
Proof. vm_compute. reflexivity. Qed.

End NeuralKeyManagerMore.

(** ** Dispatch of a tool call *)
Module AppFacts.
Import App.

Lemma directive_validate args :
  let a := JSString.toLowerCase (default EmptyString (arg_action args)) in
  let t := JSString.toLowerCase (JSString.orElse (arg_target args) EmptyString) in
  let p := JSString.toLowerCase (JSString.orElse (arg_payload args) EmptyString) in
  CommandValidator.validate (directiveCommand args)
  = match CommandValidator.firstBlocked (CommandValidator.combine3 a t p) with
    | Some blocked =>
        Some {| CommandValidator.valid := false;
                CommandValidator.message :=
                  "BLOCKED: '" +:+ blocked +:+ "' is a prohibited operation.";
                CommandValidator.dangerous := true |}
    | None =>
        if negb (JSString.truthy a) then
          Some {| CommandValidator.valid := false;
                  CommandValidator.message := "Missing action field.";
                  CommandValidator.dangerous := false |}
        else
          Some {| CommandValidator.valid := true;
                  CommandValidator.message := "OK";
                  CommandValidator.dangerous :=
                    CommandValidator.has CommandValidator.DANGEROUS_ACTIONS a |}
    end.
Proof.
  intros a t p. unfold CommandValidator.validate, directiveCommand.
  rewrite !(lookup_insert_ne _ _ "action") by discriminate.
  rewrite lookup_insert_eq.
  rewrite !(lookup_insert_ne _ _ "target") by discriminate.
  rewrite lookup_insert_eq.
  rewrite !(lookup_insert_ne _ _ "payload") by discriminate.
  rewrite lookup_insert_eq.
  unfold a. destruct (arg_action args) as [s|]; reflexivity.
Qed.

(** X29. The dispatch of a directive never raises in validation. A
    command that [validate] rejects is blocked: nothing is transmitted,
    logged or queued. A valid command is transmitted wrapped, and logged
    as a success, when the bridge is open, the queue being untouched; when
    the bridge is closed it is handed to [enqueue], at priority 'high' if
    its action requires confirmation and 'normal' otherwise, and always at
    'high' when [validate] flagged it dangerous, the log being untouched. *)
Theorem directive_is_blocked_sent_or_queued (svc : Services) (args : ToolArgs)
    (env : Env) :
  exists v,
    CommandValidator.validate (directiveCommand args) = Some v
    /\ (CommandValidator.valid v = false ->
        handleDirective svc args env = (Blocked (CommandValidator.message v), svc, []))
    /\ (CommandValidator.valid v = true -> bridgeOpen svc = true ->
        exists svc',
          handleDirective svc args env
          = (Transmitted
               (BridgeAuthenticator.wrapCommand (auth svc) (directiveCommand args)
                  (env_now env) (env_random env)),
             svc', [])
          /\ commands svc' = commands svc
          /\ auth svc' = auth svc
          /\ exists entry,
               last (ActivityLogger.logs (logger svc')) = Some entry
               /\ ActivityLogger.action entry = default EmptyString (arg_action args)
               /\ ActivityLogger.status entry = ActivityLogger.success)
    /\ (CommandValidator.valid v = true -> bridgeOpen svc = false ->
        exists item svc' evs,
          handleDirective svc args env = (Queued item, svc', evs)
          /\ logger svc' = logger svc
          /\ auth svc' = auth svc
          /\ CommandQueue.command item = directiveCommand args
          /\ CommandQueue.priority item
             = (if CommandValidator.requiresConfirmation
                     (default EmptyString (arg_action args)) None None
                then CommandQueue.high else CommandQueue.normal)
          /\ (CommandValidator.dangerous v = true ->
              CommandQueue.priority item = CommandQueue.high)
          /\ CommandQueue.queue (commands svc')
             = CommandQueue.enqueueItem (CommandQueue.queue (commands svc)) item).
Proof.
  pose proof (directive_validate args) as Hv. cbv zeta in Hv.
  unfold handleDirective. rewrite Hv. clear Hv.
  set (a := JSString.toLowerCase (default EmptyString (arg_action args))).
  destruct (CommandValidator.firstBlocked _) as [blocked|].
  - eexists. split; [reflexivity|]. simpl.
    split; [reflexivity|]. split; discriminate.
  - destruct (JSString.truthy a) eqn:Htr; simpl.
    + eexists. split; [reflexivity|]. simpl. split; [discriminate|].
      split.
      * intros _ Hopen. rewrite Hopen. simpl.
        eexists. split; [reflexivity|]. simpl.
        split; [reflexivity|]. split; [reflexivity|].
        unfold JSArray.pushBounded.
        match goal with |- context [?l ++ [?x]] => exists x end.
        split; [|split; reflexivity].
        match goal with
          |- context [if ?c then _ else _] => destruct c eqn:Hc
        end.
        -- match goal with |- last (tl (?l ++ [?x])) = _ =>
             destruct l as [|y l']; [simpl in Hc; discriminate|] end.
           simpl. apply last_snoc.
        -- apply last_snoc.
      * intros _ Hopen. rewrite Hopen. simpl.
        match goal with |- context [CommandQueue.enqueue ?s ?r] =>
          pose proof (CommandQueueFacts.enqueue_queue s r) as Hq;
          destruct (CommandQueue.enqueue s r) as [[item q] evs] eqn:Henq
        end.
        assert (Hitem : item = CommandQueue.newItem
                  {| CommandQueue.req_command := directiveCommand args;
                     CommandQueue.req_priority :=
                       Some (if CommandValidator.requiresConfirmation
                                  (default EmptyString (arg_action args)) None None
                             then CommandQueue.high else CommandQueue.normal);
                     CommandQueue.req_maxRetries := None;
                     CommandQueue.req_onComplete := None;
                     CommandQueue.req_onError := None;
                     CommandQueue.req_id := env_id env;
                     CommandQueue.req_now := env_now env |}).
        { unfold CommandQueue.enqueue in Henq.
          destruct (CommandQueue.trim _) in Henq. injection Henq as <- _ _.
          reflexivity. }
        exists item, {| auth := auth svc; logger := logger svc; commands := q;
                        bridgeOpen := false |}, evs.
        split; [reflexivity|]. simpl. split; [reflexivity|]. split; [reflexivity|].
        simpl in Hq. rewrite Hq, Hitem. simpl.
        split; [reflexivity|]. split; [reflexivity|]. split; [|reflexivity].
        intros Hd.
        change (CommandValidator.has CommandValidator.DANGEROUS_ACTIONS a = true) in Hd.
        unfold CommandValidator.requiresConfirmation. fold a.
        rewrite Hd. reflexivity.
    + eexists. split; [reflexivity|]. simpl.
      split; [reflexivity|]. split; discriminate.
Qed.

End AppFacts.
